(** * Sync and enrichment services: a shallow embedding

    The two services of the repository are embedded as programs of a small
    state-and-exception monad over one [World]: the process clock, the
    rate limiter's timestamp array, the two store tables and a trace of
    the outbound calls.  Everything the outside decides (replies of the
    feed, of the geolocation API and of the store, request latencies,
    timer lateness) is read from an [Env], indexed by the number of calls
    of that kind made so far, so that a run is a function of its
    environment. *)

From Stdlib Require Import ZArith NArith Arith List String Ascii Bool Lia
  DecimalString Sorted.
Import ListNotations.

Local Open Scope string_scope.
Local Open Scope list_scope.

(** ** JavaScript values *)

(** Truthiness of a string: only the empty string is falsy. *)
Definition truthy (s : string) : bool := negb (String.eqb s "").

(** Truthiness of a nullable string ([None] is null or undefined). *)
Definition truthy_opt (o : option string) : bool :=
  match o with
  | Some s => truthy s
  | None => false
  end.

(** [x || null] on a nullable string. *)
Definition or_null (o : option string) : option string :=
  if truthy_opt o then o else None.

(** A user as the feed returns it. *)
Record ApiUser := {
  user_id : string;
  email : string;
  ipAddress : option string;
  identifierType : string;
  createdAt : string;
  updatedAt : string
}.

(** A row of the table id_users. *)
Record DbUser := {
  row_user_id : string;
  row_email : string;
  ip_address : option string;
  identifier_type : string;
  created_at : string;
  updated_at : string;
  ingested_at : Z;
  country_name_official : option string;
  state : option string;
  city : option string;
  district : option string;
  country_code : option string
}.

Record Pagination := { hasNextPage : option bool }.

Record ApiData := {
  users : option (list ApiUser);
  pagination : option Pagination
}.

(** The body of a response of the feed, as the code reads it: its fields
    status, message and data.  [status] is [None] when the body carries
    no integer there (an empty or non-JSON body, which axios hands over
    as a string, or an object without the field); the other two fields
    are then read as undefined likewise. *)
Record ApiBody := {
  status : option Z;
  message : option string;
  data : option ApiData
}.

(** response.data.status !== 1, negated. *)
Definition status_is_1 (body : ApiBody) : bool :=
  match status body with
  | Some st => (st =? 1)%Z
  | None => false
  end.

(** The location object of a geolocation response. *)
Record Location := {
  loc_country_name_official : option string;
  state_prov : option string;
  loc_city : option string;
  loc_district : option string;
  country_code2 : option string
}.

Record GeoData := { location : option Location }.

(** What axios.get settles to: a response with its body ([None] when
    response.data is null), or a rejection carrying [error.response] and
    [error.request]. *)
Inductive AxiosReply (B : Type) :=
| Resolved (body : option B)
| Rejected (response : option (nat * string)) (request : bool).
Arguments Resolved {B} body.
Arguments Rejected {B} response request.

(** What a store call returns in its [error] field. *)
Inductive DbReply :=
| DbOk
| DbError (code : string).

(** Values that the code throws. *)
Inductive JsError :=
| AxiosError (response : option (nat * string)) (request : bool)
| TypeError
| ApiStatusError (st : option Z) (msg : option string)
| ApiError (st : nat) (statusText : string)
| NetworkError
| Page1Empty
| CheckpointUndetermined
| StoreError (code : string).

Definition error_response (e : JsError) : option (nat * string) :=
  match e with
  | AxiosError r _ => r
  | _ => None
  end.

Definition error_request (e : JsError) : bool :=
  match e with
  | AxiosError _ q => q
  | _ => false
  end.

Definition is_some {A} (o : option A) : bool :=
  match o with
  | Some _ => true
  | None => false
  end.

(** A request left the process when axios got a response or at least
    built and sent the request. *)
Definition reaches_network {B} (r : AxiosReply B) : bool :=
  match r with
  | Resolved _ => true
  | Rejected response request => is_some response || request
  end.

(** The columns an update of id_users sets. *)
Record Updates := {
  up_country_name_official : option string;
  up_state : option string;
  up_city : option string;
  up_district : option string;
  up_country_code : option string
}.

(** ** The world *)

Inductive Event :=
| EvFetch (page : nat)
| EvGetCheckpoint
| EvUpdateCheckpoint (value : string) (ok : bool)
| EvUpsertUsers (us : list ApiUser) (ok : bool)
| EvSelect (batchSize offset : nat) (returned : option nat)
| EvGeoLookup (ip : string)
| EvReadUser (userId : string)
| EvUpdateUser (userId : string) (upd : Updates) (ok : bool).

(** The row of id_sync_state under the key last_synced_user_id. *)
Record SyncState := {
  value : string;
  state_updated_at : Z
}.

Record World := {
  clock : Z;
  apiCallTimestamps : list Z;
  admissions : list Z;
  netCalls : nat;
  timers : nat;
  dbCalls : nat;
  geoCalls : nat;
  id_sync_state : option SyncState;
  id_users : list DbUser;
  trace : list Event
}.

Record Env := {
  net : nat -> AxiosReply ApiBody;
  net_latency : nat -> N;
  timer_late : nat -> N;
  db : nat -> DbReply;
  geo : nat -> AxiosReply GeoData;
  ENRICHMENT_BATCH_SIZE : nat
}.

Definition set_clock (c : Z) (w : World) : World :=
  {| clock := c; apiCallTimestamps := apiCallTimestamps w;
     admissions := admissions w; netCalls := netCalls w; timers := timers w;
     dbCalls := dbCalls w; geoCalls := geoCalls w;
     id_sync_state := id_sync_state w; id_users := id_users w;
     trace := trace w |}.

Definition set_apiCallTimestamps (ts : list Z) (w : World) : World :=
  {| clock := clock w; apiCallTimestamps := ts;
     admissions := admissions w; netCalls := netCalls w; timers := timers w;
     dbCalls := dbCalls w; geoCalls := geoCalls w;
     id_sync_state := id_sync_state w; id_users := id_users w;
     trace := trace w |}.

Definition set_admissions (a : list Z) (w : World) : World :=
  {| clock := clock w; apiCallTimestamps := apiCallTimestamps w;
     admissions := a; netCalls := netCalls w; timers := timers w;
     dbCalls := dbCalls w; geoCalls := geoCalls w;
     id_sync_state := id_sync_state w; id_users := id_users w;
     trace := trace w |}.

Definition set_netCalls (n : nat) (w : World) : World :=
  {| clock := clock w; apiCallTimestamps := apiCallTimestamps w;
     admissions := admissions w; netCalls := n; timers := timers w;
     dbCalls := dbCalls w; geoCalls := geoCalls w;
     id_sync_state := id_sync_state w; id_users := id_users w;
     trace := trace w |}.

Definition set_timers (n : nat) (w : World) : World :=
  {| clock := clock w; apiCallTimestamps := apiCallTimestamps w;
     admissions := admissions w; netCalls := netCalls w; timers := n;
     dbCalls := dbCalls w; geoCalls := geoCalls w;
     id_sync_state := id_sync_state w; id_users := id_users w;
     trace := trace w |}.

Definition set_dbCalls (n : nat) (w : World) : World :=
  {| clock := clock w; apiCallTimestamps := apiCallTimestamps w;
     admissions := admissions w; netCalls := netCalls w; timers := timers w;
     dbCalls := n; geoCalls := geoCalls w;
     id_sync_state := id_sync_state w; id_users := id_users w;
     trace := trace w |}.

Definition set_geoCalls (n : nat) (w : World) : World :=
  {| clock := clock w; apiCallTimestamps := apiCallTimestamps w;
     admissions := admissions w; netCalls := netCalls w; timers := timers w;
     dbCalls := dbCalls w; geoCalls := n;
     id_sync_state := id_sync_state w; id_users := id_users w;
     trace := trace w |}.

Definition set_id_sync_state (v : option SyncState) (w : World) : World :=
  {| clock := clock w; apiCallTimestamps := apiCallTimestamps w;
     admissions := admissions w; netCalls := netCalls w; timers := timers w;
     dbCalls := dbCalls w; geoCalls := geoCalls w;
     id_sync_state := v; id_users := id_users w;
     trace := trace w |}.

Definition set_id_users (t : list DbUser) (w : World) : World :=
  {| clock := clock w; apiCallTimestamps := apiCallTimestamps w;
     admissions := admissions w; netCalls := netCalls w; timers := timers w;
     dbCalls := dbCalls w; geoCalls := geoCalls w;
     id_sync_state := id_sync_state w; id_users := t;
     trace := trace w |}.

(** Events are appended, so a trace reads in program order. *)
Definition log (e : Event) (w : World) : World :=
  {| clock := clock w; apiCallTimestamps := apiCallTimestamps w;
     admissions := admissions w; netCalls := netCalls w; timers := timers w;
     dbCalls := dbCalls w; geoCalls := geoCalls w;
     id_sync_state := id_sync_state w; id_users := id_users w;
     trace := trace w ++ [e] |}.

(** ** The monad: state, exceptions, and running out of fuel *)

Inductive Res (A : Type) :=
| Ok (a : A)
| Throw (e : JsError)
| Diverge.
Arguments Ok {A} a.
Arguments Throw {A} e.
Arguments Diverge {A}.

Definition M (A : Type) : Type := World -> Res A * World.

Definition ret {A} (a : A) : M A := fun w => (Ok a, w).

Definition bind {A B} (m : M A) (k : A -> M B) : M B :=
  fun w =>
    match m w with
    | (Ok a, w') => k a w'
    | (Throw e, w') => (Throw e, w')
    | (Diverge, w') => (Diverge, w')
    end.

Definition throw {A} (e : JsError) : M A := fun w => (Throw e, w).

Definition diverge {A} : M A := fun w => (Diverge, w).

(** try { m } catch (error) { h error } *)
Definition try_catch {A} (m : M A) (h : JsError -> M A) : M A :=
  fun w =>
    match m w with
    | (Throw e, w') => h e w'
    | r => r
    end.

Definition gets {A} (f : World -> A) : M A := fun w => (Ok (f w), w).

Definition modify (f : World -> World) : M unit := fun w => (Ok tt, f w).

Declare Scope monad_scope.
Delimit Scope monad_scope with monad.
Notation "x <- m ;; k" := (bind m (fun x => k))
  (at level 61, m at next level, right associativity) : monad_scope.
Notation "m ;; k" := (bind m (fun _ => k))
  (at level 61, right associativity) : monad_scope.
Local Open Scope monad_scope.

(** ** sync.js: the rate limiter *)

Definition RATE_LIMIT_MAX_REQUESTS : nat := 3.
Definition RATE_LIMIT_WINDOW_MS : Z := 10000.

(** while (ts.length > 0 && now - ts[0] >= RATE_LIMIT_WINDOW_MS) ts.shift() *)
Fixpoint shift_expired (now : Z) (ts : list Z) : list Z :=
  match ts with
  | [] => []
  | t :: rest =>
      if (RATE_LIMIT_WINDOW_MS <=? now - t)%Z then shift_expired now rest
      else ts
  end.

(** ** Regular expressions anchored at the start of the input

    The patterns of isPrivateIP all start with ^ and have no $: a string
    passes [test] when one of its prefixes matches. *)

Inductive regex :=
| Eps
| Chr (c : ascii)
| Range (lo hi : ascii)
| Seq (r s : regex)
| Alt (r s : regex)
| NoMatch.

Fixpoint nullable (r : regex) : bool :=
  match r with
  | Eps => true
  | Chr _ => false
  | Range _ _ => false
  | Seq r s => nullable r && nullable s
  | Alt r s => nullable r || nullable s
  | NoMatch => false
  end.

Definition in_range (lo hi c : ascii) : bool :=
  (nat_of_ascii lo <=? nat_of_ascii c)%nat
  && (nat_of_ascii c <=? nat_of_ascii hi)%nat.

(** Brzozowski derivative. *)
Fixpoint deriv (c : ascii) (r : regex) : regex :=
  match r with
  | Eps => NoMatch
  | Chr d => if Ascii.eqb c d then Eps else NoMatch
  | Range lo hi => if in_range lo hi c then Eps else NoMatch
  | Seq r s =>
      if nullable r then Alt (Seq (deriv c r) s) (deriv c s)
      else Seq (deriv c r) s
  | Alt r s => Alt (deriv c r) (deriv c s)
  | NoMatch => NoMatch
  end.

Fixpoint regex_test (r : regex) (s : string) : bool :=
  nullable r
  || match s with
     | EmptyString => false
     | String c rest => regex_test (deriv c r) rest
     end.

(** The characters of a literal, one after the other. *)
Fixpoint lit (s : string) : regex :=
  match s with
  | EmptyString => Eps
  | String c rest => Seq (Chr c) (lit rest)
  end.

(** The private and reserved IPv4 ranges of isPrivateIP. *)
Definition privateRanges : list regex :=
  [ lit "10.";
    Seq (lit "172.")
      (Seq (Alt (Seq (Chr "1") (Range "6" "9"))
              (Alt (Seq (Chr "2") (Range "0" "9"))
                   (Seq (Chr "3") (Range "0" "1"))))
           (Chr "."));
    lit "192.168.";
    lit "127.";
    lit "169.254.";
    lit "0." ].

Section Services.

Variable env : Env.

Definition Date_now : M Z := gets clock.

(** await new Promise(resolve => setTimeout(resolve, ms)): the timer fires
    no earlier than asked (and a delay below 1 ms counts as 1 ms). *)
Definition setTimeout (ms : Z) : M unit :=
  modify (fun w =>
    set_timers (S (timers w))
      (set_clock (clock w + Z.max 1 ms + Z.of_N (timer_late env (timers w)))%Z w)).

Definition waitForRateLimit : M unit :=
  now <- Date_now ;;
  modify (fun w => set_apiCallTimestamps (shift_expired now (apiCallTimestamps w)) w) ;;
  ts <- gets apiCallTimestamps ;;
  if (RATE_LIMIT_MAX_REQUESTS <=? List.length ts)%nat then
    let oldestCallTime := hd 0%Z ts in
    let waitTime := (RATE_LIMIT_WINDOW_MS - (now - oldestCallTime) + 100)%Z in
    setTimeout waitTime ;;
    newNow <- Date_now ;;
    modify (fun w => set_apiCallTimestamps (shift_expired newNow (apiCallTimestamps w)) w)
  else ret tt.

Definition recordApiCall : M unit :=
  modify (fun w => set_apiCallTimestamps (apiCallTimestamps w ++ [clock w]) w).

(** axios.get(url, { timeout: 30000 }) on the feed, the url being the base
    url for page 1 and below and `?page=N` above.  The call is issued at
    the current clock; when it leaves the process that instant is kept in
    [admissions].  It settles [net_latency] later. *)
Definition axios_get_page (page : nat) : M (option ApiBody) :=
  fun w =>
    let reply := net env (netCalls w) in
    let w1 := log (EvFetch page) w in
    let w2 := if reaches_network reply
              then set_admissions (admissions w1 ++ [clock w1]) w1 else w1 in
    let w3 := set_clock (clock w2 + Z.of_N (net_latency env (netCalls w)))%Z w2 in
    let w4 := set_netCalls (S (netCalls w)) w3 in
    match reply with
    | Resolved body => (Ok body, w4)
    | Rejected response request => (Throw (AxiosError response request), w4)
    end.

Definition fetchUsersPage (page : nat) : M (option ApiData) :=
  waitForRateLimit ;;
  try_catch
    (response_data <- axios_get_page page ;;
     recordApiCall ;;
     match response_data with
     | None => throw TypeError
     | Some body =>
         if negb (status_is_1 body)
         then throw (ApiStatusError (status body) (message body))
         else ret (data body)
     end)
    (fun error =>
       (if is_some (error_response error) || error_request error
        then recordApiCall else ret tt) ;;
       match error_response error with
       | Some (st, statusText) => throw (ApiError st statusText)
       | None =>
           if error_request error then throw NetworkError
           else throw error
       end).

(** ** supabase.js *)

Definition CHECKPOINT_KEY : string := "last_synced_user_id".

(** One call of the store client: the next reply of the store. *)
Definition db_call : M DbReply :=
  fun w => (Ok (db env (dbCalls w)), set_dbCalls (S (dbCalls w)) w).

(** select('value').eq('key', CHECKPOINT_KEY).single(): without a row the
    store itself answers with the error code PGRST116. *)
Definition getCheckpoint : M (option string) :=
  try_catch
    (modify (log EvGetCheckpoint) ;;
     reply <- db_call ;;
     row <- gets id_sync_state ;;
     match reply, row with
     | DbError code, _ =>
         if code =? "PGRST116" then ret None else throw (StoreError code)
     | DbOk, None => ret None
     | DbOk, Some r => ret (or_null (Some (value r)))
     end)
    (fun error => throw error).

Definition updateCheckpoint (userId : string) : M unit :=
  try_catch
    (now <- Date_now ;;
     reply <- db_call ;;
     match reply with
     | DbError code =>
         modify (log (EvUpdateCheckpoint userId false)) ;;
         throw (StoreError code)
     | DbOk =>
         modify (fun w =>
           log (EvUpdateCheckpoint userId true)
             (set_id_sync_state
                (Some {| value := userId; state_updated_at := now |}) w))
     end)
    (fun error => throw error).

Definition to_dbUser (now : Z) (user : ApiUser) : DbUser :=
  {| row_user_id := user_id user;
     row_email := email user;
     ip_address := or_null (ipAddress user);
     identifier_type := identifierType user;
     created_at := createdAt user;
     updated_at := updatedAt user;
     ingested_at := now;
     country_name_official := None;
     state := None;
     city := None;
     district := None;
     country_code := None |}.

Definition has_user_id (id : string) (table : list DbUser) : bool :=
  existsb (fun r => row_user_id r =? id) table.

(** upsert(rows, { onConflict: 'user_id', ignoreDuplicates: true }) *)
Fixpoint upsert_ignore (table rows : list DbUser) : list DbUser :=
  match rows with
  | [] => table
  | r :: rest =>
      upsert_ignore
        (if has_user_id (row_user_id r) table then table else table ++ [r])
        rest
  end.

Definition insertUsers (users : option (list ApiUser)) : M nat :=
  match users with
  | None => ret 0
  | Some us =>
      if (List.length us =? 0)%nat then ret 0
      else
        try_catch
          (now <- Date_now ;;
           let dbUsers := map (to_dbUser now) us in
           reply <- db_call ;;
           match reply with
           | DbError code =>
               modify (log (EvUpsertUsers us false)) ;;
               throw (StoreError code)
           | DbOk =>
               modify (fun w =>
                 log (EvUpsertUsers us true)
                   (set_id_users (upsert_ignore (id_users w) dbUsers) w)) ;;
               ret (List.length dbUsers)
           end)
          (fun _ => ret 0)
  end.

(** ** sync.js: the two sync strategies *)

(** data.users || [] *)
Definition users_or_empty (d : ApiData) : list ApiUser :=
  match users d with
  | Some us => us
  | None => []
  end.

(** data.pagination?.hasNextPage || false *)
Definition has_next (d : ApiData) : bool :=
  match pagination d with
  | Some p =>
      match hasNextPage p with
      | Some b => b
      | None => false
      end
  | None => false
  end.

(** Array.prototype.findIndex, with [None] for -1. *)
Fixpoint findIndex {A} (f : A -> bool) (l : list A) : option nat :=
  match l with
  | [] => None
  | x :: rest => if f x then Some 0 else option_map S (findIndex f rest)
  end.

(** The while loop of fetchAllPages; [fuel] bounds its iterations. *)
Fixpoint fetchAllPages_loop (fuel : nat) (allUsers : list ApiUser)
    (currentPage : nat) (hasNext : bool) : M (list ApiUser) :=
  if negb hasNext then ret allUsers
  else
    match fuel with
    | O => diverge
    | S fuel' =>
        r <- try_catch
               (d <- fetchUsersPage currentPage ;;
                match d with
                | None => throw TypeError
                | Some d =>
                    let us := users_or_empty d in
                    ret (if (0 <? List.length us)%nat then allUsers ++ us
                         else allUsers,
                         has_next d)
                end)
               (fun error => throw error) ;;
        fetchAllPages_loop fuel' (fst r) (S currentPage) (snd r)
    end.

Definition fetchAllPages (fuel : nat) : M (list ApiUser) :=
  fetchAllPages_loop fuel [] 1 true.

(** The while loop of fetchIncrementalPages.  An iteration either breaks
    ([inl]) or goes on to the next page ([inr]); the loop carries
    firstUserIdFromPage1 and totalInserted. *)
Fixpoint fetchIncrementalPages_loop (fuel : nat) (checkpointUserId : string)
    (currentPage : nat) (hasNext : bool)
    (firstUserIdFromPage1 : option string) (totalInserted : nat)
    : M (option string * nat) :=
  if negb hasNext then ret (firstUserIdFromPage1, totalInserted)
  else
    match fuel with
    | O => diverge
    | S fuel' =>
        step <- try_catch
          (d <- fetchUsersPage currentPage ;;
           match d with
           | None => throw TypeError
           | Some d =>
               let us := users_or_empty d in
               if (List.length us =? 0)%nat
               then ret (inl (firstUserIdFromPage1, totalInserted))
               else
                 let first :=
                   if (currentPage =? 1)%nat && (0 <? List.length us)%nat
                   then option_map user_id (hd_error us)
                   else firstUserIdFromPage1 in
                 match findIndex
                         (fun user => user_id user =? checkpointUserId) us with
                 | Some checkpointIndex =>
                     let usersToInsert := firstn checkpointIndex us in
                     total <-
                       (if (0 <? List.length usersToInsert)%nat
                        then inserted <- insertUsers (Some usersToInsert) ;;
                             ret (totalInserted + inserted)
                        else ret totalInserted) ;;
                     ret (inl (first, total))
                 | None =>
                     inserted <- insertUsers (Some us) ;;
                     ret (inr (first, totalInserted + inserted, has_next d))
                 end
           end)
          (fun error => throw error) ;;
        match step with
        | inl result => ret result
        | inr (first, total, hn) =>
            fetchIncrementalPages_loop fuel' checkpointUserId
              (S currentPage) hn first total
        end
    end.

Definition fetchIncrementalPages (fuel : nat) (checkpointUserId : string)
    : M string :=
  r <- fetchIncrementalPages_loop fuel checkpointUserId 1 true None 0 ;;
  first <-
    (if negb (truthy_opt (fst r))
     then
       try_catch
         (d <- fetchUsersPage 1 ;;
          match d with
          | None => throw TypeError
          | Some d =>
              let us := users_or_empty d in
              if (0 <? List.length us)%nat
              then ret (option_map user_id (hd_error us))
              else ret (fst r)
          end)
         (fun error => throw error)
     else ret (fst r)) ;;
  match first with
  | Some id => if truthy id then ret id else throw CheckpointUndetermined
  | None => throw CheckpointUndetermined
  end.

(** The branch of syncUsers taken when there is no checkpoint. *)
Definition syncUsers_full (fuel : nat) : M unit :=
  allUsers <- fetchAllPages fuel ;;
  if (0 <? List.length allUsers)%nat
  then
    inserted <- insertUsers (Some allUsers) ;;
    firstPageData <- fetchUsersPage 1 ;;
    match firstPageData with
    | None => throw TypeError
    | Some d =>
        match users_or_empty d with
        | u :: _ => updateCheckpoint (user_id u)
        | [] => throw Page1Empty
        end
    end
  else ret tt.

(** The branch of syncUsers taken when a checkpoint was read. *)
Definition syncUsers_incremental (fuel : nat) (checkpoint : string) : M unit :=
  newCheckpoint <- fetchIncrementalPages fuel checkpoint ;;
  updateCheckpoint newCheckpoint.

Definition syncUsers (fuel : nat) : M unit :=
  try_catch
    (checkpoint <- getCheckpoint ;;
     match checkpoint with
     | Some cp =>
         if negb (truthy cp) then syncUsers_full fuel
         else syncUsers_incremental fuel cp
     | None => syncUsers_full fuel
     end)
    (fun error => throw error).

(** ** enrichment.js *)

Definition isPrivateIP (ip : option string) : bool :=
  match ip with
  | None => true
  | Some s =>
      if negb (truthy s) then true
      else existsb (fun range => regex_test range s) privateRanges
  end.

Definition is_null (o : option string) : bool := negb (is_some o).

(** not('ip_address', 'is', null) and or(... .is.null) *)
Definition needs_enrichment (r : DbUser) : bool :=
  is_some (ip_address r)
  && (is_null (country_name_official r) || is_null (state r)
      || is_null (city r) || is_null (district r) || is_null (country_code r)).

(** The select of getUsersNeedingEnrichment with
    range(offset, offset + batchSize - 1), rows in table order. *)
Definition getUsersNeedingEnrichment (batchSize offset : nat)
    : M (list DbUser) :=
  try_catch
    (reply <- db_call ;;
     match reply with
     | DbError code =>
         modify (log (EvSelect batchSize offset None)) ;;
         throw (StoreError code)
     | DbOk =>
         rows <- gets (fun w =>
           firstn batchSize (skipn offset (filter needs_enrichment (id_users w)))) ;;
         modify (log (EvSelect batchSize offset (Some (List.length rows)))) ;;
         ret rows
     end)
    (fun error => throw error).

(** axios.get on the geolocation API, timeout 10 s. *)
Definition axios_get_geo (ip : string) : M (option GeoData) :=
  fun w =>
    let w1 := set_geoCalls (S (geoCalls w)) (log (EvGeoLookup ip) w) in
    match geo env (geoCalls w) with
    | Resolved body => (Ok body, w1)
    | Rejected response request => (Throw (AxiosError response request), w1)
    end.

Definition fetchGeolocationData (ipAddress : option string)
    : M (option GeoData) :=
  match ipAddress with
  | None => ret None
  | Some ip =>
      if negb (truthy ip) || isPrivateIP ipAddress then ret None
      else try_catch (axios_get_geo ip) (fun _ => ret None)
  end.

(** The object [updates]: a column is set when the response field is truthy. *)
Definition build_updates (l : Location) : Updates :=
  {| up_country_name_official := or_null (loc_country_name_official l);
     up_state := or_null (state_prov l);
     up_city := or_null (loc_city l);
     up_district := or_null (loc_district l);
     up_country_code := or_null (country_code2 l) |}.

(** Object.keys(u).length === 0 *)
Definition no_keys (u : Updates) : bool :=
  is_null (up_country_name_official u) && is_null (up_state u)
  && is_null (up_city u) && is_null (up_district u)
  && is_null (up_country_code u).

(** updates.c && !currentUser.c *)
Definition keep_if_unset (candidate current : option string) : option string :=
  if truthy_opt candidate && negb (truthy_opt current) then candidate else None.

Definition final_updates (u : Updates) (currentUser : DbUser) : Updates :=
  {| up_country_name_official :=
       keep_if_unset (up_country_name_official u) (country_name_official currentUser);
     up_state := keep_if_unset (up_state u) (state currentUser);
     up_city := keep_if_unset (up_city u) (city currentUser);
     up_district := keep_if_unset (up_district u) (district currentUser);
     up_country_code := keep_if_unset (up_country_code u) (country_code currentUser) |}.

Definition set_col (upd current : option string) : option string :=
  match upd with
  | Some v => Some v
  | None => current
  end.

(** update(u) on one row: only the keys of [u] are written. *)
Definition apply_updates (u : Updates) (r : DbUser) : DbUser :=
  {| row_user_id := row_user_id r;
     row_email := row_email r;
     ip_address := ip_address r;
     identifier_type := identifier_type r;
     created_at := created_at r;
     updated_at := updated_at r;
     ingested_at := ingested_at r;
     country_name_official := set_col (up_country_name_official u) (country_name_official r);
     state := set_col (up_state u) (state r);
     city := set_col (up_city u) (city r);
     district := set_col (up_district u) (district r);
     country_code := set_col (up_country_code u) (country_code r) |}.

(** update(u).eq('user_id', userId) on the table. *)
Definition update_where (userId : string) (u : Updates) (table : list DbUser)
    : list DbUser :=
  map (fun r => if row_user_id r =? userId then apply_updates u r else r) table.

(** select(...).eq('user_id', userId).single() *)
Definition select_single (userId : string) : M DbUser :=
  modify (log (EvReadUser userId)) ;;
  reply <- db_call ;;
  rows <- gets (fun w => filter (fun r => row_user_id r =? userId) (id_users w)) ;;
  match reply, rows with
  | DbError code, _ => throw (StoreError code)
  | DbOk, [r] => ret r
  | DbOk, _ => throw (StoreError "PGRST116")
  end.

Definition enrichUser (userId : string) (geolocationData : option GeoData)
    : M bool :=
  match geolocationData with
  | None => ret false
  | Some g =>
      match location g with
      | None => ret false
      | Some loc =>
          try_catch
            (let updates := build_updates loc in
             if no_keys updates then ret false
             else
               currentUser <- select_single userId ;;
               let finalUpdates := final_updates updates currentUser in
               if no_keys finalUpdates then ret false
               else
                 reply <- db_call ;;
                 match reply with
                 | DbError code =>
                     modify (log (EvUpdateUser userId finalUpdates false)) ;;
                     throw (StoreError code)
                 | DbOk =>
                     modify (fun w =>
                       log (EvUpdateUser userId finalUpdates true)
                         (set_id_users
                            (update_where userId finalUpdates (id_users w)) w)) ;;
                     ret true
                 end)
            (fun _ => ret false)
      end
  end.

Record BatchResult := {
  processed : nat;
  enriched : nat;
  hasMore : bool
}.

(** The for loop of processEnrichmentBatch, carrying processedCount and
    enrichedCount. *)
Fixpoint process_users (us : list DbUser) (processedCount enrichedCount : nat)
    : M (nat * nat) :=
  match us with
  | [] => ret (processedCount, enrichedCount)
  | user :: rest =>
      counts <- try_catch
        (geolocationData <- fetchGeolocationData (ip_address user) ;;
         enrichedCount' <-
           (if is_some geolocationData
            then success <- enrichUser (row_user_id user) geolocationData ;;
                 ret (if success then S enrichedCount else enrichedCount)
            else ret enrichedCount) ;;
         setTimeout 200 ;;
         ret (S processedCount, enrichedCount'))
        (fun _ => ret (S processedCount, enrichedCount)) ;;
      process_users rest (fst counts) (snd counts)
  end.

Definition processEnrichmentBatch (batchSize offset : nat) : M BatchResult :=
  try_catch
    (us <- getUsersNeedingEnrichment batchSize offset ;;
     if (List.length us =? 0)%nat
     then ret {| processed := 0; enriched := 0; hasMore := false |}
     else
       counts <- process_users us 0 0 ;;
       ret {| processed := fst counts;
              enriched := snd counts;
              hasMore := (List.length us =? batchSize)%nat |})
    (fun error => throw error).

(** The while loop of enrichUsers. *)
Fixpoint enrichUsers_loop (fuel : nat) (batchSize offset : nat)
    (totalProcessed totalEnriched : nat) (more : bool) : M (nat * nat) :=
  if negb more then ret (totalProcessed, totalEnriched)
  else
    match fuel with
    | O => diverge
    | S fuel' =>
        result <- processEnrichmentBatch batchSize offset ;;
        let more' :=
          if (processed result <? batchSize)%nat then false
          else hasMore result in
        (if more' then setTimeout 500 else ret tt) ;;
        enrichUsers_loop fuel' batchSize (offset + batchSize)
          (totalProcessed + processed result)
          (totalEnriched + enriched result) more'
    end.

Definition enrichUsers (fuel : nat) : M (nat * nat) :=
  try_catch
    (enrichUsers_loop fuel (ENRICHMENT_BATCH_SIZE env) 0 0 0 true)
    (fun error => throw error).

End Services.

(** ** Observations on runs *)

(** The events a run appended to the trace of the world it started in. *)
Definition events_since (w w' : World) : list Event :=
  skipn (List.length (trace w)) (trace w').

(** The feed pages requested, in order. *)
Definition fetched_pages (evs : list Event) : list nat :=
  flat_map (fun e => match e with EvFetch page => [page] | _ => [] end) evs.

(** The records handed to the store for upsert, in order. *)
Definition upserted (evs : list Event) : list ApiUser :=
  flat_map (fun e => match e with EvUpsertUsers us _ => us | _ => [] end) evs.

(** The upsert calls made, each with its whole argument. *)
Definition upsert_calls (evs : list Event) : list (list ApiUser) :=
  flat_map (fun e => match e with EvUpsertUsers us _ => [us] | _ => [] end) evs.

(** The values that checkpoint writes stored. *)
Definition checkpoints_written (evs : list Event) : list string :=
  flat_map (fun e => match e with EvUpdateCheckpoint v true => [v] | _ => [] end) evs.

(** A store write (upsert of users or of the checkpoint) that failed. *)
Definition store_write_failed (evs : list Event) : bool :=
  existsb (fun e => match e with
                    | EvUpsertUsers _ false => true
                    | EvUpdateCheckpoint _ false => true
                    | _ => false
                    end) evs.

(** The selector queries: batch size, offset, and rows returned. *)
Definition selects (evs : list Event) : list (nat * nat * option nat) :=
  flat_map (fun e => match e with
                     | EvSelect b off r => [(b, off, r)]
                     | _ => []
                     end) evs.

(** The number of rows the selector queries returned, all together. *)
Definition rows_returned (sel : list (nat * nat * option nat)) : nat :=
  list_sum (map (fun q => match snd q with Some n => n | None => 0 end) sel).

(** The geolocation lookups made. *)
Definition geo_lookups (evs : list Event) : list string :=
  flat_map (fun e => match e with EvGeoLookup ip => [ip] | _ => [] end) evs.

(** What a call of fetchUsersPage returns, by the reply of the feed. *)
Definition fetch_result (reply : AxiosReply ApiBody) : Res (option ApiData) :=
  match reply with
  | Resolved None => Throw TypeError
  | Resolved (Some body) =>
      if status_is_1 body then Ok (data body)
      else Throw (ApiStatusError (status body) (message body))
  | Rejected (Some (st, statusText)) _ => Throw (ApiError st statusText)
  | Rejected None true => Throw NetworkError
  | Rejected None false => Throw (AxiosError None false)
  end.

(** The [n]-th call to the feed is answered with the records [us] and
    the flag [more]. *)
Definition serves (env : Env) (n : nat) (us : list ApiUser) (more : bool) : Prop :=
  exists d, fetch_result (net env n) = Ok (Some d)
            /\ users_or_empty d = us /\ has_next d = more.

(** user => user.user_id === checkpointUserId *)
Definition is_checkpoint (checkpointUserId : string) (user : ApiUser) : bool :=
  user_id user =? checkpointUserId.

(** No checkpoint is stored: the row is missing (as before the first
    run) or its value is empty. *)
Definition no_checkpoint (w : World) : Prop :=
  or_null (option_map value (id_sync_state w)) = None.

(** The store answers the read of the checkpoint: with the row, or, as
    .single() does when there is no row, with the error code PGRST116. *)
Definition read_answered (env : Env) (w : World) : Prop :=
  db env (dbCalls w) = DbOk \/ db env (dbCalls w) = DbError "PGRST116".

(** Whether the next store call succeeds. *)
Definition db_ok (env : Env) (w : World) : bool :=
  match db env (dbCalls w) with
  | DbOk => true
  | DbError _ => false
  end.

(** From [w] to [w'] the stored checkpoint is the same and no checkpoint
    write succeeded. *)
Definition keeps_checkpoint (w w' : World) : Prop :=
  id_sync_state w' = id_sync_state w
  /\ exists evs, trace w' = trace w ++ evs /\ checkpoints_written evs = [].

(** A program that never writes the checkpoint. *)
Definition frame {A} (m : M A) : Prop :=
  forall w, keeps_checkpoint w (snd (m w)).

(** A program that writes the checkpoint at most once, as its last step,
    and then returns normally. *)
Definition writes_last {A} (m : M A) : Prop :=
  forall w,
    keeps_checkpoint w (snd (m w))
    \/ exists a v pre,
         fst (m w) = Ok a
         /\ trace (snd (m w)) = trace w ++ pre ++ [EvUpdateCheckpoint v true]
         /\ checkpoints_written pre = []
         /\ option_map value (id_sync_state (snd (m w))) = Some v.

(** A run failed: it threw, or one of its store writes was refused. *)
Definition run_failed {A} (r : Res A) (evs : list Event) : Prop :=
  (exists e, r = Throw e) \/ store_write_failed evs = true.

(** How a run ended: it returned, it threw, or its loop was still going
    when the fuel was used up. *)
Inductive Outcome := Returned | Threw | Unfinished.

Definition outcome {A} (r : Res A) : Outcome :=
  match r with
  | Ok _ => Returned
  | Throw _ => Threw
  | Diverge => Unfinished
  end.

(** The selector queries of the loop of enrichUsers entered at offset
    [off], with the way the loop ended: each query that returned a full
    batch of [B] rows is followed by the query at the next offset; the
    loop returns after the first query that returned fewer than [B] rows
    (or none), and throws after a query that the store refused. *)
Inductive batch_run (B : nat)
    : nat -> list (nat * nat * option nat) -> Outcome -> Prop :=
| run_short off n :
    n < B \/ n = 0 -> batch_run B off [(B, off, Some n)] Returned
| run_refused off : batch_run B off [(B, off, None)] Threw
| run_unfinished off : batch_run B off [] Unfinished
| run_full off rest o :
    0 < B -> batch_run B (off + B) rest o ->
    batch_run B off ((B, off, Some B) :: rest) o.

(** The shape of the selector queries of one enrichment run that starts
    at offset [off]: none at all, or one query, or a query that returned
    a full batch followed by the queries from the next offset on. *)
Inductive batches (B : nat) : nat -> list (nat * nat * option nat) -> Prop :=
| batches_none off : batches B off []
| batches_last off r : batches B off [(B, off, r)]
| batches_more off q rest :
    batches B (off + B) (q :: rest) ->
    batches B off ((B, off, Some B) :: q :: rest).

(** From [w] to [w'] no selector query was made and no row was added to
    or removed from id_users. *)
Definition quiet (w w' : World) : Prop :=
  (exists evs, trace w' = trace w ++ evs /\ selects evs = [])
  /\ List.length (id_users w') = List.length (id_users w).

(** The rows of a table that carry the user_id [userId]. *)
Definition rows_of (userId : string) (table : list DbUser) : list DbUser :=
  filter (fun r => row_user_id r =? userId) table.

(** The five enrichment columns. *)
Inductive Column :=
| CountryNameOfficial
| State
| City
| District
| CountryCode.

Definition column (c : Column) (r : DbUser) : option string :=
  match c with
  | CountryNameOfficial => country_name_official r
  | State => state r
  | City => city r
  | District => district r
  | CountryCode => country_code r
  end.

(** The candidate the geolocation response holds for a column. *)
Definition candidate (c : Column) (l : Location) : option string :=
  match c with
  | CountryNameOfficial => loc_country_name_official l
  | State => state_prov l
  | City => loc_city l
  | District => loc_district l
  | CountryCode => country_code2 l
  end.

(** ** The rate limiter observed *)

(** The world [waitForRateLimit] leaves. *)
Definition after_wait (env : Env) (w : World) : World :=
  snd (waitForRateLimit env w).

(** The world after axios.get was issued from [w1] and settled. *)
Definition after_get (env : Env) (page : nat) (w1 : World) : World :=
  snd (axios_get_page env page w1).

Definition after_fetch (env : Env) (page : nat) (w : World) : World :=
  snd (fetchUsersPage env page w).

(** [a] lies in the window of 10000 ms that starts at [t]. *)
Definition in_window (t a : Z) : bool :=
  ((t <=? a) && (a <? t + RATE_LIMIT_WINDOW_MS))%Z.

Definition issued_in_window (t : Z) (w : World) : nat :=
  List.length (filter (in_window t) (admissions w)).

(** Time passing between two calls. *)
Definition idle (ms : N) : M unit :=
  modify (fun w => set_clock (clock w + Z.of_N ms)%Z w).

(** Sequential calls of fetchUsersPage, each after some idle time, by a
    caller that catches their errors. *)
Fixpoint call_sequence (env : Env) (calls : list (N * nat)) : M unit :=
  match calls with
  | [] => ret tt
  | (gap, page) :: rest =>
      idle gap ;;
      try_catch (fetchUsersPage env page ;; ret tt) (fun _ => ret tt) ;;
      call_sequence env rest
  end.

(** The invariant of the limiter: the admissions split into those whose
    timestamp was shifted out, all at least a window old, and those whose
    timestamp is still in the array. *)
Definition RL_inv (w : World) : Prop :=
  exists old recent,
    admissions w = old ++ recent /\
    Forall2 Z.le recent (apiCallTimestamps w) /\
    Forall (fun a => a + RATE_LIMIT_WINDOW_MS <= clock w)%Z old /\
    (List.length (apiCallTimestamps w) <= 3)%nat /\
    forall t, (issued_in_window t w <= 3)%nat.

(** ** IPv4 addresses *)

Definition dec (n : N) : string := NilEmpty.string_of_uint (N.to_uint n).

Definition octet (k : N) (a : N) : N := (N.shiftr a (8 * k) mod 256)%N.

(** Dotted-decimal notation of a 32-bit address. *)
Definition dotted (a : N) : string :=
  (dec (octet 3 a) ++ "." ++ dec (octet 2 a) ++ "."
   ++ dec (octet 1 a) ++ "." ++ dec (octet 0 a))%string.

Definition ipv4 (a b c d : N) : N := (a * 2^24 + b * 2^16 + c * 2^8 + d)%N.

(** [a] lies in the block base/len. *)
Definition in_block (base len a : N) : bool :=
  (N.shiftr a (32 - len) =? N.shiftr base (32 - len))%N.

Definition reserved_blocks : list (N * N) :=
  [ (ipv4 10 0 0 0, 8); (ipv4 172 16 0 0, 12); (ipv4 192 168 0 0, 16);
    (ipv4 127 0 0 0, 8); (ipv4 169 254 0 0, 16); (ipv4 0 0 0 0, 8) ]%N.

Definition in_reserved_block (a : N) : bool :=
  existsb (fun b => in_block (fst b) (snd b) a) reserved_blocks.

(** ** Scenarios *)

Definition world0 : World :=
  {| clock := 0; apiCallTimestamps := []; admissions := [];
     netCalls := 0; timers := 0; dbCalls := 0; geoCalls := 0;
     id_sync_state := None; id_users := []; trace := [] |}.

Definition mk_user (id : string) : ApiUser :=
  {| user_id := id; email := (id ++ "@example.org")%string;
     ipAddress := Some "8.8.8.8"; identifierType := "email";
     createdAt := "2024-01-01"; updatedAt := "2024-01-01" |}.

Definition page_reply (us : list ApiUser) (more : bool) : AxiosReply ApiBody :=
  Resolved (Some {| status := Some 1%Z; message := Some "ok";
                    data := Some {| users := Some us;
                                    pagination := Some {| hasNextPage := Some more |} |} |}).

(** A feed given by the replies to the successive calls; afterwards empty
    last pages. *)
Definition env_of (replies : list (AxiosReply ApiBody)) (dbs : list DbReply)
    (geos : list (AxiosReply GeoData)) (batch : nat) : Env :=
  {| net := fun n => nth n replies (page_reply [] false);
     net_latency := fun _ => 0%N;
     timer_late := fun _ => 0%N;
     db := fun n => nth n dbs DbOk;
     geo := fun n => nth n geos (Rejected None true);
     ENRICHMENT_BATCH_SIZE := batch |}.

Definition u1 : ApiUser := mk_user "u1".
Definition u2 : ApiUser := mk_user "u2".
Definition u3 : ApiUser := mk_user "u3".
Definition u4 : ApiUser := mk_user "u4".
Definition u5 : ApiUser := mk_user "u5".

(** A world whose stored checkpoint is [id]. *)
Definition world_with_checkpoint (id : string) : World :=
  set_id_sync_state (Some {| value := id; state_updated_at := 0 |}) world0.

(** Two pages; the second holds the checkpoint u2 at index 1. *)
Definition env_two_pages : Env :=
  env_of [page_reply [u5; u4] true; page_reply [u3; u2; u1] true] [] [] 50.

(** One page with two new users before the checkpoint u1; the store
    accepts the checkpoint read, refuses the upsert of users, accepts the
    checkpoint write. *)
Definition env_upsert_refused : Env :=
  env_of [page_reply [u3; u2; u1] false] [DbOk; DbError "57014"; DbOk] [] 50.

(** A first run (the store has no checkpoint row and says so) on a feed
    whose page 2 comes empty although it announces a next page; page 3
    holds one more user. *)
Definition env_empty_middle_page : Env :=
  env_of [page_reply [u3; u2] true; page_reply [] true; page_reply [u1] false;
          page_reply [u3; u2] true]
    [DbError "PGRST116"] [] 50.

(** A first run: pages of 2 and 1 users, then page 1 again with a newer
    user on top. *)
Definition env_full_sync : Env :=
  env_of [page_reply [u3; u2] true; page_reply [u1] false;
          page_reply [u4; u3] true] [DbError "PGRST116"] [] 50.

(** A first run on a feed with no users at all. *)
Definition env_no_users : Env :=
  env_of [page_reply [] true; page_reply [] false] [DbError "PGRST116"] [] 50.

(** A stored user whose state column holds [st]. *)
Definition row_with_state (id : string) (st : option string) : DbUser :=
  {| row_user_id := id; row_email := "a@example.org";
     ip_address := Some "8.8.8.8"; identifier_type := "email";
     created_at := "2024-01-01"; updated_at := "2024-01-01";
     ingested_at := 0;
     country_name_official := None; state := st; city := None;
     district := None; country_code := None |}.

(** A geolocation response that only names the state. *)
Definition geo_state (st : string) : GeoData :=
  {| location := Some {| loc_country_name_official := None;
                         state_prov := Some st;
                         loc_city := None; loc_district := None;
                         country_code2 := None |} |}.

(** No enrichment column of the table holds the empty string: each is
    null or a non-empty string. *)
Definition no_empty_columns (table : list DbUser) : Prop :=
  Forall (fun r => forall c, column c r <> Some "") table.

Definition world_with_rows (rows : list DbUser) : World :=
  set_id_users rows world0.

(** Three users to enrich, taken two at a time; the geolocation API does
    not answer. *)
Definition env_batches_of_two : Env := env_of [] [] [] 2.

Definition three_rows : list DbUser :=
  [row_with_state "u1" None; row_with_state "u2" None;
   row_with_state "u3" None].

(** ** Relations between the worlds before and after a program *)

(** Every run of [m] takes a world to one related to it by [R]. *)
Definition preserves (R : World -> World -> Prop) {A} (m : M A) : Prop :=
  forall w, R w (snd (m w)).

(** The clock and the limiter are as they were. *)
Definition same_limiter (w w' : World) : Prop :=
  clock w' = clock w
  /\ apiCallTimestamps w' = apiCallTimestamps w
  /\ admissions w' = admissions w.

(** The timestamp array is in ascending order and holds no instant of
    the future. *)
Definition limiter_sorted (w : World) : Prop :=
  StronglySorted Z.le (apiCallTimestamps w)
  /\ Forall (fun t => t <= clock w)%Z (apiCallTimestamps w).

Definition limiter_ok (w : World) : Prop := RL_inv w /\ limiter_sorted w.

Definition keeps_limiter_ok (w w' : World) : Prop :=
  limiter_ok w -> limiter_ok w'.

(** A row none of whose enrichment columns is set. *)
Definition unenriched (r : DbUser) : Prop :=
  country_name_official r = None /\ state r = None /\ city r = None
  /\ district r = None /\ country_code r = None.

(** Rows were at most appended to id_users, and those unenriched. *)
Definition table_extends (w w' : World) : Prop :=
  exists added, id_users w' = id_users w ++ added /\ Forall unenriched added.

(** A step that puts no empty string into an enrichment column. *)
Definition keeps_no_empty_columns (w w' : World) : Prop :=
  no_empty_columns (id_users w) -> no_empty_columns (id_users w').

(** No two rows of the table share a user_id. *)
Definition unique_ids (table : list DbUser) : Prop :=
  NoDup (map row_user_id table).

Definition keeps_unique_ids (w w' : World) : Prop :=
  unique_ids (id_users w) -> unique_ids (id_users w').

(** The columns of a row that enrichment leaves alone. *)
Definition base_fields (r : DbUser)
    : string * string * option string * string * string * string * Z :=
  (row_user_id r, row_email r, ip_address r, identifier_type r,
   created_at r, updated_at r, ingested_at r).

(** [r'] is [r] with possibly some empty enrichment columns filled. *)
Definition row_le (r r' : DbUser) : Prop :=
  base_fields r' = base_fields r
  /\ forall c, truthy_opt (column c r) = true -> column c r' = column c r.

Definition rows_grow (w w' : World) : Prop :=
  Forall2 row_le (id_users w) (id_users w').

(** The events appended all pass [ok]. *)
Definition only_events (ok : Event -> bool) (w w' : World) : Prop :=
  exists evs, trace w' = trace w ++ evs /\ forallb ok evs = true.

(** The updates of id_users that the store accepted. *)
Definition updates_written (evs : list Event) : list (string * Updates) :=
  flat_map (fun e => match e with
                     | EvUpdateUser id upd true => [(id, upd)]
                     | _ => []
                     end) evs.

(** What an enrichment run may do: query and update id_users, and look
    up addresses that are not private. *)
Definition enrichment_event (e : Event) : bool :=
  match e with
  | EvSelect _ _ _ => true
  | EvReadUser _ => true
  | EvUpdateUser _ _ _ => true
  | EvGeoLookup ip => truthy ip && negb (isPrivateIP (Some ip))
  | _ => false
  end.

(** What a sync run may do: fetch pages, upsert users, read and write
    the checkpoint. *)
Definition sync_event (e : Event) : bool :=
  match e with
  | EvFetch _ => true
  | EvGetCheckpoint => true
  | EvUpdateCheckpoint _ _ => true
  | EvUpsertUsers _ _ => true
  | _ => false
  end.

(** The footprint of an enrichment run: its events, and the state of
    the sync service untouched. *)
Definition enrichment_footprint (w w' : World) : Prop :=
  only_events enrichment_event w w'
  /\ id_sync_state w' = id_sync_state w
  /\ apiCallTimestamps w' = apiCallTimestamps w
  /\ netCalls w' = netCalls w.

(** firstUserIdFromPage1 after the loop of fetchIncrementalPages, entered
    at page [c], went through the pages [pages]. *)
Definition first_after (c : nat) (first : option string)
    (pages : list (list ApiUser)) : option string :=
  match pages with
  | [] => first
  | us :: _ => if (c =? 1)%nat then option_map user_id (hd_error us) else first
  end.

(** The [n]-th call to the feed fails with the error [e]. *)
Definition fails (env : Env) (n : nat) (e : JsError) : Prop :=
  fetch_result (net env n) = Throw e.

(** The stored checkpoint is the non-empty string [cp]. *)
Definition has_checkpoint (w : World) (cp : string) : Prop :=
  option_map value (id_sync_state w) = Some cp /\ truthy cp = true.

(** ** index.js: the sync service

    Once the configuration check has passed, the run at start-up and
    every cron tick call syncUsers and log its error instead of passing
    it on.  A trigger is given by the time since the previous run ended
    and the fuel of its loops: runs follow one another, a tick that
    fires while a run is still under way is not modelled. *)
Definition sync_trigger (env : Env) (fuel : nat) : M unit :=
  try_catch (syncUsers env fuel) (fun _ => ret tt).

Fixpoint sync_service (env : Env) (triggers : list (N * nat)) : M unit :=
  match triggers with
  | [] => ret tt
  | (gap, fuel) :: rest =>
      idle gap ;;
      sync_trigger env fuel ;;
      sync_service env rest
  end.

(** ** Deciding that no private range matches

    [derivs p r] is what is left of [r] after the characters of [p];
    a [dead] expression matches no string at all.  A range is [settled]
    by a prefix [p] when no string starting with [p] passes its test. *)

Fixpoint derivs (p : string) (r : regex) : regex :=
  match p with
  | EmptyString => r
  | String c rest => derivs rest (deriv c r)
  end.

Fixpoint dead (r : regex) : bool :=
  match r with
  | NoMatch => true
  | Seq r s => dead r || dead s
  | Alt r s => dead r && dead s
  | _ => false
  end.

Definition settled (r : regex) (p : string) : bool :=
  negb (regex_test r p) && dead (derivs p r).

Definition no_range_matches (p : string) : bool :=
  forallb (fun range => settled range p) privateRanges.

Definition octets : list N := map N.of_nat (seq 0 256).

(** The two leading octets decide: either they lie in a reserved block,
    or no range matches a string that starts with them. *)
Definition leading_octets_decide (o1 o2 : N) : bool :=
  in_reserved_block (ipv4 o1 o2 0 0)
  || no_range_matches (dec o1 ++ "." ++ dec o2 ++ ".")%string.

(** * Proofs *)

(** ** The rate limiter *)

Lemma shift_expired_split now : forall ts recent,
  Forall2 Z.le recent ts ->
  exists moved kept,
    recent = moved ++ kept /\
    Forall2 Z.le kept (shift_expired now ts) /\
    Forall (fun a => a + RATE_LIMIT_WINDOW_MS <= now)%Z moved.
Proof.
  induction ts as [|t ts IH]; intros recent H.
  - inversion H; subst. exists [], []. simpl. auto.
  - inversion H as [|a t' rec' ts' Hat Hrest]; subst. simpl.
    destruct (RATE_LIMIT_WINDOW_MS <=? now - t)%Z eqn:E.
    + destruct (IH _ Hrest) as [moved [kept [-> [Hk Hm]]]].
      exists (a :: moved), kept. repeat split; auto.
      constructor; auto. apply Z.leb_le in E. lia.
    + exists [], (a :: rec'). simpl. repeat split; auto.
Qed.

Lemma shift_expired_length now ts :
  (List.length (shift_expired now ts) <= List.length ts)%nat.
Proof.
  induction ts as [|t ts IH]; simpl; auto.
  destruct (RATE_LIMIT_WINDOW_MS <=? now - t)%Z; simpl; lia.
Qed.

Lemma shift_expired_head now ts :
  (hd 0 ts + RATE_LIMIT_WINDOW_MS <= now)%Z ->
  (List.length (shift_expired now ts) <= List.length ts - 1)%nat.
Proof.
  destruct ts as [|t ts]; simpl; intros H; auto.
  destruct (RATE_LIMIT_WINDOW_MS <=? now - t)%Z eqn:E.
  - pose proof (shift_expired_length now ts). lia.
  - apply Z.leb_gt in E. lia.
Qed.

Lemma shift_expired_hd_fresh now ts :
  shift_expired now ts <> [] ->
  (now - hd 0 (shift_expired now ts) < RATE_LIMIT_WINDOW_MS)%Z.
Proof.
  induction ts as [|t ts IH]; simpl; intros H; [congruence|].
  destruct (RATE_LIMIT_WINDOW_MS <=? now - t)%Z eqn:E; auto.
  apply Z.leb_gt in E. simpl. lia.
Qed.

Lemma waitForRateLimit_ok env w : fst (waitForRateLimit env w) = Ok tt.
Proof.
  unfold waitForRateLimit, bind, Date_now, gets, modify, setTimeout.
  cbn [apiCallTimestamps set_apiCallTimestamps].
  destruct (RATE_LIMIT_MAX_REQUESTS <=? _)%nat; reflexivity.
Qed.

Lemma waitForRateLimit_eq env w :
  waitForRateLimit env w = (Ok tt, after_wait env w).
Proof.
  unfold after_wait. pose proof (waitForRateLimit_ok env w).
  destruct (waitForRateLimit env w); simpl in *; congruence.
Qed.

Lemma after_wait_spec env w :
  let ts1 := shift_expired (clock w) (apiCallTimestamps w) in
  let w' := after_wait env w in
  admissions w' = admissions w /\ netCalls w' = netCalls w /\
  trace w' = trace w /\ dbCalls w' = dbCalls w /\
  id_sync_state w' = id_sync_state w /\ id_users w' = id_users w /\
  geoCalls w' = geoCalls w /\
  (if (RATE_LIMIT_MAX_REQUESTS <=? List.length ts1)%nat
   then clock w' = (hd 0 ts1 + RATE_LIMIT_WINDOW_MS + 100
                    + Z.of_N (timer_late env (timers w)))%Z
        /\ apiCallTimestamps w' = shift_expired (clock w') ts1
   else clock w' = clock w /\ apiCallTimestamps w' = ts1).
Proof.
  unfold after_wait, waitForRateLimit, bind, Date_now, gets, modify, setTimeout.
  cbn [apiCallTimestamps set_apiCallTimestamps].
  destruct (RATE_LIMIT_MAX_REQUESTS <=? _)%nat eqn:E; cbn -[shift_expired Z.add].
  - repeat split; auto.
    assert (Hne : shift_expired (clock w) (apiCallTimestamps w) <> []).
    { apply Nat.leb_le in E. unfold RATE_LIMIT_MAX_REQUESTS in E.
      destruct (shift_expired (clock w) (apiCallTimestamps w)); simpl in *; [lia|congruence]. }
    pose proof (shift_expired_hd_fresh _ _ Hne). lia.
  - repeat split; auto.
Qed.

Lemma fetchUsersPage_eq env page w :
  let w1 := after_wait env w in
  let w4 := after_get env page w1 in
  fetchUsersPage env page w =
    (fetch_result (net env (netCalls w)),
     if reaches_network (net env (netCalls w))
     then set_apiCallTimestamps (apiCallTimestamps w4 ++ [clock w4]) w4
     else w4).
Proof.
  cbv zeta. unfold fetchUsersPage, bind. rewrite waitForRateLimit_eq.
  destruct (after_wait_spec env w) as (_ & Hn & _).
  unfold after_get, try_catch, bind, axios_get_page, recordApiCall, modify.
  rewrite Hn.
  destruct (net env (netCalls w)) as [[body|]|[[st tx]|] [|]]; cbn; try reflexivity.
  destruct (status_is_1 body); reflexivity.
Qed.

Lemma after_get_spec env page w1 :
  let w4 := after_get env page w1 in
  trace w4 = trace w1 ++ [EvFetch page] /\
  netCalls w4 = S (netCalls w1) /\
  dbCalls w4 = dbCalls w1 /\ geoCalls w4 = geoCalls w1 /\
  id_sync_state w4 = id_sync_state w1 /\ id_users w4 = id_users w1 /\
  apiCallTimestamps w4 = apiCallTimestamps w1 /\
  clock w4 = (clock w1 + Z.of_N (net_latency env (netCalls w1)))%Z /\
  admissions w4 =
    if reaches_network (net env (netCalls w1))
    then admissions w1 ++ [clock w1] else admissions w1.
Proof.
  unfold after_get, axios_get_page.
  destruct (net env (netCalls w1)) as [b|r q]; cbn -[Z.add].
  - repeat split; reflexivity.
  - destruct (is_some r || q); cbn -[Z.add]; repeat split; reflexivity.
Qed.

Lemma filter_window_old t c old :
  Forall (fun a => a + RATE_LIMIT_WINDOW_MS <= c)%Z old ->
  in_window t c = true ->
  filter (in_window t) old = [].
Proof.
  intros Hold Hc. induction Hold as [|a old Ha _ IH]; simpl; auto.
  unfold in_window in *. apply andb_true_iff in Hc. destruct Hc as [_ Hc].
  apply Z.ltb_lt in Hc.
  replace (t <=? a)%Z with false; [exact IH|].
  symmetry. apply Z.leb_gt. lia.
Qed.

Lemma filter_length_le {A} (f : A -> bool) l :
  (List.length (filter f l) <= List.length l)%nat.
Proof. induction l; simpl; auto. destruct (f a); simpl; lia. Qed.

Lemma RL_inv_fetch env page w :
  RL_inv w -> RL_inv (snd (fetchUsersPage env page w)).
Proof.
  intros (old & recent & Hadm & Hrec & Hold & Hlen & Hwin).
  rewrite fetchUsersPage_eq. cbn [snd].
  pose proof (after_wait_spec env w) as Hw. cbv zeta in Hw.
  destruct Hw as (Ha1 & Hn1 & _ & _ & _ & _ & _ & Hts).
  set (w1 := after_wait env w) in *.
  (* the limiter state after the wait *)
  assert (Hclk : (clock w <= clock w1)%Z /\
                 exists old1 recent1,
                   admissions w1 = old1 ++ recent1 /\
                   Forall2 Z.le recent1 (apiCallTimestamps w1) /\
                   Forall (fun a => a + RATE_LIMIT_WINDOW_MS <= clock w1)%Z old1 /\
                   (List.length (apiCallTimestamps w1) <= 2)%nat).
  { destruct (shift_expired_split (clock w) _ _ Hrec) as (mv & kept & -> & Hk & Hm).
    pose proof (shift_expired_length (clock w) (apiCallTimestamps w)) as Hl.
    destruct (RATE_LIMIT_MAX_REQUESTS <=? _)%nat eqn:E.
    - destruct Hts as [Hc Ht].
      assert (Hne : shift_expired (clock w) (apiCallTimestamps w) <> []).
      { apply Nat.leb_le in E. unfold RATE_LIMIT_MAX_REQUESTS in E.
        destruct (shift_expired (clock w) (apiCallTimestamps w)); simpl in *; [lia|congruence]. }
      pose proof (shift_expired_hd_fresh _ _ Hne) as Hf.
      assert (Hle : (clock w <= clock w1)%Z) by (unfold RATE_LIMIT_WINDOW_MS in *; lia).
      split; [exact Hle|].
      destruct (shift_expired_split (clock w1) _ _ Hk) as (mv2 & kept2 & -> & Hk2 & Hm2).
      exists (old ++ mv ++ mv2), kept2. rewrite Ha1, Hadm, Ht.
      repeat split.
      + rewrite <- !app_assoc. reflexivity.
      + exact Hk2.
      + rewrite !Forall_app. repeat split; auto.
        * eapply Forall_impl; [|exact Hold]. simpl; intros; lia.
        * eapply Forall_impl; [|exact Hm]. simpl; intros; lia.
      + assert (Hh : (hd 0 (shift_expired (clock w) (apiCallTimestamps w))
                      + RATE_LIMIT_WINDOW_MS <= clock w1)%Z) by lia.
        pose proof (shift_expired_head _ _ Hh). lia.
    - destruct Hts as [Hc Ht]. split; [lia|].
      exists (old ++ mv), kept. rewrite Ha1, Hadm, Ht, Hc.
      repeat split.
      + rewrite <- app_assoc. reflexivity.
      + exact Hk.
      + rewrite Forall_app. split; auto.
      + apply Nat.leb_gt in E. unfold RATE_LIMIT_MAX_REQUESTS in E. lia. }
  destruct Hclk as (Hle & old1 & recent1 & Hadm1 & Hrec1 & Hold1 & Hlen1).
  pose proof (after_get_spec env page w1) as Hg. cbv zeta in Hg.
  destruct Hg as (_ & _ & _ & _ & _ & _ & Hts4 & Hc4 & Ha4).
  rewrite Hn1 in *.
  set (w4 := after_get env page w1) in *.
  assert (Hlat : (clock w1 <= clock w4)%Z) by lia.
  assert (Hwin1 : forall t, (List.length (filter (in_window t) (admissions w1)) <= 3)%nat).
  { intros t. rewrite Ha1. apply Hwin. }
  destruct (reaches_network (net env (netCalls w))).
  - exists old1, (recent1 ++ [clock w1]).
    cbn [admissions set_apiCallTimestamps apiCallTimestamps clock].
    rewrite Ha4, Hadm1, Hts4. split; [|split; [|split; [|split]]].
    + rewrite app_assoc. reflexivity.
    + apply Forall2_app; auto.
    + eapply Forall_impl; [|exact Hold1]. simpl; intros; lia.
    + rewrite length_app. simpl. lia.
    + intros t. unfold issued_in_window.
      cbn [admissions set_apiCallTimestamps]. rewrite Ha4, filter_app.
      cbn [filter].
      destruct (in_window t (clock w1)) eqn:Ein.
      * rewrite Hadm1, filter_app, (filter_window_old _ _ _ Hold1 Ein).
        rewrite !length_app. simpl.
        pose proof (filter_length_le (in_window t) recent1).
        pose proof (Forall2_length Hrec1). lia.
      * rewrite app_nil_r. apply Hwin1.
  - exists old1, recent1. rewrite Ha4, Hts4.
    split; [exact Hadm1|]. split; [exact Hrec1|]. split; [|split].
    + eapply Forall_impl; [|exact Hold1]. simpl; intros; lia.
    + lia.
    + intros t. unfold issued_in_window. rewrite Ha4. apply Hwin1.
Qed.

Lemma RL_inv_idle gap w : RL_inv w -> RL_inv (snd (idle gap w)).
Proof.
  intros (old & recent & Hadm & Hrec & Hold & Hlen & Hwin).
  exists old, recent. cbn -[Z.add]. repeat split; auto.
  eapply Forall_impl; [|exact Hold]. simpl; intros; lia.
Qed.

Lemma RL_inv_sequence env calls : forall w,
  RL_inv w -> RL_inv (snd (call_sequence env calls w)).
Proof.
  induction calls as [|[gap page] calls IH]; intros w H; simpl; auto.
  unfold bind at 1. cbn [idle modify].
  unfold bind at 1. unfold try_catch, bind at 1.
  pose proof (RL_inv_fetch env page _ (RL_inv_idle gap w H)) as H1.
  unfold idle, modify in H1. cbn [snd] in H1.
  destruct (fetchUsersPage env page _) as [[a|e|] w2]; cbn [snd] in *.
  - apply IH; exact H1.
  - apply IH; exact H1.
  - exact H1.
Qed.

Lemma RL_inv_fresh w :
  apiCallTimestamps w = [] -> admissions w = [] -> RL_inv w.
Proof.
  intros Hts Ha. exists [], []. rewrite Hts, Ha. unfold issued_in_window.
  rewrite Ha. simpl. repeat split; auto.
Qed.

Lemma after_fetch_eq env page w :
  fetchUsersPage env page w =
    (fetch_result (net env (netCalls w)), after_fetch env page w).
Proof.
  unfold after_fetch. rewrite fetchUsersPage_eq. reflexivity.
Qed.

(** What a call of fetchUsersPage leaves untouched, and what it logs. *)
Lemma after_fetch_spec env page w :
  let w' := after_fetch env page w in
  trace w' = trace w ++ [EvFetch page] /\
  netCalls w' = S (netCalls w) /\
  dbCalls w' = dbCalls w /\ geoCalls w' = geoCalls w /\
  id_sync_state w' = id_sync_state w /\ id_users w' = id_users w.
Proof.
  unfold after_fetch. rewrite fetchUsersPage_eq. cbn [snd].
  pose proof (after_wait_spec env w) as Hw. cbv zeta in Hw.
  destruct Hw as (_ & Hn & Ht & Hd & Hs & Hu & Hg & _).
  pose proof (after_get_spec env page (after_wait env w)) as Hg4. cbv zeta in Hg4.
  destruct Hg4 as (Ht4 & Hn4 & Hd4 & Hg4 & Hs4 & Hu4 & _).
  destruct (reaches_network (net env (netCalls w)));
    cbn [trace netCalls dbCalls geoCalls id_sync_state id_users set_apiCallTimestamps];
    rewrite Ht4, Hn4, Hd4, Hg4, Hs4, Hu4, Hn, Ht, Hd, Hs, Hu, Hg; repeat split; reflexivity.
Qed.

(** C6: a call of fetchUsersPage whose request left the process (a
    response, an error response, or no response at all) pushes exactly one
    timestamp onto apiCallTimestamps, the clock at that moment; a call
    that failed locally pushes none. *)
Theorem fetchUsersPage_records_once (env : Env) (page : nat) (w : World) :
  let ts := apiCallTimestamps (after_wait env w) in
  let w' := after_fetch env page w in
  match net env (netCalls w) with
  | Rejected None false => apiCallTimestamps w' = ts
  | _ => apiCallTimestamps w' = ts ++ [clock w']
  end.
Proof.
  cbv zeta. unfold after_fetch. rewrite fetchUsersPage_eq. cbn [snd].
  pose proof (after_get_spec env page (after_wait env w)) as Hg. cbv zeta in Hg.
  destruct Hg as (_ & _ & _ & _ & _ & _ & Hts & _).
  destruct (net env (netCalls w)) as [b|[r|] [|]];
    cbn [reaches_network is_some orb apiCallTimestamps set_apiCallTimestamps clock];
    rewrite ?Hts; reflexivity.
Qed.

(** C3: in a fresh process, whatever the replies, latencies and idle
    times, a sequence of sequential fetchUsersPage calls never has more
    than 3 requests issued in a window of 10000 ms; and a call that finds
    3 timestamps still in the array after shifting the expired ones is
    issued 10000 + 100 ms after the oldest of them (plus the lateness of
    the timer), any other call at once. *)
Theorem rate_limiter_window (env : Env) (calls : list (N * nat))
    (w0 w : World) (page : nat) :
  apiCallTimestamps w0 = [] ->
  admissions w0 = [] ->
  (forall t,
     (issued_in_window t (snd (call_sequence env calls w0))
      <= RATE_LIMIT_MAX_REQUESTS)%nat)
  /\ (let ts := shift_expired (clock w) (apiCallTimestamps w) in
      let issued :=
        if (RATE_LIMIT_MAX_REQUESTS <=? List.length ts)%nat
        then (hd 0 ts + RATE_LIMIT_WINDOW_MS + 100
              + Z.of_N (timer_late env (timers w)))%Z
        else clock w in
      clock (after_wait env w) = issued
      /\ (reaches_network (net env (netCalls w)) = true ->
          admissions (after_fetch env page w) = admissions w ++ [issued])).
Proof.
  intros Hts Ha. split.
  - intros t.
    destruct (RL_inv_sequence env calls w0 (RL_inv_fresh w0 Hts Ha))
      as (_ & _ & _ & _ & _ & _ & H).
    apply H.
  - cbv zeta.
    pose proof (after_wait_spec env w) as Hw. cbv zeta in Hw.
    destruct Hw as (Ha1 & Hn1 & _ & _ & _ & _ & _ & Hc).
    assert (Hclk : clock (after_wait env w) =
                   if (RATE_LIMIT_MAX_REQUESTS <=?
                       List.length (shift_expired (clock w) (apiCallTimestamps w)))%nat
                   then (hd 0 (shift_expired (clock w) (apiCallTimestamps w))
                         + RATE_LIMIT_WINDOW_MS + 100
                         + Z.of_N (timer_late env (timers w)))%Z
                   else clock w).
    { destruct (RATE_LIMIT_MAX_REQUESTS <=? _)%nat; destruct Hc; assumption. }
    split; [exact Hclk|].
    intros Hr. unfold after_fetch. rewrite fetchUsersPage_eq. cbn [snd].
    rewrite Hr. cbn [admissions set_apiCallTimestamps].
    pose proof (after_get_spec env page (after_wait env w)) as Hg. cbv zeta in Hg.
    destruct Hg as (_ & _ & _ & _ & _ & _ & _ & _ & Ha4).
    rewrite Ha4, Hn1, Hr, Ha1, Hclk. reflexivity.
Qed.

Lemma rate_limiter_window_witness :
  (issued_in_window 0
     (snd (call_sequence (env_of [] [] [] 50)
             [(0%N, 1); (0%N, 2); (0%N, 3); (0%N, 4)] world0)) <= 3)%nat.
Proof.
  exact (proj1 (rate_limiter_window (env_of [] [] [] 50)
                  [(0%N, 1); (0%N, 2); (0%N, 3); (0%N, 4)] world0 world0 1
                  eq_refl eq_refl) 0%Z).
Defined.

(** Four calls in a row with no latency: the fourth is held back until
    10100 ms after the first. *)
Example four_rapid_calls :
  admissions (snd (call_sequence (env_of [] [] [] 50)
                     [(0%N, 1); (0%N, 2); (0%N, 3); (0%N, 4)] world0))
  = [0; 0; 0; 10100]%Z.
Proof. vm_compute. reflexivity. Qed.

(** ** Traces *)

Lemma events_since_app w w' evs :
  trace w' = trace w ++ evs -> events_since w w' = evs.
Proof.
  intros H. unfold events_since. rewrite H.
  rewrite skipn_app, skipn_all, Nat.sub_diag. reflexivity.
Qed.

Lemma fetched_pages_app a b :
  fetched_pages (a ++ b) = fetched_pages a ++ fetched_pages b.
Proof. apply flat_map_app. Qed.

Lemma upsert_calls_app a b :
  upsert_calls (a ++ b) = upsert_calls a ++ upsert_calls b.
Proof. apply flat_map_app. Qed.

Lemma checkpoints_written_app a b :
  checkpoints_written (a ++ b) = checkpoints_written a ++ checkpoints_written b.
Proof. apply flat_map_app. Qed.

Lemma upserted_concat evs : upserted evs = List.concat (upsert_calls evs).
Proof.
  induction evs as [|e evs IH]; [reflexivity|].
  unfold upserted, upsert_calls in *. cbn [flat_map].
  rewrite concat_app, IH. destruct e; cbn; rewrite ?app_nil_r; reflexivity.
Qed.

(** ** The monad *)

Lemma try_rethrow {A} (m : M A) w : try_catch m (fun e => throw e) w = m w.
Proof.
  unfold try_catch, throw. destruct (m w) as [[a|e|] w']; reflexivity.
Qed.

Lemma bind_ok {A B} (m : M A) (k : A -> M B) w a w1 :
  m w = (Ok a, w1) -> bind m k w = k a w1.
Proof. intros H. unfold bind. rewrite H. reflexivity. Qed.

Lemma bind_throw {A B} (m : M A) (k : A -> M B) w e w1 :
  m w = (Throw e, w1) -> bind m k w = (Throw e, w1).
Proof. intros H. unfold bind. rewrite H. reflexivity. Qed.

Lemma bind_diverge {A B} (m : M A) (k : A -> M B) w w1 :
  m w = (Diverge, w1) -> bind m k w = (Diverge, w1).
Proof. intros H. unfold bind. rewrite H. reflexivity. Qed.

(** ** The store *)

Lemma insertUsers_spec env us w :
  us <> [] ->
  exists w',
    insertUsers env (Some us) w
      = (Ok (if db_ok env w then List.length us else 0), w') /\
    trace w' = trace w ++ [EvUpsertUsers us (db_ok env w)] /\
    netCalls w' = netCalls w /\
    dbCalls w' = S (dbCalls w) /\
    id_sync_state w' = id_sync_state w /\
    id_users w' =
      (if db_ok env w
       then upsert_ignore (id_users w) (map (to_dbUser (clock w)) us)
       else id_users w).
Proof.
  intros Hne. destruct us as [|u us]; [congruence|].
  unfold insertUsers, db_ok. cbn [List.length Nat.eqb].
  unfold try_catch, bind, Date_now, gets, db_call, modify, throw, ret.
  destruct (db env (dbCalls w)) as [|code]; eexists; cbn; rewrite ?length_map;
    repeat split; reflexivity.
Qed.

Lemma updateCheckpoint_spec env userId w :
  exists w',
    updateCheckpoint env userId w
      = ((if db_ok env w then Ok tt
          else Throw (StoreError match db env (dbCalls w) with
                                 | DbError code => code
                                 | DbOk => ""
                                 end)), w') /\
    trace w' = trace w ++ [EvUpdateCheckpoint userId (db_ok env w)] /\
    id_sync_state w' =
      (if db_ok env w
       then Some {| value := userId; state_updated_at := clock w |}
       else id_sync_state w).
Proof.
  unfold updateCheckpoint, db_ok.
  unfold try_catch, bind, Date_now, gets, db_call, modify, throw, ret.
  destruct (db env (dbCalls w)) as [|code]; eexists; cbn;
    repeat split; reflexivity.
Qed.

Lemma getCheckpoint_spec env w :
  exists r w',
    getCheckpoint env w = (r, w') /\
    trace w' = trace w ++ [EvGetCheckpoint] /\
    netCalls w' = netCalls w /\
    dbCalls w' = S (dbCalls w) /\
    id_sync_state w' = id_sync_state w /\
    id_users w' = id_users w /\
    r <> Diverge /\
    (db env (dbCalls w) = DbOk ->
     r = Ok (or_null (option_map value (id_sync_state w)))).
Proof.
  unfold getCheckpoint.
  unfold try_catch, bind, Date_now, gets, db_call, modify, throw, ret.
  cbn [log dbCalls id_sync_state set_dbCalls].
  destruct (db env (dbCalls w)) as [|code].
  - destruct (id_sync_state w) as [row|] eqn:E; do 2 eexists; cbn;
      repeat split; try reflexivity; try discriminate; try assumption.
  - destruct (code =? "PGRST116"); do 2 eexists; cbn;
      repeat split; try reflexivity; try discriminate.
Qed.

(** ** Incremental sync *)

Lemma serves_fetch env page w us more :
  serves env (netCalls w) us more ->
  exists d, fetchUsersPage env page w = (Ok (Some d), after_fetch env page w)
            /\ users_or_empty d = us /\ has_next d = more.
Proof.
  intros (d & Hr & Hu & Hm). exists d. rewrite after_fetch_eq, Hr. auto.
Qed.

Lemma length_pos_nonempty {A} (l : list A) :
  l <> [] -> (List.length l =? 0)%nat = false /\ (0 <? List.length l)%nat = true.
Proof. destruct l; [congruence|]. intros _. split; reflexivity. Qed.

(** The loop of fetchIncrementalPages, entered at page [c], when the pages
    [before] pass without the checkpoint and the next page has it at
    index [i]. *)
Lemma incremental_loop_found env checkpoint :
  forall before fuel c first total w page_p more i,
    (forall k us, nth_error before k = Some us ->
       serves env (netCalls w + k) us true /\ us <> []
       /\ findIndex (is_checkpoint checkpoint) us = None) ->
    serves env (netCalls w + List.length before) page_p more ->
    findIndex (is_checkpoint checkpoint) page_p = Some i ->
    List.length before < fuel ->
    1 <= c ->
    exists total' w' evs,
      fetchIncrementalPages_loop env fuel checkpoint c true first total w
        = (Ok (if (c =? 1)%nat
               then option_map user_id (hd_error (hd page_p before))
               else first, total'), w') /\
      trace w' = trace w ++ evs /\
      upsert_calls evs
        = before ++ (if (0 <? i)%nat then [firstn i page_p] else []) /\
      fetched_pages evs = seq c (S (List.length before)) /\
      netCalls w' = netCalls w + S (List.length before) /\
      id_sync_state w' = id_sync_state w.
Proof.
  induction before as [|us before IH];
    intros fuel c first total w page_p more i Hbefore Hp Hi Hfuel Hc;
    (destruct fuel as [|fuel]; [cbn in Hfuel; lia|]).
  - (* the checkpoint is on this page *)
    cbn [List.length] in Hp. rewrite Nat.add_0_r in Hp.
    destruct (serves_fetch env c w _ _ Hp) as (d & Hf & Hu & Hm).
    pose proof (after_fetch_spec env c w) as Hw. cbv zeta in Hw.
    destruct Hw as (Ht & Hn & Hd & _ & Hs & _).
    assert (Hne : page_p <> []) by (intros ->; discriminate).
    destruct (length_pos_nonempty _ Hne) as [Hz Hpos].
    cbn [fetchIncrementalPages_loop negb hd List.length].
    destruct (0 <? i)%nat eqn:Ei.
    + assert (Hfn : firstn i page_p <> []).
      { destruct i; [discriminate|]. destruct page_p; [congruence|]. discriminate. }
      destruct (length_pos_nonempty _ Hfn) as [_ Hpos'].
      destruct (insertUsers_spec env _ (after_fetch env c w) Hfn)
        as (w2 & Hins & Ht2 & Hn2 & _ & Hs2 & _).
      rewrite (bind_ok _ _ w
                 (inl (if (c =? 1)%nat
                       then option_map user_id (hd_error page_p) else first,
                       total + (if db_ok env (after_fetch env c w)
                                then List.length (firstn i page_p) else 0))) w2).
      * exists (total + (if db_ok env (after_fetch env c w)
                         then List.length (firstn i page_p) else 0)), w2,
          [EvFetch c; EvUpsertUsers (firstn i page_p) (db_ok env (after_fetch env c w))].
        split; [reflexivity|].
        split; [rewrite Ht2, Ht, <- app_assoc; reflexivity|].
        cbn. rewrite Hn2, Hn, Hs2, Hs. repeat split; auto. lia.
      * rewrite try_rethrow. rewrite (bind_ok _ _ _ _ _ Hf). cbv beta iota.
        rewrite Hu, Hz, Hpos, andb_true_r.
        fold (is_checkpoint checkpoint). rewrite Hi, Hpos'.
        rewrite (bind_ok _ _ _ _ _ (bind_ok _ _ _ _ _ Hins)).
        reflexivity.
    + rewrite (bind_ok _ _ w
                 (inl (if (c =? 1)%nat
                       then option_map user_id (hd_error page_p) else first,
                       total)) (after_fetch env c w)).
      * exists total, (after_fetch env c w), [EvFetch c].
        split; [reflexivity|]. split; [exact Ht|].
        cbn. rewrite Hn, Hs. repeat split; auto. lia.
      * rewrite try_rethrow. rewrite (bind_ok _ _ _ _ _ Hf). cbv beta iota.
        rewrite Hu, Hz, Hpos, andb_true_r.
        fold (is_checkpoint checkpoint). rewrite Hi.
        assert (Hfn : (0 <? List.length (firstn i page_p))%nat = false).
        { apply Nat.ltb_ge in Ei. assert (i = 0) by lia. subst i. reflexivity. }
        rewrite Hfn. reflexivity.
  - (* a page without the checkpoint: upsert it whole and go on *)
    destruct (Hbefore 0 us eq_refl) as (Hsv & Hne & Hnone).
    rewrite Nat.add_0_r in Hsv.
    destruct (serves_fetch env c w _ _ Hsv) as (d & Hf & Hu & Hm).
    pose proof (after_fetch_spec env c w) as Hw. cbv zeta in Hw.
    destruct Hw as (Ht & Hn & Hd & _ & Hs & _).
    destruct (length_pos_nonempty _ Hne) as [Hz Hpos].
    destruct (insertUsers_spec env _ (after_fetch env c w) Hne)
      as (w2 & Hins & Ht2 & Hn2 & _ & Hs2 & _).
    cbn [fetchIncrementalPages_loop negb].
    rewrite (bind_ok _ _ w
               (inr (if (c =? 1)%nat then option_map user_id (hd_error us) else first,
                     total + (if db_ok env (after_fetch env c w)
                              then List.length us else 0), true)) w2).
    + cbv beta iota.
      destruct (IH fuel (S c)
                  (if (c =? 1)%nat then option_map user_id (hd_error us) else first)
                  (total + (if db_ok env (after_fetch env c w)
                            then List.length us else 0))
                  w2 page_p more i) as (total' & w' & evs & Hrun & Htr & Hup & Hfp & Hnc & Hst).
      * intros k us' Hk. rewrite Hn2, Hn.
        replace (S (netCalls w) + k) with (netCalls w + S k) by lia.
        apply Hbefore. exact Hk.
      * rewrite Hn2, Hn.
        replace (S (netCalls w) + List.length before)
          with (netCalls w + List.length (us :: before)) by (cbn; lia).
        exact Hp.
      * exact Hi.
      * cbn in Hfuel. lia.
      * lia.
      * exists total', w', ([EvFetch c; EvUpsertUsers us (db_ok env (after_fetch env c w))] ++ evs).
        rewrite Hrun. cbn [hd].
        replace (S c =? 1)%nat with false by (symmetry; apply Nat.eqb_neq; lia).
        split; [reflexivity|].
        split; [rewrite Htr, Ht2, Ht, <- !app_assoc; reflexivity|].
        rewrite upsert_calls_app, fetched_pages_app, Hup, Hfp.
        rewrite Hnc, Hn2, Hn, Hst, Hs2, Hs.
        repeat split; auto; cbn [List.length]; lia.
    + rewrite try_rethrow. rewrite (bind_ok _ _ _ _ _ Hf). cbv beta iota.
      rewrite Hu, Hz, Hpos, andb_true_r.
      fold (is_checkpoint checkpoint). rewrite Hnone.
      rewrite (bind_ok _ _ _ _ _ Hins). rewrite Hm. reflexivity.
Qed.
Lemma fetch_result_not_diverge reply : fetch_result reply <> Diverge.
Proof.
  destruct reply as [[b|]|[[st tx]|] [|]]; cbn; try discriminate.
  destruct (status_is_1 b); discriminate.
Qed.

(** The fetch of page 1 after the loop, made only to read the new
    checkpoint: it changes the world as one call of fetchUsersPage does,
    and it never diverges. *)
Lemma refetch_page1 env (first : option string) w :
  exists r,
    try_catch
      (d <- fetchUsersPage env 1 ;;
       match d with
       | None => throw TypeError
       | Some d =>
           let us := users_or_empty d in
           if (0 <? List.length us)%nat
           then ret (option_map user_id (hd_error us))
           else ret first
       end)
      (fun error => throw error) w = (r, after_fetch env 1 w)
    /\ r <> Diverge.
Proof.
  rewrite try_rethrow. unfold bind. rewrite after_fetch_eq.
  pose proof (fetch_result_not_diverge (net env (netCalls w))) as Hnd.
  destruct (fetch_result (net env (netCalls w))) as [[d|]|e|];
    try congruence; cbv beta iota zeta.
  - destruct (0 <? _)%nat; eexists; split; try reflexivity; discriminate.
  - eexists; split; [reflexivity|discriminate].
  - eexists; split; [reflexivity|discriminate].
Qed.

Lemma seq_le_bound p : Forall (fun q => q <= p) (seq 1 p).
Proof.
  apply Forall_forall. intros q Hq. apply in_seq in Hq. lia.
Qed.

(** C1: in an incremental run in which the pages [before] (pages 1 to
    p-1) come without the checkpoint and page p has it first at index i,
    the records handed to the store are exactly those of pages 1..p-1
    followed by the first i records of page p (one upsert call per page,
    none for page p when i = 0); the pages requested are 1..p in order,
    then at most page 1 once more to read the new checkpoint, so no page
    beyond p is ever requested. *)
Theorem incremental_sync_upserts (env : Env) (fuel : nat) (checkpoint : string)
    (w : World) (before : list (list ApiUser)) (page_p : list ApiUser)
    (more : bool) (i : nat) :
  (forall k us, nth_error before k = Some us ->
     serves env (netCalls w + k) us true /\ us <> []
     /\ findIndex (is_checkpoint checkpoint) us = None) ->
  serves env (netCalls w + List.length before) page_p more ->
  findIndex (is_checkpoint checkpoint) page_p = Some i ->
  List.length before < fuel ->
  let p := S (List.length before) in
  let r := fetchIncrementalPages env fuel checkpoint w in
  let evs := events_since w (snd r) in
  upserted evs = List.concat before ++ firstn i page_p
  /\ (fetched_pages evs = seq 1 p \/ fetched_pages evs = seq 1 p ++ [1])
  /\ Forall (fun q => q <= p) (fetched_pages evs)
  /\ fst r <> Diverge
  /\ upsert_calls evs
     = before ++ (if (0 <? i)%nat then [firstn i page_p] else []).
Proof.
  intros Hbefore Hp Hi Hfuel. cbv zeta.
  destruct (incremental_loop_found env checkpoint before fuel 1 None 0 w
              page_p more i Hbefore Hp Hi Hfuel (le_n 1))
    as (total' & w' & evs & Hrun & Htr & Hup & Hfp & _ & _).
  cbn [Nat.eqb] in Hrun.
  assert (Hcalls : List.concat (upsert_calls evs)
                   = List.concat before ++ firstn i page_p).
  { rewrite Hup, concat_app. f_equal.
    destruct (0 <? i)%nat eqn:Ei; cbn; [apply app_nil_r|].
    apply Nat.ltb_ge in Ei. assert (i = 0) by lia. subst i. reflexivity. }
  unfold fetchIncrementalPages.
  rewrite (bind_ok _ _ _ _ _ Hrun). cbn [fst].
  destruct (truthy_opt (option_map user_id (hd_error (hd page_p before)))) eqn:Etr;
    cbn [negb].
  - (* the head of page 1 gives the checkpoint at once *)
    assert (Hw : snd (bind (ret (option_map user_id (hd_error (hd page_p before))))
                        (fun first => match first with
                                      | Some id => if truthy id then ret id
                                                   else throw CheckpointUndetermined
                                      | None => throw CheckpointUndetermined
                                      end) w') = w'
                 /\ fst (bind (ret (option_map user_id (hd_error (hd page_p before))))
                        (fun first => match first with
                                      | Some id => if truthy id then ret id
                                                   else throw CheckpointUndetermined
                                      | None => throw CheckpointUndetermined
                                      end) w') <> Diverge).
    { unfold bind, ret.
      destruct (option_map user_id (hd_error (hd page_p before))) as [id|];
        [destruct (truthy id)|]; cbn; split; try reflexivity; discriminate. }
    destruct Hw as [Hw Hnd]. rewrite Hw.
    rewrite (events_since_app _ _ _ Htr), upserted_concat, Hfp.
    split; [exact Hcalls|]. split; [left; reflexivity|].
    split; [apply seq_le_bound|]. split; [exact Hnd|exact Hup].
  - (* the head of page 1 has an empty user_id: page 1 is fetched again *)
    destruct (refetch_page1 env (option_map user_id (hd_error (hd page_p before))) w')
      as (r1 & Hre & Hnd1).
    pose proof (after_fetch_spec env 1 w') as Hw. cbv zeta in Hw.
    destruct Hw as (Ht1 & _).
    assert (Hfin : exists r2,
              bind (try_catch
                      (d <- fetchUsersPage env 1 ;;
                       match d with
                       | None => throw TypeError
                       | Some d =>
                           let us := users_or_empty d in
                           if (0 <? List.length us)%nat
                           then ret (option_map user_id (hd_error us))
                           else ret (option_map user_id (hd_error (hd page_p before)))
                       end)
                      (fun error => throw error))
                   (fun first => match first with
                                 | Some id => if truthy id then ret id
                                              else throw CheckpointUndetermined
                                 | None => throw CheckpointUndetermined
                                 end) w' = (r2, after_fetch env 1 w')
              /\ r2 <> Diverge).
    { destruct r1 as [[id|]|e|]; try congruence.
      - rewrite (bind_ok _ _ _ _ _ Hre).
        destruct (truthy id); eexists; split; try reflexivity; discriminate.
      - rewrite (bind_ok _ _ _ _ _ Hre).
        eexists; split; try reflexivity; discriminate.
      - rewrite (bind_throw _ _ _ _ _ Hre).
        eexists; split; try reflexivity; discriminate. }
    destruct Hfin as (r2 & Hfin & Hnd2). cbv zeta in Hfin. rewrite Hfin. cbn [fst snd].
    assert (Htr' : trace (after_fetch env 1 w') = trace w ++ (evs ++ [EvFetch 1])).
    { rewrite Ht1, Htr, app_assoc. reflexivity. }
    rewrite (events_since_app _ _ _ Htr'), upserted_concat.
    rewrite upsert_calls_app, fetched_pages_app, Hfp. cbn [upsert_calls fetched_pages flat_map].
    rewrite !app_nil_r.
    split; [exact Hcalls|]. split; [right; reflexivity|].
    split; [|split; [exact Hnd2|exact Hup]].
    apply Forall_app. split; [apply seq_le_bound|].
    constructor; [lia|constructor].
Qed.
Lemma incremental_sync_upserts_witness :
  upserted (events_since world0
              (snd (fetchIncrementalPages env_two_pages 5 "u2" world0)))
  = [u5; u4; u3].
Proof.
  refine (proj1 (incremental_sync_upserts env_two_pages 5 "u2" world0
                   [[u5; u4]] [u3; u2; u1] true 1 _ _ _ _)).
  - intros [|[|k]] us H; cbn in H; try discriminate.
    injection H as <-. split; [|split].
    + eexists. split; [reflexivity|]. split; reflexivity.
    + discriminate.
    + reflexivity.
  - eexists. split; [reflexivity|]. split; reflexivity.
  - reflexivity.
  - cbn. lia.
Defined.

(** ** Runs and the checkpoint *)

Lemma keeps_refl w : keeps_checkpoint w w.
Proof. split; [reflexivity|]. exists []. rewrite app_nil_r. auto. Qed.

Lemma keeps_trans w1 w2 w3 :
  keeps_checkpoint w1 w2 -> keeps_checkpoint w2 w3 -> keeps_checkpoint w1 w3.
Proof.
  intros [Hs1 (e1 & Ht1 & Hc1)] [Hs2 (e2 & Ht2 & Hc2)].
  split; [congruence|]. exists (e1 ++ e2).
  rewrite Ht2, Ht1, app_assoc, checkpoints_written_app, Hc1, Hc2. auto.
Qed.

Lemma frame_ret {A} (a : A) : frame (ret a).
Proof. intros w. apply keeps_refl. Qed.

Lemma frame_throw {A} e : frame (@throw A e).
Proof. intros w. apply keeps_refl. Qed.

Lemma frame_diverge {A} : frame (@diverge A).
Proof. intros w. apply keeps_refl. Qed.

Lemma frame_bind {A B} (m : M A) (k : A -> M B) :
  frame m -> (forall a, frame (k a)) -> frame (bind m k).
Proof.
  intros Hm Hk w. unfold bind. specialize (Hm w).
  destruct (m w) as [[a|e|] w1]; cbn [snd] in *; auto.
  eapply keeps_trans; [exact Hm|]. apply Hk.
Qed.

Lemma frame_try_catch {A} (m : M A) (h : JsError -> M A) :
  frame m -> (forall e, frame (h e)) -> frame (try_catch m h).
Proof.
  intros Hm Hh w. unfold try_catch. specialize (Hm w).
  destruct (m w) as [[a|e|] w1]; cbn [snd] in *; auto.
  eapply keeps_trans; [exact Hm|]. apply Hh.
Qed.

Lemma frame_fetchUsersPage env page : frame (fetchUsersPage env page).
Proof.
  intros w. fold (after_fetch env page w).
  pose proof (after_fetch_spec env page w) as H. cbv zeta in H.
  destruct H as (Ht & _ & _ & _ & Hs & _).
  split; [exact Hs|]. exists [EvFetch page]. auto.
Qed.

Lemma frame_insertUsers env users : frame (insertUsers env users).
Proof.
  intros w. destruct users as [[|u us]|]; try apply keeps_refl.
  destruct (insertUsers_spec env (u :: us) w) as (w' & Hr & Ht & _ & _ & Hs & _);
    [discriminate|].
  rewrite Hr. cbn [snd]. split; [exact Hs|]. eexists. split; [exact Ht|reflexivity].
Qed.

Lemma frame_getCheckpoint env : frame (getCheckpoint env).
Proof.
  intros w. destruct (getCheckpoint_spec env w) as (r & w' & Hr & Ht & _ & _ & Hs & _).
  rewrite Hr. cbn [snd]. split; [exact Hs|]. eexists. split; [exact Ht|reflexivity].
Qed.

Create HintDb frame.
#[local] Hint Resolve frame_ret frame_throw frame_diverge frame_fetchUsersPage
  frame_insertUsers frame_getCheckpoint : frame.

(** Walks through a monadic program, splitting binds, handlers and
    branches. *)
Ltac frame_steps :=
  repeat first
    [ progress intros
    | progress cbv zeta
    | solve [auto with frame]
    | match goal with
      | |- frame (bind _ _) => apply frame_bind
      | |- frame (try_catch _ _) => apply frame_try_catch
      | |- frame (match ?x with _ => _ end) => destruct x
      end ].

Lemma frame_fetchAllPages_loop env : forall fuel allUsers currentPage hasNext,
  frame (fetchAllPages_loop env fuel allUsers currentPage hasNext).
Proof.
  induction fuel as [|fuel IH]; intros allUsers currentPage [|];
    cbn [fetchAllPages_loop negb]; frame_steps.
Qed.

Lemma frame_fetchIncrementalPages_loop env checkpoint :
  forall fuel currentPage hasNext first total,
    frame (fetchIncrementalPages_loop env fuel checkpoint currentPage hasNext
             first total).
Proof.
  induction fuel as [|fuel IH]; intros currentPage [|] first total;
    cbn [fetchIncrementalPages_loop negb]; frame_steps.
Qed.

Lemma frame_fetchIncrementalPages env fuel checkpoint :
  frame (fetchIncrementalPages env fuel checkpoint).
Proof.
  unfold fetchIncrementalPages.
  pose proof (frame_fetchIncrementalPages_loop env checkpoint).
  frame_steps.
Qed.
#[local] Hint Resolve frame_fetchAllPages_loop frame_fetchIncrementalPages : frame.

Lemma writes_last_frame {A} (m : M A) : frame m -> writes_last m.
Proof. intros H w. left. apply H. Qed.

Lemma writes_last_bind {A B} (m : M A) (k : A -> M B) :
  frame m -> (forall a, writes_last (k a)) -> writes_last (bind m k).
Proof.
  intros Hm Hk w. unfold bind. specialize (Hm w).
  destruct (m w) as [[a|e|] w1]; cbn [snd] in *; auto.
  destruct (Hk a w1) as [H|(a' & v & pre & Hr & Ht & Hc & Hv)].
  - left. eapply keeps_trans; eassumption.
  - right. destruct Hm as [_ (evs & Ht1 & Hc1)].
    exists a', v, (evs ++ pre). split; [exact Hr|].
    split; [rewrite Ht, Ht1, <- !app_assoc; reflexivity|].
    split; [rewrite checkpoints_written_app, Hc1, Hc; reflexivity|exact Hv].
Qed.

Lemma writes_last_rethrow {A} (m : M A) :
  writes_last m -> writes_last (try_catch m (fun e => throw e)).
Proof. intros H w. rewrite try_rethrow. apply H. Qed.

Lemma writes_last_updateCheckpoint env v : writes_last (updateCheckpoint env v).
Proof.
  intros w. destruct (updateCheckpoint_spec env v w) as (w' & Hr & Ht & Hs).
  rewrite Hr. cbn [fst snd]. destruct (db_ok env w).
  - right. exists tt, v, []. rewrite Hs. repeat split; auto.
  - left. split; [exact Hs|]. eexists. split; [exact Ht|reflexivity].
Qed.

Lemma writes_last_syncUsers env fuel : writes_last (syncUsers env fuel).
Proof.
  assert (Hfull : writes_last (syncUsers_full env fuel)).
  { unfold syncUsers_full, fetchAllPages.
    apply writes_last_bind; [auto with frame|]. intros allUsers.
    destruct (0 <? _)%nat; [|apply writes_last_frame; auto with frame].
    apply writes_last_bind; [auto with frame|]. intros _.
    apply writes_last_bind; [auto with frame|]. intros [d|];
      [|apply writes_last_frame; auto with frame].
    destruct (users_or_empty d);
      [apply writes_last_frame; auto with frame|apply writes_last_updateCheckpoint]. }
  unfold syncUsers. apply writes_last_rethrow.
  apply writes_last_bind; [auto with frame|]. intros [cp|]; [|exact Hfull].
  destruct (negb (truthy cp)); [exact Hfull|].
  unfold syncUsers_incremental.
  apply writes_last_bind; [auto with frame|]. intros v.
  apply writes_last_updateCheckpoint.
Qed.

(** C2, as the code has it: a run of syncUsers that does not return
    normally (a page fetch, the checkpoint read, the determination of the
    new checkpoint or the checkpoint write failed, or the loop was cut
    short) leaves the stored checkpoint as it was and contains no
    successful checkpoint write; a run that returns normally writes the
    checkpoint at most once, and then as its very last step, after every
    fetch and every upsert call of the run. *)
Theorem checkpoint_written_last (env : Env) (fuel : nat) (w : World) :
  let r := syncUsers env fuel w in
  let evs := events_since w (snd r) in
  match fst r with
  | Ok _ =>
      (checkpoints_written evs = [] /\ id_sync_state (snd r) = id_sync_state w)
      \/ exists v pre,
           evs = pre ++ [EvUpdateCheckpoint v true]
           /\ checkpoints_written pre = []
           /\ option_map value (id_sync_state (snd r)) = Some v
  | _ => id_sync_state (snd r) = id_sync_state w /\ checkpoints_written evs = []
  end.
Proof.
  cbv zeta.
  destruct (writes_last_syncUsers env fuel w)
    as [[Hs (evs & Ht & Hc)]|(a & v & pre & Hr & Ht & Hc & Hv)].
  - rewrite (events_since_app _ _ _ Ht).
    destruct (fst (syncUsers env fuel w)); auto.
  - rewrite Hr, (events_since_app _ _ _ Ht). right. exists v, pre. auto.
Qed.

(** C2 as stated fails: the store refuses the upsert of the two new users,
    insertUsers swallows the error, and the run goes on to move the
    checkpoint from u1 to u3 although nothing was stored. *)
Lemma upsert_failure_moves_checkpoint :
  ~ (let w := world_with_checkpoint "u1" in
     let r := syncUsers env_upsert_refused 5 w in
     let evs := events_since w (snd r) in
     run_failed (fst r) evs ->
     checkpoints_written evs = [] /\ id_sync_state (snd r) = id_sync_state w).
Proof.
  cbv zeta. intros H.
  assert (Hf : run_failed
                 (fst (syncUsers env_upsert_refused 5 (world_with_checkpoint "u1")))
                 (events_since (world_with_checkpoint "u1")
                    (snd (syncUsers env_upsert_refused 5 (world_with_checkpoint "u1"))))).
  { right. vm_compute. reflexivity. }
  destruct (H Hf) as [Hc _]. vm_compute in Hc. discriminate Hc.
Qed.

(** What that run did, step by step. *)
Example upsert_failure_run :
  let w := world_with_checkpoint "u1" in
  let r := syncUsers env_upsert_refused 5 w in
  fst r = Ok tt
  /\ events_since w (snd r)
     = [EvGetCheckpoint; EvFetch 1; EvUpsertUsers [u3; u2] false;
        EvUpdateCheckpoint "u3" true]
  /\ id_users (snd r) = []
  /\ option_map value (id_sync_state (snd r)) = Some "u3".
Proof. vm_compute. repeat split; reflexivity. Qed.

(** ** Full sync *)

Lemma push_spread (allUsers us : list ApiUser) :
  (if (0 <? List.length us)%nat then allUsers ++ us else allUsers)
  = allUsers ++ us.
Proof. destruct us; cbn; [rewrite app_nil_r|]; reflexivity. Qed.

(** The loop of fetchAllPages over pages that all announce a next page,
    up to one that does not. *)
Lemma fetchAllPages_loop_run env :
  forall pages fuel allUsers c w lastp,
    (forall k us, nth_error pages k = Some us ->
       serves env (netCalls w + k) us true) ->
    serves env (netCalls w + List.length pages) lastp false ->
    List.length pages < fuel ->
    exists w',
      fetchAllPages_loop env fuel allUsers c true w
        = (Ok (allUsers ++ List.concat pages ++ lastp), w') /\
      trace w' = trace w ++ map EvFetch (seq c (S (List.length pages))) /\
      netCalls w' = netCalls w + S (List.length pages) /\
      dbCalls w' = dbCalls w /\
      id_sync_state w' = id_sync_state w /\
      id_users w' = id_users w.
Proof.
  induction pages as [|us pages IH]; intros fuel allUsers c w lastp Hpages Hlast Hfuel;
    (destruct fuel as [|fuel]; [cbn in Hfuel; lia|]).
  - cbn [List.length] in Hlast. rewrite Nat.add_0_r in Hlast.
    destruct (serves_fetch env c w _ _ Hlast) as (d & Hf & Hu & Hm).
    pose proof (after_fetch_spec env c w) as Hw. cbv zeta in Hw.
    destruct Hw as (Ht & Hn & Hd & _ & Hs & Hi).
    cbn [fetchAllPages_loop negb].
    rewrite (bind_ok _ _ w (allUsers ++ lastp, false) (after_fetch env c w)).
    + cbn [fst snd]. destruct fuel; cbn [fetchAllPages_loop negb];
        (exists (after_fetch env c w); cbn [List.concat List.length seq map app];
         rewrite Hn, Nat.add_1_r; repeat split; auto).
    + rewrite try_rethrow, (bind_ok _ _ _ _ _ Hf). cbv beta iota zeta.
      rewrite Hu, Hm, push_spread. reflexivity.
  - destruct (Hpages 0 us eq_refl) as (d & Hr & Hu & Hm).
    rewrite Nat.add_0_r in Hr.
    assert (Hsv : serves env (netCalls w) us true) by (exists d; auto).
    destruct (serves_fetch env c w _ _ Hsv) as (d' & Hf & Hu' & Hm').
    pose proof (after_fetch_spec env c w) as Hw. cbv zeta in Hw.
    destruct Hw as (Ht & Hn & Hd & _ & Hs & Hi).
    cbn [fetchAllPages_loop negb].
    rewrite (bind_ok _ _ w (allUsers ++ us, true) (after_fetch env c w)).
    + cbn [fst snd].
      destruct (IH fuel (allUsers ++ us) (S c) (after_fetch env c w) lastp)
        as (w' & Hrun & Htr & Hnc & Hdc & Hst & Hus).
      * intros k us' Hk. rewrite Hn.
        replace (S (netCalls w) + k) with (netCalls w + S k) by lia.
        apply Hpages. exact Hk.
      * rewrite Hn.
        replace (S (netCalls w) + List.length pages)
          with (netCalls w + List.length (us :: pages)) by (cbn; lia).
        exact Hlast.
      * cbn in Hfuel. lia.
      * exists w'. rewrite Hrun, Htr, Ht, Hnc, Hn, Hdc, Hd, Hst, Hs, Hus, Hi.
        cbn [List.concat List.length]. rewrite <- !app_assoc.
        repeat split; auto; lia.
    + rewrite try_rethrow, (bind_ok _ _ _ _ _ Hf). cbv beta iota zeta.
      rewrite Hu', Hm', push_spread. reflexivity.
Qed.

Lemma getCheckpoint_none env w :
  no_checkpoint w ->
  read_answered env w ->
  exists w',
    getCheckpoint env w = (Ok None, w') /\
    trace w' = trace w ++ [EvGetCheckpoint] /\
    netCalls w' = netCalls w /\
    dbCalls w' = S (dbCalls w) /\
    id_sync_state w' = id_sync_state w /\
    id_users w' = id_users w.
Proof.
  intros Hno [Hdb|Hdb].
  - destruct (getCheckpoint_spec env w)
      as (r & w' & Hr & Ht & Hn & Hd & Hs & Hu & _ & Hok).
    exists w'. rewrite Hr, (Hok Hdb), Hno. repeat split; auto.
  - eexists. split.
    + unfold getCheckpoint, try_catch, bind, gets, db_call, modify, throw, ret.
      cbn [log dbCalls id_sync_state set_dbCalls]. rewrite Hdb. reflexivity.
    + cbn. repeat split; reflexivity.
Qed.

(** Without a checkpoint to read, a run of syncUsers is a full sync. *)
Lemma syncUsers_without_checkpoint env fuel w :
  no_checkpoint w ->
  read_answered env w ->
  fst (getCheckpoint env w) = Ok None
  /\ syncUsers env fuel w = syncUsers_full env fuel (snd (getCheckpoint env w)).
Proof.
  intros Hno Hdb.
  destruct (getCheckpoint_none env w Hno Hdb) as (w1 & Hg & _).
  rewrite Hg. split; [reflexivity|].
  unfold syncUsers. rewrite try_rethrow, (bind_ok _ _ _ _ _ Hg). reflexivity.
Qed.

(** The upsert ignores rows whose user_id is already there, so running
    it again changes nothing. *)
Lemma has_user_id_app id t1 t2 :
  has_user_id id (t1 ++ t2) = has_user_id id t1 || has_user_id id t2.
Proof. apply existsb_app. Qed.

Lemma has_user_id_upsert id rows : forall table,
  has_user_id id table = true ->
  has_user_id id (upsert_ignore table rows) = true.
Proof.
  induction rows as [|r rows IH]; intros table H; cbn [upsert_ignore]; auto.
  apply IH. destruct (has_user_id (row_user_id r) table); auto.
  rewrite has_user_id_app, H. reflexivity.
Qed.

Lemma upsert_ignore_present rows : forall table,
  Forall (fun r => has_user_id (row_user_id r) (upsert_ignore table rows) = true) rows.
Proof.
  induction rows as [|r rows IH]; intros table; constructor.
  - cbn [upsert_ignore]. apply has_user_id_upsert.
    destruct (has_user_id (row_user_id r) table) eqn:E; auto.
    rewrite has_user_id_app. cbn. rewrite String.eqb_refl, orb_true_r. reflexivity.
  - cbn [upsert_ignore]. apply IH.
Qed.

Lemma upsert_ignore_noop rows : forall table,
  Forall (fun r => has_user_id (row_user_id r) table = true) rows ->
  upsert_ignore table rows = table.
Proof.
  induction rows as [|r rows IH]; intros table H; cbn [upsert_ignore]; auto.
  inversion H as [|? ? Hr Hrest]; subst. rewrite Hr. apply IH. exact Hrest.
Qed.

Lemma upsert_ignore_idempotent table rows :
  upsert_ignore (upsert_ignore table rows) rows = upsert_ignore table rows.
Proof. apply upsert_ignore_noop, upsert_ignore_present. Qed.

(** A full sync as the code runs it: without a checkpoint, pages are
    fetched from page 1 on, one after the other, up to the first that
    does not announce a next page (an empty page alone does not end the
    loop); the records of all of them, if there are any, go to the store
    in one upsert; page 1 is then fetched again and the user_id of its
    first record is written as the checkpoint. *)
Lemma full_sync_run (env : Env) (fuel : nat) (w : World)
    (pages : list (list ApiUser)) (lastp : list ApiUser)
    (u : ApiUser) (rest : list ApiUser) (more : bool) :
  no_checkpoint w ->
  read_answered env w ->
  (forall k us, nth_error pages k = Some us ->
     serves env (netCalls w + k) us true) ->
  serves env (netCalls w + List.length pages) lastp false ->
  List.concat pages ++ lastp <> [] ->
  serves env (netCalls w + S (List.length pages)) (u :: rest) more ->
  db env (dbCalls w + 2) = DbOk ->
  List.length pages < fuel ->
  exists ok w',
    syncUsers env fuel w = (Ok tt, w')
    /\ events_since w w'
       = [EvGetCheckpoint]
         ++ map EvFetch (seq 1 (S (List.length pages)))
         ++ [EvUpsertUsers (List.concat pages ++ lastp) ok;
             EvFetch 1;
             EvUpdateCheckpoint (user_id u) true]
    /\ option_map value (id_sync_state w') = Some (user_id u).
Proof.
  intros Hno Hdb Hpages Hlast Hne Hre Hdb2 Hfuel.
  destruct (getCheckpoint_none env w Hno Hdb) as (w1 & Hg & Ht1 & Hn1 & Hd1 & Hs1 & Hu1).
  destruct (fetchAllPages_loop_run env pages fuel [] 1 w1 lastp)
    as (w2 & Hrun & Ht2 & Hn2 & Hd2 & Hs2 & Hu2).
  { intros k us Hk. rewrite Hn1. apply Hpages. exact Hk. }
  { rewrite Hn1. exact Hlast. }
  { exact Hfuel. }
  cbn [app] in Hrun.
  destruct (insertUsers_spec env _ w2 Hne) as (w3 & Hins & Ht3 & Hn3 & Hd3 & Hs3 & _).
  assert (Hsv : serves env (netCalls w3) (u :: rest) more).
  { rewrite Hn3, Hn2, Hn1. exact Hre. }
  destruct (serves_fetch env 1 w3 _ _ Hsv) as (d & Hf & Hud & _).
  pose proof (after_fetch_spec env 1 w3) as Hw. cbv zeta in Hw.
  destruct Hw as (Ht4 & _ & Hd4 & _ & _).
  set (w4 := after_fetch env 1 w3) in *.
  destruct (updateCheckpoint_spec env (user_id u) w4) as (w5 & Hup & Ht5 & Hs5).
  assert (Hok : db_ok env w4 = true).
  { unfold db_ok. rewrite Hd4, Hd3, Hd2, Hd1.
    replace (S (S (dbCalls w))) with (dbCalls w + 2) by lia.
    rewrite Hdb2. reflexivity. }
  rewrite Hok in *.
  exists (db_ok env w2), w5. split; [|split].
  - unfold syncUsers. rewrite try_rethrow, (bind_ok _ _ _ _ _ Hg).
    unfold syncUsers_full, fetchAllPages.
    rewrite (bind_ok _ _ _ _ _ Hrun).
    destruct (length_pos_nonempty _ Hne) as [_ Hpos]. rewrite Hpos.
    rewrite (bind_ok _ _ _ _ _ Hins), (bind_ok _ _ _ _ _ Hf), Hud.
    exact Hup.
  - apply events_since_app.
    rewrite Ht5, Ht4, Ht3, Ht2, Ht1, <- !app_assoc. reflexivity.
  - rewrite Hs5. reflexivity.
Qed.

(** C5 fails on the code: in a first run (no checkpoint row, the store
    answers PGRST116) whose page 2 comes empty while announcing a next
    page, fetchAllPages does not stop at the empty page as
    fetchIncrementalPages does; it goes on to page 3, and the records of
    page 3 are part of the bulk upsert. *)
Theorem full_sync_goes_past_empty_page :
  no_checkpoint world0
  /\ read_answered env_empty_middle_page world0
  /\ serves env_empty_middle_page 0 [u3; u2] true
  /\ serves env_empty_middle_page 1 [] true
  /\ exists w',
       syncUsers env_empty_middle_page 5 world0 = (Ok tt, w')
       /\ events_since world0 w'
          = [EvGetCheckpoint; EvFetch 1; EvFetch 2; EvFetch 3;
             EvUpsertUsers [u3; u2; u1] true; EvFetch 1;
             EvUpdateCheckpoint "u3" true]
       /\ option_map value (id_sync_state w') = Some "u3".
Proof.
  assert (Hno : no_checkpoint world0) by reflexivity.
  assert (Hread : read_answered env_empty_middle_page world0)
    by (right; reflexivity).
  assert (Hs : forall k us more,
             nth_error [page_reply [u3; u2] true; page_reply [] true;
                        page_reply [u1] false; page_reply [u3; u2] true] k
             = Some (page_reply us more) ->
             serves env_empty_middle_page k us more).
  { intros k us more Hk. eexists. split; [|split].
    - unfold env_empty_middle_page, env_of. cbn [net].
      rewrite (nth_error_nth _ _ _ Hk). reflexivity.
    - reflexivity.
    - reflexivity. }
  split; [exact Hno|]. split; [exact Hread|].
  split; [apply (Hs 0); reflexivity|]. split; [apply (Hs 1); reflexivity|].
  destruct (full_sync_run env_empty_middle_page 5 world0 [[u3; u2]; []] [u1]
              u3 [u2] true Hno Hread)
    as (ok & w' & Hrun & Hev & Hcp).
  - intros [|[|k]] us H; cbn in H.
    + injection H as <-. apply (Hs 0). reflexivity.
    + injection H as <-. apply (Hs 1). reflexivity.
    + destruct k; discriminate H.
  - apply (Hs 2). reflexivity.
  - discriminate.
  - apply (Hs 3). reflexivity.
  - reflexivity.
  - cbn. lia.
  - exists w'. split; [exact Hrun|]. split; [|exact Hcp].
    replace w' with (snd (syncUsers env_empty_middle_page 5 world0))
      by (rewrite Hrun; reflexivity).
    vm_compute. reflexivity.
Qed.

Lemma concat_repeat_nil {A} n : List.concat (repeat (@nil A) n) = [].
Proof. induction n; cbn; auto. Qed.

Lemma nth_error_repeat_nil {A} n k (us : list A) :
  nth_error (repeat [] n) k = Some us -> us = [] /\ k < n.
Proof.
  revert k. induction n as [|n IH]; intros [|k] H; cbn in H; try discriminate.
  - injection H as <-. split; [reflexivity|lia].
  - destruct (IH _ H). split; [assumption|lia].
Qed.

(** C10: without a checkpoint (the row is missing and the store answers
    PGRST116, as before the first run, or the stored value is empty),
    when every page fetched comes empty (n of them announcing a next
    page, the last one not), syncUsers returns normally having only read
    the checkpoint and fetched pages 1..n+1: no upsert, no second fetch
    of page 1, no checkpoint write; the tables are as before, so the
    next run, whenever the store answers its read, again finds no
    checkpoint and is a full sync. *)
Theorem empty_feed_sync (env : Env) (fuel : nat) (w : World) (n : nat) :
  no_checkpoint w ->
  read_answered env w ->
  (forall k, k < n -> serves env (netCalls w + k) [] true) ->
  serves env (netCalls w + n) [] false ->
  n < fuel ->
  exists w',
    syncUsers env fuel w = (Ok tt, w')
    /\ events_since w w' = EvGetCheckpoint :: map EvFetch (seq 1 (S n))
    /\ id_sync_state w' = id_sync_state w
    /\ id_users w' = id_users w
    /\ (forall env' fuel',
          read_answered env' w' ->
          fst (getCheckpoint env' w') = Ok None
          /\ syncUsers env' fuel' w'
             = syncUsers_full env' fuel' (snd (getCheckpoint env' w'))).
Proof.
  intros Hno Hdb Hpages Hlast Hfuel.
  destruct (getCheckpoint_none env w Hno Hdb) as (w1 & Hg & Ht1 & Hn1 & Hd1 & Hs1 & Hu1).
  destruct (fetchAllPages_loop_run env (repeat [] n) fuel [] 1 w1 [])
    as (w2 & Hrun & Ht2 & Hn2 & Hd2 & Hs2 & Hu2).
  { intros k us Hk. apply nth_error_repeat_nil in Hk. destruct Hk as [-> Hk].
    rewrite Hn1. apply Hpages. exact Hk. }
  { rewrite repeat_length, Hn1. exact Hlast. }
  { rewrite repeat_length. exact Hfuel. }
  rewrite concat_repeat_nil, repeat_length in *. cbn [app] in Hrun.
  exists w2. split; [|split; [|split; [|split]]].
  - unfold syncUsers. rewrite try_rethrow, (bind_ok _ _ _ _ _ Hg).
    unfold syncUsers_full, fetchAllPages.
    rewrite (bind_ok _ _ _ _ _ Hrun). reflexivity.
  - apply events_since_app. rewrite Ht2, Ht1, <- app_assoc. reflexivity.
  - congruence.
  - congruence.
  - intros env' fuel' Hdb'.
    assert (Hno2 : no_checkpoint w2).
    { unfold no_checkpoint in *. rewrite Hs2, Hs1. exact Hno. }
    apply syncUsers_without_checkpoint; assumption.
Qed.

Lemma empty_feed_sync_witness :
  exists w',
    syncUsers env_no_users 5 world0 = (Ok tt, w')
    /\ events_since world0 w' = [EvGetCheckpoint; EvFetch 1; EvFetch 2]
    /\ id_sync_state w' = None
    /\ id_users w' = []
    /\ (forall env' fuel',
          read_answered env' w' ->
          fst (getCheckpoint env' w') = Ok None
          /\ syncUsers env' fuel' w'
             = syncUsers_full env' fuel' (snd (getCheckpoint env' w'))).
Proof.
  refine (empty_feed_sync env_no_users 5 world0 1 _ _ _ _ _).
  - reflexivity.
  - right. reflexivity.
  - intros k Hk. assert (k = 0) by lia. subst k.
    eexists. split; [reflexivity|]. split; reflexivity.
  - eexists. split; [reflexivity|]. split; reflexivity.
  - lia.
Defined.

(** C9: insertUsers never throws.  Given null or an empty list it returns
    0 and leaves the world as it is (the store is not called); given a
    non-empty list it calls the store once and returns the length of the
    list when the store accepts the upsert and 0 when it refuses. *)
Theorem insertUsers_never_throws (env : Env) (users : option (list ApiUser))
    (w : World) :
  match users with
  | None | Some [] => insertUsers env users w = (Ok 0, w)
  | Some us =>
      exists w',
        insertUsers env users w
          = (Ok (match db env (dbCalls w) with
                 | DbOk => List.length us
                 | DbError _ => 0
                 end), w')
        /\ dbCalls w' = S (dbCalls w)
        /\ upsert_calls (events_since w w') = [us]
  end.
Proof.
  destruct users as [[|u us]|]; try reflexivity.
  destruct (insertUsers_spec env (u :: us) w) as (w' & Hr & Ht & _ & Hd & _);
    [discriminate|].
  exists w'. rewrite Hr, (events_since_app _ _ _ Ht). unfold db_ok.
  destruct (db env (dbCalls w)); repeat split; auto.
Qed.

(** ** Enrichment *)

Lemma quiet_refl w : quiet w w.
Proof. split; [exists []; rewrite app_nil_r; auto|reflexivity]. Qed.

Lemma quiet_trans w1 w2 w3 : quiet w1 w2 -> quiet w2 w3 -> quiet w1 w3.
Proof.
  intros [(e1 & Ht1 & Hs1) Hl1] [(e2 & Ht2 & Hs2) Hl2].
  split; [|congruence]. exists (e1 ++ e2).
  rewrite Ht2, Ht1, app_assoc. split; [reflexivity|].
  unfold selects in *. rewrite flat_map_app, Hs1, Hs2. reflexivity.
Qed.

Lemma quiet_setTimeout env ms w : quiet w (snd (setTimeout env ms w)).
Proof. split; [exists []; cbn; rewrite app_nil_r; auto|reflexivity]. Qed.

Lemma fetchGeolocationData_spec env ip w :
  exists g w',
    fetchGeolocationData env ip w = (Ok g, w')
    /\ quiet w w' /\ id_users w' = id_users w.
Proof.
  unfold fetchGeolocationData. destruct ip as [s|].
  - destruct (negb (truthy s) || isPrivateIP (Some s)).
    + do 2 eexists. split; [reflexivity|]. split; [apply quiet_refl|reflexivity].
    + unfold try_catch, axios_get_geo, ret.
      destruct (geo env (geoCalls w)); do 2 eexists;
        (split; [reflexivity|]); (split; [|reflexivity]);
        (split; [exists [EvGeoLookup s]; split; reflexivity|reflexivity]).
  - do 2 eexists. split; [reflexivity|]. split; [apply quiet_refl|reflexivity].
Qed.

(** What enrichUser does to the table: nothing, or one update of the
    rows of [userId] with the final updates computed against the single
    row read just before. *)
Lemma enrichUser_spec env userId g w :
  exists b w',
    enrichUser env userId g w = (Ok b, w')
    /\ (exists evs, trace w' = trace w ++ evs /\ selects evs = [])
    /\ (id_users w' = id_users w
        \/ exists loc cur,
             option_map location g = Some (Some loc)
             /\ rows_of userId (id_users w) = [cur]
             /\ id_users w'
                = update_where userId
                    (final_updates (build_updates loc) cur) (id_users w)).
Proof.
  unfold enrichUser. destruct g as [g|].
  2:{ do 2 eexists. split; [reflexivity|]. split; [exists []; rewrite app_nil_r|]; auto. }
  destruct (location g) as [loc|] eqn:Eloc.
  2:{ do 2 eexists. split; [reflexivity|]. split; [exists []; rewrite app_nil_r|]; auto. }
  unfold try_catch. destruct (no_keys (build_updates loc)).
  { do 2 eexists. split; [reflexivity|]. split; [exists []; rewrite app_nil_r|]; auto. }
  unfold select_single, bind, modify, db_call, gets, throw, ret.
  cbn -[no_keys final_updates build_updates update_where filter].
  fold (rows_of userId (id_users w)).
  destruct (db env (dbCalls w)) as [|code].
  2:{ do 2 eexists. split; [reflexivity|].
      split; [exists [EvReadUser userId]; split; reflexivity|left; reflexivity]. }
  destruct (rows_of userId (id_users w)) as [|cur [|r2 rs]] eqn:Erows.
  { do 2 eexists. split; [reflexivity|].
    split; [exists [EvReadUser userId]; split; reflexivity|left; reflexivity]. }
  2:{ do 2 eexists. split; [reflexivity|].
      split; [exists [EvReadUser userId]; split; reflexivity|left; reflexivity]. }
  destruct (no_keys (final_updates (build_updates loc) cur)).
  { do 2 eexists. split; [reflexivity|].
    split; [exists [EvReadUser userId]; split; reflexivity|left; reflexivity]. }
  cbn -[no_keys final_updates build_updates update_where filter].
  destruct (db env (S (dbCalls w))) as [|code];
    cbn -[no_keys final_updates build_updates update_where filter].
  - do 2 eexists. split; [reflexivity|].
    split; [eexists [EvReadUser userId; EvUpdateUser userId _ true];
            cbn; rewrite <- app_assoc; split; reflexivity|].
    right. exists loc, cur. rewrite Eloc. auto.
  - do 2 eexists. split; [reflexivity|].
    split; [eexists [EvReadUser userId; EvUpdateUser userId _ false];
            cbn; rewrite <- app_assoc; split; reflexivity|left; reflexivity].
Qed.

Lemma try_catch_ok {A} (m : M A) h w a w1 :
  m w = (Ok a, w1) -> try_catch m h w = (Ok a, w1).
Proof. intros H. unfold try_catch. rewrite H. reflexivity. Qed.

Lemma enrichUser_quiet env userId g w :
  exists b w', enrichUser env userId g w = (Ok b, w') /\ quiet w w'.
Proof.
  destruct (enrichUser_spec env userId g w) as (b & w' & Hr & Hev & Htab).
  exists b, w'. split; [exact Hr|]. split; [exact Hev|].
  destruct Htab as [->|(loc & cur & _ & _ & ->)]; [reflexivity|].
  unfold update_where. apply length_map.
Qed.

(** The for loop of processEnrichmentBatch counts every user and never
    throws. *)
Lemma process_users_spec env : forall us p e w,
  exists e' w',
    process_users env us p e w = (Ok (p + List.length us, e'), w')
    /\ quiet w w'.
Proof.
  induction us as [|user us IH]; intros p e w.
  - exists e, w. cbn. rewrite Nat.add_0_r. split; [reflexivity|apply quiet_refl].
  - cbn [process_users].
    destruct (fetchGeolocationData_spec env (ip_address user) w)
      as (g & w1 & Hg & Hq1 & _).
    assert (Hen : exists e1 w2,
               (if is_some g
                then success <- enrichUser env (row_user_id user) g ;;
                     ret (if success then S e else e)
                else ret e) w1 = (Ok e1, w2) /\ quiet w1 w2).
    { destruct (is_some g).
      - destruct (enrichUser_quiet env (row_user_id user) g w1) as (b & w2 & Hb & Hq).
        exists (if b then S e else e), w2.
        rewrite (bind_ok _ _ _ _ _ Hb). auto.
      - exists e, w1. split; [reflexivity|apply quiet_refl]. }
    destruct Hen as (e1 & w2 & Hen & Hq2).
    destruct (IH (S p) e1 (snd (setTimeout env 200 w2))) as (e' & w' & Hrest & Hq3).
    exists e', w'. split.
    + rewrite (bind_ok _ _ w (S p, e1) (snd (setTimeout env 200 w2))).
      * cbn [fst snd]. rewrite Hrest. f_equal. f_equal. f_equal. cbn. lia.
      * apply try_catch_ok.
        rewrite (bind_ok _ _ _ _ _ Hg), (bind_ok _ _ _ _ _ Hen). reflexivity.
    + eapply quiet_trans; [exact Hq1|].
      eapply quiet_trans; [exact Hq2|].
      eapply quiet_trans; [apply quiet_setTimeout|exact Hq3].
Qed.

(** One batch: a refused query throws; otherwise the rows returned are
    all processed, and hasMore says whether the batch was full. *)
Lemma processEnrichmentBatch_spec env B off w :
  let n := List.length
             (firstn B (skipn off (filter needs_enrichment (id_users w)))) in
  exists r w',
    processEnrichmentBatch env B off w = (r, w')
    /\ List.length (id_users w') = List.length (id_users w)
    /\ exists evs, trace w' = trace w ++ evs /\
       match db env (dbCalls w) with
       | DbError code =>
           r = Throw (StoreError code) /\ selects evs = [(B, off, None)]
       | DbOk =>
           (exists e,
              r = Ok {| processed := n; enriched := e;
                        hasMore := negb (n =? 0)%nat && (n =? B)%nat |})
           /\ selects evs = [(B, off, Some n)]
       end.
Proof.
  cbv zeta. unfold processEnrichmentBatch. rewrite try_rethrow.
  unfold getUsersNeedingEnrichment.
  set (rows := firstn B (skipn off (filter needs_enrichment (id_users w)))).
  destruct (db env (dbCalls w)) as [|code] eqn:Edb.
  - assert (Hsel : try_catch
              (reply <- db_call env ;;
               match reply with
               | DbOk =>
                   rows <- gets (fun w => firstn B (skipn off
                             (filter needs_enrichment (id_users w)))) ;;
                   modify (log (EvSelect B off (Some (List.length rows)))) ;;
                   ret rows
               | DbError code =>
                   modify (log (EvSelect B off None)) ;;
                   throw (StoreError code)
               end) (fun error => throw error) w
            = (Ok rows,
               log (EvSelect B off (Some (List.length rows)))
                 (set_dbCalls (S (dbCalls w)) w))).
    { rewrite try_rethrow. unfold bind, db_call, gets, modify, ret.
      rewrite Edb. reflexivity. }
    rewrite (bind_ok _ _ _ _ _ Hsel).
    destruct (List.length rows =? 0)%nat eqn:Ez.
    + do 2 eexists. split; [reflexivity|]. split; [reflexivity|].
      exists [EvSelect B off (Some (List.length rows))].
      split; [reflexivity|]. split; [|reflexivity].
      exists 0. apply Nat.eqb_eq in Ez. rewrite Ez. reflexivity.
    + destruct (process_users_spec env rows 0 0
                  (log (EvSelect B off (Some (List.length rows)))
                     (set_dbCalls (S (dbCalls w)) w)))
        as (e' & w' & Hp & (evs & Ht & Hs) & Hl).
      rewrite (bind_ok _ _ _ _ _ Hp). cbn [fst snd Nat.add].
      do 2 eexists. split; [reflexivity|]. split; [exact Hl|].
      exists ([EvSelect B off (Some (List.length rows))] ++ evs). split.
      * rewrite Ht. cbn. rewrite <- app_assoc. reflexivity.
      * split; [exists e'; reflexivity|].
        unfold selects in *. rewrite flat_map_app, Hs. reflexivity.
  - do 2 eexists. split.
    + unfold bind, try_catch, db_call, gets, modify, ret, throw.
      rewrite Edb. reflexivity.
    + split; [reflexivity|]. exists [EvSelect B off None]. auto.
Qed.

Lemma enrichUsers_loop_step env B fuel off tp te w :
  enrichUsers_loop env (S fuel) B off tp te true w =
    match processEnrichmentBatch env B off w with
    | (Ok res, w1) =>
        let more' := if (processed res <? B)%nat then false else hasMore res in
        enrichUsers_loop env fuel B (off + B)
          (tp + processed res) (te + enriched res) more'
          (if more' then snd (setTimeout env 500 w1) else w1)
    | (Throw e, w1) => (Throw e, w1)
    | (Diverge, w1) => (Diverge, w1)
    end.
Proof.
  cbn [enrichUsers_loop negb]. unfold bind at 1.
  destruct (processEnrichmentBatch env B off w) as [[res|e|] w1]; try reflexivity.
  cbv zeta. unfold bind.
  destruct (if (processed res <? B)%nat then false else hasMore res); reflexivity.
Qed.

Lemma enrichUsers_loop_done env B fuel off tp te w :
  enrichUsers_loop env fuel B off tp te false w = (Ok (tp, te), w).
Proof. destruct fuel; reflexivity. Qed.

(** Whether the loop goes on after a batch of [n] rows. *)
Lemma more_after_batch n B :
  (if (n <? B)%nat then false else negb (n =? 0)%nat && (n =? B)%nat) = true ->
  n = B /\ 0 < B.
Proof.
  destruct (n <? B)%nat; [discriminate|]. intros H.
  apply andb_true_iff in H. destruct H as [H0 HB].
  apply Nat.eqb_eq in HB. apply negb_true_iff, Nat.eqb_neq in H0. lia.
Qed.

Lemma more_after_short_batch n B :
  n < B ->
  (if (n <? B)%nat then false else negb (n =? 0)%nat && (n =? B)%nat) = false.
Proof. intros H. apply Nat.ltb_lt in H. rewrite H. reflexivity. Qed.

(** The selector queries of the loop of enrichUsers, and its normal
    return as soon as a batch came short. *)
Lemma enrichUsers_loop_batches env B :
  forall fuel off tp te more w,
    exists evs,
      trace (snd (enrichUsers_loop env fuel B off tp te more w)) = trace w ++ evs
      /\ batches B off (selects evs)
      /\ (forall b o n, In (b, o, Some n) (selects evs) -> n < B ->
            exists totals,
              fst (enrichUsers_loop env fuel B off tp te more w) = Ok totals)
      /\ (forall tp' te',
            fst (enrichUsers_loop env fuel B off tp te more w) = Ok (tp', te') ->
            tp' = tp + rows_returned (selects evs)).
Proof.
  induction fuel as [|fuel IH]; intros off tp te more w.
  - exists []. rewrite app_nil_r.
    split; [destruct more; reflexivity|]. split; [constructor|].
    split; [intros b o n []|].
    destruct more; cbn; intros tp' te' H; [discriminate|].
    injection H as <- _. lia.
  - destruct more.
    2:{ exists []. rewrite app_nil_r, enrichUsers_loop_done.
        split; [reflexivity|]. split; [constructor|].
        split; [intros b o n []|].
        cbn. intros tp' te' H. injection H as <- _. lia. }
    rewrite enrichUsers_loop_step.
    pose proof (processEnrichmentBatch_spec env B off w) as Hb. cbv zeta in Hb.
    destruct Hb as (r & w1 & Hr & _ & evs1 & Ht1 & Hcase).
    rewrite Hr.
    destruct (db env (dbCalls w)) as [|code].
    + destruct Hcase as [(e & ->) Hs1]. cbv zeta. cbn [processed enriched hasMore].
      set (n := List.length
                  (firstn B (skipn off (filter needs_enrichment (id_users w))))) in *.
      destruct (if (n <? B)%nat then false else negb (n =? 0)%nat && (n =? B)%nat)
        eqn:Emore.
      * destruct (more_after_batch _ _ Emore) as [HnB HB].
        destruct (IH (off + B) (tp + n) (te + e) true (snd (setTimeout env 500 w1)))
          as (evs2 & Ht2 & Hbat & Hok & Hsum).
        exists (evs1 ++ evs2). split; [|split; [|split]].
        -- rewrite Ht2. cbn [snd setTimeout modify trace set_timers set_clock].
           rewrite Ht1, app_assoc. reflexivity.
        -- unfold selects in *. rewrite flat_map_app, Hs1, HnB. cbn [app].
           destruct (flat_map _ evs2) as [|q rest] eqn:E2; constructor.
           exact Hbat.
        -- intros b o m Hin Hm. unfold selects in *.
           rewrite flat_map_app, Hs1 in Hin. cbn [app] in Hin.
           destruct Hin as [Hin|Hin]; [injection Hin as _ _ Hn'; lia|].
           eapply Hok; eassumption.
        -- intros tp' te' Hres. rewrite (Hsum _ _ Hres).
           unfold selects in *. rewrite flat_map_app, Hs1.
           unfold rows_returned, list_sum. cbn. lia.
      * rewrite enrichUsers_loop_done. exists evs1. cbn [fst snd].
        split; [exact Ht1|]. rewrite Hs1.
        split; [constructor|]. split; [intros; eexists; reflexivity|].
        intros tp' te' H. injection H as <- _. unfold rows_returned, list_sum. cbn. lia.
    + destruct Hcase as [-> Hs1]. exists evs1. cbn [fst snd].
      split; [exact Ht1|]. rewrite Hs1. split; [constructor|].
      split; [intros b o n [Hin|[]]; discriminate Hin|].
      intros tp' te' H. discriminate H.
Qed.

Lemma batches_nth B : forall off sel,
  batches B off sel ->
  forall j b o ret,
    nth_error sel j = Some (b, o, ret) ->
    b = B /\ o = off + j * B /\ (S j < List.length sel -> ret = Some B).
Proof.
  induction 1 as [off|off r|off q rest Hb IH]; intros j b o ret Hj.
  - destruct j; discriminate.
  - destruct j as [|[|j]]; cbn in Hj; try discriminate.
    injection Hj as <- <- <-. cbn [List.length].
    split; [reflexivity|]. split; [lia|]. intros Hl. lia.
  - destruct j as [|j]; cbn [nth_error] in Hj.
    + injection Hj as <- <- <-.
      split; [reflexivity|]. split; [lia|]. intros _. reflexivity.
    + destruct (IH _ _ _ _ Hj) as (-> & -> & Hlast).
      split; [reflexivity|]. split; [cbn; lia|].
      intros Hlen. apply Hlast. cbn [List.length] in *. lia.
Qed.

Lemma batch_within_table B off (table : list DbUser) :
  0 < B ->
  List.length (firstn B (skipn off (filter needs_enrichment table))) = B ->
  off + B <= List.length table.
Proof.
  intros HB H. rewrite length_firstn, length_skipn in H.
  pose proof (filter_length_le needs_enrichment table). lia.
Qed.

(** With a positive batch size the loop ends within as many batches as
    the table has rows, plus one. *)
Lemma enrichUsers_loop_returns env B :
  0 < B ->
  forall fuel off tp te more w,
    (more = true -> off <= List.length (id_users w)) ->
    List.length (id_users w) < off + fuel ->
    fst (enrichUsers_loop env fuel B off tp te more w) <> Diverge.
Proof.
  intros HB. induction fuel as [|fuel IH]; intros off tp te more w Hoff Hfuel.
  - destruct more; [specialize (Hoff eq_refl); lia|discriminate].
  - destruct more; [|rewrite enrichUsers_loop_done; discriminate].
    rewrite enrichUsers_loop_step.
    pose proof (processEnrichmentBatch_spec env B off w) as Hb. cbv zeta in Hb.
    destruct Hb as (r & w1 & Hr & Hlen & evs1 & _ & Hcase).
    rewrite Hr.
    destruct (db env (dbCalls w)) as [|code].
    + destruct Hcase as [(e & ->) _]. cbv zeta. cbn [processed enriched hasMore].
      set (n := List.length
                  (firstn B (skipn off (filter needs_enrichment (id_users w))))) in *.
      destruct (if (n <? B)%nat then false else negb (n =? 0)%nat && (n =? B)%nat)
        eqn:Emore.
      * destruct (more_after_batch _ _ Emore) as [HnB _].
        pose proof (batch_within_table _ _ _ HB HnB) as Hin.
        apply IH; cbn [snd setTimeout modify id_users set_timers set_clock];
          rewrite Hlen; intros; lia.
      * rewrite enrichUsers_loop_done. discriminate.
    + destruct Hcase as [-> _]. discriminate.
Qed.

(** A batch after which the loop stops came short, or empty. *)
Lemma short_batch n B :
  n <= B ->
  (if (n <? B)%nat then false else negb (n =? 0)%nat && (n =? B)%nat) = false ->
  n < B \/ n = 0.
Proof.
  intros Hle H. destruct (n <? B)%nat eqn:E; [apply Nat.ltb_lt in E; auto|].
  apply Nat.ltb_ge in E. assert (n = B) by lia. subst n.
  rewrite Nat.eqb_refl, andb_true_r in H.
  apply negb_false_iff, Nat.eqb_eq in H. auto.
Qed.

(** The loop of enrichUsers, query by query, with the way it ends. *)
Lemma enrichUsers_loop_run env B :
  forall fuel off tp te w,
    exists evs,
      trace (snd (enrichUsers_loop env fuel B off tp te true w)) = trace w ++ evs
      /\ batch_run B off (selects evs)
           (outcome (fst (enrichUsers_loop env fuel B off tp te true w)))
      /\ (0 < fuel -> selects evs <> []).
Proof.
  induction fuel as [|fuel IH]; intros off tp te w.
  - exists []. rewrite app_nil_r. split; [reflexivity|].
    split; [constructor|lia].
  - rewrite enrichUsers_loop_step.
    pose proof (processEnrichmentBatch_spec env B off w) as Hb. cbv zeta in Hb.
    destruct Hb as (r & w1 & Hr & _ & evs1 & Ht1 & Hcase).
    rewrite Hr.
    destruct (db env (dbCalls w)) as [|code].
    + destruct Hcase as [(e & ->) Hs1]. cbv zeta. cbn [processed enriched hasMore].
      set (n := List.length
                  (firstn B (skipn off (filter needs_enrichment (id_users w))))) in *.
      assert (Hle : n <= B) by (unfold n; rewrite length_firstn; lia).
      destruct (if (n <? B)%nat then false else negb (n =? 0)%nat && (n =? B)%nat)
        eqn:Emore.
      * destruct (more_after_batch _ _ Emore) as [HnB HB].
        destruct (IH (off + B) (tp + n) (te + e) (snd (setTimeout env 500 w1)))
          as (evs2 & Ht2 & Hrun & _).
        exists (evs1 ++ evs2). split; [|split].
        -- rewrite Ht2. cbn [snd setTimeout modify trace set_timers set_clock].
           rewrite Ht1, app_assoc. reflexivity.
        -- unfold selects in *. rewrite flat_map_app, Hs1. cbn [app].
           replace (B, off, Some n) with (B, off, Some B)
             by (rewrite HnB; reflexivity).
           apply run_full; [exact HB|exact Hrun].
        -- intros _. unfold selects in *. rewrite flat_map_app, Hs1. discriminate.
      * rewrite enrichUsers_loop_done. exists evs1. cbn [fst snd outcome].
        split; [exact Ht1|]. rewrite Hs1.
        split; [constructor; apply short_batch; assumption|discriminate].
    + destruct Hcase as [-> Hs1]. exists evs1. cbn [fst snd outcome].
      split; [exact Ht1|]. rewrite Hs1. split; [constructor|discriminate].
Qed.

Lemma batch_run_first B off q rest o :
  batch_run B off (q :: rest) o -> exists ret, q = (B, off, ret).
Proof. intros H. inversion H; subst; eexists; reflexivity. Qed.

Lemma batch_run_finished B off sel o :
  batch_run B off sel o -> o <> Unfinished -> sel <> [].
Proof. induction 1; intros Ho; try discriminate. congruence. Qed.

(** In a run that came to an end, a query that returned a full batch is
    followed by the query at the next offset. *)
Lemma batch_run_next B : forall off sel o,
  batch_run B off sel o ->
  0 < B -> o <> Unfinished ->
  forall j b o', nth_error sel j = Some (b, o', Some B) ->
    exists ret, nth_error sel (S j) = Some (B, off + S j * B, ret).
Proof.
  induction 1 as [off n Hn|off|off|off rest o HB Hrun IH]; intros HB' Ho j b o' Hj.
  - destruct j as [|[|j]]; cbn in Hj; try discriminate.
    injection Hj as _ _ Hj. lia.
  - destruct j as [|[|j]]; cbn in Hj; discriminate.
  - destruct j; discriminate.
  - destruct j as [|j].
    + pose proof (batch_run_finished _ _ _ _ Hrun Ho) as Hne.
      destruct rest as [|q rest]; [congruence|].
      destruct (batch_run_first _ _ _ _ _ Hrun) as [ret ->].
      exists ret. cbn [nth_error].
      replace (off + 1 * B) with (off + B) by lia. reflexivity.
    + cbn [nth_error] in Hj. destruct (IH HB' Ho _ _ _ Hj) as [ret Hret].
      exists ret.
      change (nth_error rest (S j) = Some (B, off + S (S j) * B, ret)).
      replace (off + S (S j) * B) with (off + B + S j * B) by lia.
      exact Hret.
Qed.

(** C7: a run of enrichUsers (with fuel for at least one turn of its
    loop) starts with the selector query at offset 0; its queries all
    ask for B rows, the j-th of them at offset j * B; a query that
    returned a full batch of B rows is followed by the query at the next
    offset, a query that is not the last one returned exactly B rows, so
    the first batch of fewer than B rows is the last query, and the run
    then returns normally; a run throws only after a query that the
    store refused; the rows returned are all processed, their number
    being the total the run reports; with B positive the run ends within
    as many batches as the table has rows, plus one. *)
Theorem enrichUsers_batches (env : Env) (fuel : nat) (w : World) :
  let B := ENRICHMENT_BATCH_SIZE env in
  let r := enrichUsers env fuel w in
  let sel := selects (events_since w (snd r)) in
  (forall j b off ret,
     nth_error sel j = Some (b, off, ret) ->
     b = B /\ off = j * B /\ (S j < List.length sel -> ret = Some B))
  /\ (forall j b off n,
        nth_error sel j = Some (b, off, Some n) -> n < B ->
        S j = List.length sel /\ exists totals, fst r = Ok totals)
  /\ (forall totalProcessed totalEnriched,
        fst r = Ok (totalProcessed, totalEnriched) ->
        totalProcessed = rows_returned sel)
  /\ (0 < B -> List.length (id_users w) < fuel -> fst r <> Diverge)
  /\ batch_run B 0 sel (outcome (fst r))
  /\ (0 < fuel -> exists ret, nth_error sel 0 = Some (B, 0, ret))
  /\ (forall j b off,
        nth_error sel j = Some (b, off, Some B) ->
        0 < B -> fst r <> Diverge ->
        exists ret, nth_error sel (S j) = Some (B, S j * B, ret)).
Proof.
  cbv zeta. unfold enrichUsers. rewrite try_rethrow.
  destruct (enrichUsers_loop_batches env (ENRICHMENT_BATCH_SIZE env)
              fuel 0 0 0 true w) as (evs & Ht & Hbat & Hok & Hsum).
  destruct (enrichUsers_loop_run env (ENRICHMENT_BATCH_SIZE env) fuel 0 0 0 w)
    as (evs' & Ht' & Hrun & Hfirst).
  assert (evs' = evs) by (rewrite Ht in Ht'; apply app_inv_head in Ht'; auto).
  subst evs'.
  rewrite (events_since_app _ _ _ Ht).
  pose proof (batches_nth _ _ _ Hbat) as Hnth.
  split; [|split; [|split; [|split; [|split; [|split]]]]].
  - intros j b off ret Hj. destruct (Hnth _ _ _ _ Hj) as (Hb & Ho & Hl).
    cbn in Ho. auto.
  - intros j b off n Hj Hn. destruct (Hnth _ _ _ _ Hj) as (_ & _ & Hl).
    split.
    + assert (Hlt : j < List.length (selects evs)).
      { apply nth_error_Some. rewrite Hj. discriminate. }
      destruct (Nat.eq_dec (S j) (List.length (selects evs))) as [|Hne]; auto.
      assert (Hs : Some n = Some (ENRICHMENT_BATCH_SIZE env)) by (apply Hl; lia).
      injection Hs as Hs. lia.
    + eapply Hok; [eapply nth_error_In; exact Hj|exact Hn].
  - intros tp' te' Hres. apply (Hsum _ _ Hres).
  - intros HB Hfuel. apply enrichUsers_loop_returns; auto. intros _. lia.
  - exact Hrun.
  - intros Hf. specialize (Hfirst Hf).
    destruct (selects evs) as [|q rest]; [congruence|].
    destruct (batch_run_first _ _ _ _ _ Hrun) as [ret ->].
    exists ret. reflexivity.
  - intros j b off Hj HB Hdiv.
    destruct (batch_run_next _ _ _ _ Hrun HB) with (j := j) (b := b) (o' := off)
      as [ret Hret]; [|exact Hj|exists ret; exact Hret].
    destruct (fst (enrichUsers_loop env fuel _ 0 0 0 true w)); cbn;
      [discriminate|discriminate|congruence].
Qed.

Example enrichUsers_three_rows :
  let r := enrichUsers env_batches_of_two 9 (world_with_rows three_rows) in
  fst r = Ok (3, 0)
  /\ selects (events_since (world_with_rows three_rows) (snd r))
     = [(2, 0, Some 2); (2, 2, Some 1)].
Proof. vm_compute. split; reflexivity. Qed.

(** ** First writer wins *)

Lemma column_after_update c loc cur :
  column c (apply_updates (final_updates (build_updates loc) cur) cur)
  = set_col (keep_if_unset (or_null (candidate c loc)) (column c cur))
      (column c cur).
Proof. destruct c; reflexivity. Qed.

Lemma rows_of_single userId table cur r :
  rows_of userId table = [cur] ->
  In r table -> (row_user_id r =? userId) = true -> r = cur.
Proof.
  intros Hrows Hin Hid.
  assert (H : In r (rows_of userId table)).
  { unfold rows_of. apply filter_In. auto. }
  rewrite Hrows in H. destruct H as [H|[]]. auto.
Qed.

(** What enrichUser guarantees for a column that holds a non-empty
    string: it is left as it is.  And a column that changed now holds the
    candidate of the response, which is a non-empty string, and held
    null or the empty string before. *)
Lemma enrichUser_keeps_filled_columns env userId g w j r r' c :
  nth_error (id_users w) j = Some r ->
  nth_error (id_users (snd (enrichUser env userId g w))) j = Some r' ->
  (truthy_opt (column c r) = true -> column c r' = column c r)
  /\ (column c r' <> column c r ->
      truthy_opt (column c r) = false
      /\ exists loc, option_map location g = Some (Some loc)
                     /\ column c r' = candidate c loc
                     /\ truthy_opt (candidate c loc) = true).
Proof.
  intros Hr Hr'.
  destruct (enrichUser_spec env userId g w) as (b & w' & Hrun & _ & Htab).
  rewrite Hrun in Hr'. cbn [snd] in Hr'.
  destruct Htab as [Heq|(loc & cur & Hloc & Hrows & Heq)]; rewrite Heq in Hr'.
  - assert (r' = r) by congruence. subst r'. split; [reflexivity|congruence].
  - unfold update_where in Hr'. rewrite nth_error_map, Hr in Hr'.
    cbn [option_map] in Hr'. injection Hr' as <-.
    destruct (row_user_id r =? userId) eqn:Eid; [|split; [reflexivity|congruence]].
    assert (r = cur).
    { eapply rows_of_single; eauto. eapply nth_error_In; eauto. }
    subst r. rewrite column_after_update.
    unfold keep_if_unset, or_null.
    destruct (truthy_opt (candidate c loc)) eqn:Ecand;
      cbn [truthy_opt andb set_col]; rewrite ?Ecand; cbn [andb];
      [|split; [reflexivity|congruence]].
    destruct (truthy_opt (column c cur)) eqn:Ecur; cbn [negb set_col];
      [split; [reflexivity|congruence]|].
    split; [discriminate|]. intros _. split; [reflexivity|].
    exists loc. destruct (candidate c loc); [auto|discriminate].
Qed.

(** The example of the specification: a state already set to CA is not
    replaced by NY. *)
Example enrichUser_keeps_CA :
  let w := world_with_rows [row_with_state "u1" (Some "CA")] in
  let r := enrichUser (env_of [] [] [] 50) "u1" (Some (geo_state "NY")) w in
  fst r = Ok false /\ map state (id_users (snd r)) = [Some "CA"].
Proof. vm_compute. split; reflexivity. Qed.

Lemma truthy_opt_filled (o : option string) :
  o <> None -> o <> Some "" -> truthy_opt o = true.
Proof.
  destruct o as [s|]; [|congruence]. intros _ H. cbn. unfold truthy.
  destruct (String.eqb_spec s ""); [subst; congruence|reflexivity].
Qed.

Lemma truthy_opt_not_empty (o : option string) :
  truthy_opt o = true -> exists v, o = Some v /\ v <> "".
Proof.
  destruct o as [s|]; [|discriminate]. cbn. unfold truthy. intros H.
  exists s. split; [reflexivity|]. intros ->. discriminate H.
Qed.

(** enrichUser keeps every row in its place, with its user_id, and
    changes rows of [userId] only. *)
Lemma enrichUser_rows env userId g w :
  let table' := id_users (snd (enrichUser env userId g w)) in
  List.length table' = List.length (id_users w)
  /\ forall j r r',
       nth_error (id_users w) j = Some r -> nth_error table' j = Some r' ->
       row_user_id r' = row_user_id r /\ (r' <> r -> row_user_id r = userId).
Proof.
  cbv zeta.
  destruct (enrichUser_spec env userId g w) as (b & w' & Hrun & _ & Htab).
  rewrite Hrun. cbn [snd].
  destruct Htab as [Heq|(loc & cur & _ & _ & Heq)]; rewrite Heq.
  - split; [reflexivity|]. intros j r r' Hr Hr'.
    assert (r' = r) by congruence. subst. split; [reflexivity|congruence].
  - split; [apply length_map|]. intros j r r' Hr Hr'.
    unfold update_where in Hr'. rewrite nth_error_map, Hr in Hr'.
    cbn [option_map] in Hr'. injection Hr' as <-.
    destruct (String.eqb_spec (row_user_id r) userId) as [Hid|Hid];
      [split; [reflexivity|intros _; exact Hid]|].
    split; [reflexivity|congruence].
Qed.

Lemma enrichUser_keeps_no_empty_columns env userId g w :
  no_empty_columns (id_users w) ->
  no_empty_columns (id_users (snd (enrichUser env userId g w))).
Proof.
  intros Hclean. unfold no_empty_columns in *.
  rewrite Forall_forall in *. intros r' Hin c Hempty.
  destruct (In_nth_error _ _ Hin) as [j Hr'].
  destruct (enrichUser_rows env userId g w) as [Hlen _]. cbv zeta in Hlen.
  destruct (nth_error (id_users w) j) as [r|] eqn:Hr.
  2:{ apply nth_error_None in Hr.
      assert (Hlt : j < List.length (id_users (snd (enrichUser env userId g w)))).
      { apply nth_error_Some. rewrite Hr'. discriminate. }
      lia. }
  pose proof (Hclean r (nth_error_In _ _ Hr) c) as Hc.
  destruct (enrichUser_keeps_filled_columns env userId g w j r r' c Hr Hr')
    as [_ Hchanged].
  destruct Hchanged as (_ & loc & _ & Hcol & Htr); [congruence|].
  rewrite <- Hcol, Hempty in Htr. discriminate Htr.
Qed.

(** C4: first writer wins.  On a table none of whose enrichment columns
    holds the empty string (which is every table the two services can
    produce: the sync writes no enrichment column and enrichUser writes
    non-empty strings only), a call of enrichUser keeps every row in its
    place and leaves every column that is not null as it is; a column
    that it changes was null, belongs to a row of the user enriched, and
    now holds the candidate of the geolocation response, which exists
    and is a non-empty string.  The table is again without empty
    strings. *)
Theorem enrichUser_first_writer_wins (env : Env) (userId : string)
    (g : option GeoData) (w : World) :
  no_empty_columns (id_users w) ->
  let table' := id_users (snd (enrichUser env userId g w)) in
  List.length table' = List.length (id_users w)
  /\ no_empty_columns table'
  /\ forall j r r' c,
       nth_error (id_users w) j = Some r -> nth_error table' j = Some r' ->
       row_user_id r' = row_user_id r
       /\ (column c r <> None -> column c r' = column c r)
       /\ (column c r' <> column c r ->
           column c r = None
           /\ row_user_id r = userId
           /\ exists loc v,
                option_map location g = Some (Some loc)
                /\ candidate c loc = Some v /\ v <> ""
                /\ column c r' = Some v).
Proof.
  intros Hclean. cbv zeta.
  destruct (enrichUser_rows env userId g w) as [Hlen Hrows]. cbv zeta in Hlen, Hrows.
  split; [exact Hlen|].
  split; [apply enrichUser_keeps_no_empty_columns; exact Hclean|].
  intros j r r' c Hr Hr'.
  destruct (Hrows j r r' Hr Hr') as [Hid Hother].
  destruct (enrichUser_keeps_filled_columns env userId g w j r r' c Hr Hr')
    as [Hkeep Hchanged].
  assert (Hc : column c r <> Some "").
  { unfold no_empty_columns in Hclean. rewrite Forall_forall in Hclean.
    apply Hclean. eapply nth_error_In; exact Hr. }
  split; [exact Hid|]. split.
  - intros Hnn. apply Hkeep. apply truthy_opt_filled; assumption.
  - intros Hne. destruct (Hchanged Hne) as (Hfalse & loc & Hloc & Hcol & Htr).
    split; [|split].
    + destruct (column c r) as [s|] eqn:E; [|reflexivity].
      rewrite truthy_opt_filled in Hfalse; congruence.
    + apply Hother. intros ->. apply Hne. reflexivity.
    + destruct (truthy_opt_not_empty _ Htr) as (v & Hv & Hv').
      exists loc, v. rewrite Hcol. auto.
Qed.

(** The example of the specification, from the theorem: CA stays. *)
Lemma enrichUser_first_writer_wins_witness :
  no_empty_columns [row_with_state "u1" (Some "CA")]
  /\ map state
       (id_users
          (snd (enrichUser (env_of [] [] [] 50) "u1" (Some (geo_state "NY"))
                  (world_with_rows [row_with_state "u1" (Some "CA")]))))
     = [Some "CA"].
Proof.
  assert (Hclean : no_empty_columns
                     (id_users (world_with_rows [row_with_state "u1" (Some "CA")]))).
  { constructor; [|constructor]. intros c; destruct c; discriminate. }
  split; [exact Hclean|].
  destruct (enrichUser_first_writer_wins (env_of [] [] [] 50) "u1"
              (Some (geo_state "NY"))
              (world_with_rows [row_with_state "u1" (Some "CA")]) Hclean)
    as (Hlen & _ & Hcols).
  cbv zeta in Hlen, Hcols.
  destruct (id_users (snd (enrichUser (env_of [] [] [] 50) "u1"
                             (Some (geo_state "NY"))
                             (world_with_rows [row_with_state "u1" (Some "CA")]))))
    as [|r' [|r2 rows]]; try discriminate Hlen.
  destruct (Hcols 0 (row_with_state "u1" (Some "CA")) r' State eq_refl eq_refl)
    as (_ & Hkeep & _).
  cbn [map]. f_equal. apply Hkeep. discriminate.
Defined.

(** ** Private addresses *)

Lemma regex_test_nullable r s : nullable r = true -> regex_test r s = true.
Proof. intros H. destruct s; simpl; rewrite H; reflexivity. Qed.

Lemma regex_test_prefix p : forall r rest,
  regex_test r p = true -> regex_test r (p ++ rest)%string = true.
Proof.
  induction p as [|c p IH]; intros r rest H; simpl in *.
  - rewrite orb_false_r in H. apply regex_test_nullable; exact H.
  - apply orb_true_iff in H. destruct H as [H|H].
    + rewrite H. reflexivity.
    + rewrite (IH _ _ H). apply orb_true_r.
Qed.

Lemma isPrivateIP_prefix p rest :
  existsb (fun range => regex_test range p) privateRanges = true ->
  isPrivateIP (Some (p ++ rest)%string) = true.
Proof.
  intros H. unfold isPrivateIP.
  destruct (negb (truthy (p ++ rest)%string)); [reflexivity|].
  apply existsb_exists in H. destruct H as [r [Hin Hr]].
  apply existsb_exists. exists r. split; [exact Hin|].
  apply regex_test_prefix; exact Hr.
Qed.

Ltac Zify.zify_post_hook ::= Z.to_euclidean_division_equations.

(** Brings a block membership into the form a / 2^k = c. *)
Ltac block_quotient H :=
  unfold in_block in H; cbn [fst snd] in H; apply N.eqb_eq in H;
  match type of H with
  | N.shiftr ?a ?k = ?c =>
      let k' := eval vm_compute in k in
      let c' := eval vm_compute in c in
      let p := eval vm_compute in (2 ^ k')%N in
      change (N.shiftr a k' = c') in H;
      rewrite N.shiftr_div_pow2 in H;
      change (2 ^ k')%N with p in H
  end.

(** Closes the goal once the leading octets are known numbers. *)
Ltac by_prefix :=
  match goal with
  | |- isPrivateIP (Some (?d1 ++ "." ++ ?d2 ++ "." ++ ?rest)%string) = true =>
      first
        [ let p := eval vm_compute in (d1 ++ ".")%string in
          apply (isPrivateIP_prefix p (d2 ++ "." ++ rest)%string);
          vm_compute; reflexivity
        | let p := eval vm_compute in (d1 ++ "." ++ d2 ++ ".")%string in
          apply (isPrivateIP_prefix p rest); vm_compute; reflexivity ]
  end.

Lemma reserved_block_private a :
  in_reserved_block a = true -> isPrivateIP (Some (dotted a)) = true.
Proof.
  unfold in_reserved_block, reserved_blocks. cbn [existsb].
  rewrite !orb_true_iff. unfold dotted, octet.
  rewrite !N.shiftr_div_pow2.
  change (2 ^ (8 * 3))%N with 16777216%N.
  change (2 ^ (8 * 2))%N with 65536%N.
  intros [H|[H|[H|[H|[H|[H|H]]]]]]; try discriminate H; block_quotient H.
  - replace ((a / 16777216) mod 256)%N with 10%N by lia. by_prefix.
  - replace ((a / 16777216) mod 256)%N with 172%N by lia.
    assert (Hc : In ((a / 65536) mod 256)%N
                   [16;17;18;19;20;21;22;23;24;25;26;27;28;29;30;31]%N).
    { cbn [In]. lia. }
    cbn [In] in Hc.
    repeat (destruct Hc as [Hc|Hc]; [rewrite <- Hc; by_prefix|]).
    contradiction.
  - replace ((a / 16777216) mod 256)%N with 192%N by lia.
    replace ((a / 65536) mod 256)%N with 168%N by lia. by_prefix.
  - replace ((a / 16777216) mod 256)%N with 127%N by lia. by_prefix.
  - replace ((a / 16777216) mod 256)%N with 169%N by lia.
    replace ((a / 65536) mod 256)%N with 254%N by lia. by_prefix.
  - replace ((a / 16777216) mod 256)%N with 0%N by lia. by_prefix.
Qed.

(** C8: isPrivateIP holds of every address of the six reserved blocks
    (written in dotted decimal), of an absent address and of the five
    listed examples, and not of 8.8.8.8 and 1.1.1.1; for an address it
    holds of, fetchGeolocationData returns null and leaves the world as
    it is: no lookup is made. *)
Theorem private_addresses_skipped (a : N) (env : Env) (ip : option string)
    (w : World) :
  in_reserved_block a = true ->
  isPrivateIP ip = true ->
  isPrivateIP (Some (dotted a)) = true
  /\ isPrivateIP None = true
  /\ Forall (fun s => isPrivateIP (Some s) = true)
       ["10.0.0.1"; "192.168.1.1"; "127.0.0.1"; "169.254.1.1"; "0.0.0.1"]
  /\ Forall (fun s => isPrivateIP (Some s) = false) ["8.8.8.8"; "1.1.1.1"]
  /\ fetchGeolocationData env ip w = (Ok None, w).
Proof.
  intros Ha Hip.
  split; [apply reserved_block_private; exact Ha|].
  split; [reflexivity|].
  split; [repeat constructor|].
  split; [repeat constructor|].
  unfold fetchGeolocationData. destruct ip as [s|]; [|reflexivity].
  rewrite Hip, orb_true_r. reflexivity.
Qed.

Lemma private_addresses_skipped_witness :
  isPrivateIP (Some (dotted (ipv4 172 20 3 4))) = true
  /\ fetchGeolocationData (env_of [] [] [] 50) (Some "192.168.1.1") world0
     = (Ok None, world0).
Proof.
  destruct (private_addresses_skipped (ipv4 172 20 3 4) (env_of [] [] [] 50)
              (Some "192.168.1.1") world0 eq_refl eq_refl)
    as (H1 & _ & _ & _ & H5).
  split; [exact H1|exact H5].
Defined.

(** * Further properties of the code *)

(** ** Relations kept by every step are kept by a whole run *)

Section Preserves.

Variable R : World -> World -> Prop.
Hypothesis R_refl : forall w, R w w.
Hypothesis R_trans : forall w1 w2 w3, R w1 w2 -> R w2 w3 -> R w1 w3.

Lemma preserves_ret {A} (a : A) : preserves R (ret a).
Proof. intros w. apply R_refl. Qed.

Lemma preserves_throw {A} e : preserves R (@throw A e).
Proof. intros w. apply R_refl. Qed.

Lemma preserves_diverge {A} : preserves R (@diverge A).
Proof. intros w. apply R_refl. Qed.

Lemma preserves_bind {A B} (m : M A) (k : A -> M B) :
  preserves R m -> (forall a, preserves R (k a)) -> preserves R (bind m k).
Proof.
  intros Hm Hk w. unfold bind. specialize (Hm w).
  destruct (m w) as [[a|e|] w1]; cbn [snd] in *; auto.
  eapply R_trans; [exact Hm|]. apply Hk.
Qed.

Lemma preserves_try_catch {A} (m : M A) (h : JsError -> M A) :
  preserves R m -> (forall e, preserves R (h e)) -> preserves R (try_catch m h).
Proof.
  intros Hm Hh w. unfold try_catch. specialize (Hm w).
  destruct (m w) as [[a|e|] w1]; cbn [snd] in *; auto.
  eapply R_trans; [exact Hm|]. apply Hh.
Qed.

(** Splits a program into its steps. *)
Ltac run_steps :=
  repeat first
    [ progress intros
    | progress cbv zeta
    | assumption
    | apply preserves_ret
    | apply preserves_throw
    | apply preserves_diverge
    | match goal with
      | H : forall x, preserves R (?f x) |- preserves R (?f _) => apply H
      | H : forall x y, preserves R (?f x y) |- preserves R (?f _ _) => apply H
      | |- preserves R (bind _ _) => apply preserves_bind
      | |- preserves R (try_catch _ _) => apply preserves_try_catch
      | |- preserves R (match ?x with _ => _ end) => destruct x
      end ].

Section Sync.

Variable env : Env.
Hypothesis R_fetch : forall page, preserves R (fetchUsersPage env page).
Hypothesis R_insert : forall us, preserves R (insertUsers env us).
Hypothesis R_get : preserves R (getCheckpoint env).
Hypothesis R_update : forall v, preserves R (updateCheckpoint env v).

Lemma preserves_fetchAllPages_loop : forall fuel allUsers currentPage hasNext,
  preserves R (fetchAllPages_loop env fuel allUsers currentPage hasNext).
Proof.
  induction fuel as [|fuel IH]; intros allUsers currentPage [|];
    cbn [fetchAllPages_loop negb]; run_steps; apply IH.
Qed.

Lemma preserves_fetchIncrementalPages_loop checkpoint :
  forall fuel currentPage hasNext first total,
    preserves R (fetchIncrementalPages_loop env fuel checkpoint currentPage
                   hasNext first total).
Proof.
  induction fuel as [|fuel IH]; intros currentPage [|] first total;
    cbn [fetchIncrementalPages_loop negb]; run_steps; apply IH.
Qed.

Lemma preserves_fetchIncrementalPages fuel checkpoint :
  preserves R (fetchIncrementalPages env fuel checkpoint).
Proof.
  unfold fetchIncrementalPages.
  apply preserves_bind; [apply preserves_fetchIncrementalPages_loop|].
  run_steps.
Qed.

Lemma preserves_syncUsers fuel : preserves R (syncUsers env fuel).
Proof.
  unfold syncUsers, syncUsers_full, syncUsers_incremental, fetchAllPages.
  pose proof preserves_fetchAllPages_loop.
  pose proof preserves_fetchIncrementalPages.
  run_steps; auto.
Qed.

Lemma preserves_sync_service (R_idle : forall gap, preserves R (idle gap)) :
  forall triggers, preserves R (sync_service env triggers).
Proof.
  pose proof preserves_syncUsers.
  induction triggers as [|[gap fuel] rest IH]; cbn [sync_service];
    unfold sync_trigger; run_steps; auto.
Qed.

End Sync.

Section Enrichment.

Variable env : Env.
Hypothesis R_select :
  forall B off, preserves R (getUsersNeedingEnrichment env B off).
Hypothesis R_geo : forall ip, preserves R (fetchGeolocationData env ip).
Hypothesis R_enrich : forall id g, preserves R (enrichUser env id g).
Hypothesis R_timer : forall ms, preserves R (setTimeout env ms).

Lemma preserves_process_users : forall us p e,
  preserves R (process_users env us p e).
Proof.
  induction us as [|user us IH]; intros p e; cbn [process_users];
    run_steps; apply IH.
Qed.

Lemma preserves_processEnrichmentBatch B off :
  preserves R (processEnrichmentBatch env B off).
Proof.
  unfold processEnrichmentBatch. pose proof preserves_process_users.
  run_steps; auto.
Qed.

Lemma preserves_enrichUsers_loop B : forall fuel off tp te more,
  preserves R (enrichUsers_loop env fuel B off tp te more).
Proof.
  pose proof preserves_processEnrichmentBatch.
  induction fuel as [|fuel IH]; intros off tp te [|];
    cbn [enrichUsers_loop negb]; run_steps; auto.
Qed.

Lemma preserves_enrichUsers fuel : preserves R (enrichUsers env fuel).
Proof.
  unfold enrichUsers. pose proof preserves_enrichUsers_loop. run_steps; auto.
Qed.

End Enrichment.

End Preserves.

(** ** The store, seen through supabase.js *)

Lemma has_user_id_In id table :
  has_user_id id table = true <-> In id (map row_user_id table).
Proof.
  unfold has_user_id. rewrite existsb_exists, in_map_iff. split.
  - intros (r & Hin & Heq). apply String.eqb_eq in Heq. eauto.
  - intros (r & Heq & Hin). exists r. split; [exact Hin|].
    apply String.eqb_eq. exact Heq.
Qed.

Lemma upsert_ignore_extends rows : forall table,
  exists added,
    upsert_ignore table rows = table ++ added
    /\ Forall (fun r => In r rows /\ has_user_id (row_user_id r) table = false)
         added.
Proof.
  induction rows as [|r rows IH]; intros table; cbn [upsert_ignore].
  - exists []. rewrite app_nil_r. auto.
  - destruct (has_user_id (row_user_id r) table) eqn:E.
    + destruct (IH table) as (added & Heq & Hall). exists added.
      split; [exact Heq|]. eapply Forall_impl; [|exact Hall].
      cbn. intros a [Ha Hn]. auto.
    + destruct (IH (table ++ [r])) as (added & Heq & Hall).
      exists (r :: added). split; [rewrite Heq, <- app_assoc; reflexivity|].
      constructor; [split; [left; reflexivity|exact E]|].
      eapply Forall_impl; [|exact Hall]. cbn. intros a [Ha Hn]. split; [auto|].
      rewrite has_user_id_app in Hn. apply orb_false_iff in Hn. tauto.
Qed.

Lemma upsert_ignore_unique rows : forall table,
  unique_ids table -> unique_ids (upsert_ignore table rows).
Proof.
  unfold unique_ids.
  induction rows as [|r rows IH]; intros table H; cbn [upsert_ignore]; auto.
  apply IH. destruct (has_user_id (row_user_id r) table) eqn:E; auto.
  rewrite map_app. cbn [map].
  apply NoDup_app; [exact H|repeat constructor; auto|].
  intros id Hin [<-|[]].
  apply has_user_id_In in Hin. congruence.
Qed.

(** What insertUsers leaves alone, whatever it is given and whatever the
    store answers. *)
Lemma insertUsers_footprint env users w :
  let w' := snd (insertUsers env users w) in
  same_limiter w w' /\ netCalls w' = netCalls w /\ geoCalls w' = geoCalls w
  /\ id_sync_state w' = id_sync_state w
  /\ only_events sync_event w w'.
Proof.
  cbv zeta. unfold same_limiter, only_events.
  destruct users as [[|u us]|].
  1,3: cbn; repeat split; auto; exists []; rewrite app_nil_r; auto.
  unfold insertUsers. cbn [List.length Nat.eqb].
  unfold try_catch, bind, Date_now, gets, db_call, modify, throw, ret.
  destruct (db env (dbCalls w)); cbn; repeat split; auto;
    eexists; split; reflexivity.
Qed.

Lemma getCheckpoint_footprint env w :
  let w' := snd (getCheckpoint env w) in
  same_limiter w w' /\ netCalls w' = netCalls w /\ geoCalls w' = geoCalls w
  /\ id_sync_state w' = id_sync_state w /\ id_users w' = id_users w
  /\ only_events sync_event w w'.
Proof.
  cbv zeta. unfold same_limiter, only_events, getCheckpoint.
  unfold try_catch, bind, Date_now, gets, db_call, modify, throw, ret.
  cbn [log dbCalls id_sync_state set_dbCalls].
  destruct (db env (dbCalls w)) as [|code];
    [destruct (id_sync_state w) eqn:E|destruct (code =? "PGRST116")];
    cbn; rewrite ?E; repeat split; auto; eexists; split; reflexivity.
Qed.

Lemma updateCheckpoint_footprint env v w :
  let w' := snd (updateCheckpoint env v w) in
  same_limiter w w' /\ netCalls w' = netCalls w /\ geoCalls w' = geoCalls w
  /\ id_users w' = id_users w
  /\ only_events sync_event w w'.
Proof.
  cbv zeta. unfold same_limiter, only_events, updateCheckpoint.
  unfold try_catch, bind, Date_now, gets, db_call, modify, throw, ret.
  destruct (db env (dbCalls w)); cbn; repeat split; auto;
    eexists; split; reflexivity.
Qed.

Lemma insertUsers_added (env : Env)
    (users : option (list ApiUser)) (w : World) :
  exists added,
    id_users (snd (insertUsers env users w)) = id_users w ++ added
    /\ Forall (fun r =>
                 (exists u, In u (match users with Some us => us | None => [] end)
                            /\ r = to_dbUser (clock w) u)
                 /\ has_user_id (row_user_id r) (id_users w) = false)
         added.
Proof.
  destruct users as [[|u us]|].
  1,3: exists []; cbn; rewrite app_nil_r; auto.
  destruct (insertUsers_spec env (u :: us) w) as (w' & Hr & _ & _ & _ & _ & Hu);
    [discriminate|].
  rewrite Hr. cbn [snd]. rewrite Hu. destruct (db_ok env w).
  - destruct (upsert_ignore_extends (map (to_dbUser (clock w)) (u :: us)) (id_users w))
      as (added & Heq & Hall).
    exists added. split; [exact Heq|].
    eapply Forall_impl; [|exact Hall]. cbn beta. intros r [Hin Hn].
    split; [|exact Hn]. apply in_map_iff in Hin. destruct Hin as (x & <- & Hx).
    exists x. auto.
  - exists []. rewrite app_nil_r. auto.
Qed.

(** insertUsers never modifies or removes a stored row: the table after
    the call is the table before followed by rows converted from the
    given users whose user_id was not stored yet. *)
Theorem insertUsers_keeps_stored_rows (env : Env)
    (users : option (list ApiUser)) (w : World) :
  exists added,
    id_users (snd (insertUsers env users w)) = id_users w ++ added
    /\ Forall (fun r =>
                 (exists u, In u (match users with Some us => us | None => [] end)
                            /\ r = to_dbUser (clock w) u)
                 /\ has_user_id (row_user_id r) (id_users w) = false)
         added.
Proof. apply insertUsers_added. Qed.

Lemma insertUsers_unique (env : Env)
    (users : option (list ApiUser)) (w : World) :
  unique_ids (id_users w) ->
  unique_ids (id_users (snd (insertUsers env users w))).
Proof.
  intros H. destruct users as [[|u us]|]; auto.
  destruct (insertUsers_spec env (u :: us) w) as (w' & Hr & _ & _ & _ & _ & Hu);
    [discriminate|].
  rewrite Hr. cbn [snd]. rewrite Hu. destruct (db_ok env w); auto.
  apply upsert_ignore_unique. exact H.
Qed.

(** insertUsers keeps user_id unique in the table, also when the list it
    is given names a user twice. *)
Theorem insertUsers_keeps_ids_unique (env : Env)
    (users : option (list ApiUser)) (w : World) :
  unique_ids (id_users w) ->
  unique_ids (id_users (snd (insertUsers env users w))).
Proof. apply insertUsers_unique. Qed.

Lemma insertUsers_keeps_ids_unique_witness :
  unique_ids (id_users (snd (insertUsers (env_of [] [] [] 50)
                               (Some [u1; u2; u1]) world0))).
Proof.
  apply (insertUsers_keeps_ids_unique (env_of [] [] [] 50) (Some [u1; u2; u1]) world0).
  constructor.
Defined.

(** After an upsert that the store accepted, every user given is stored:
    a row with its user_id is in the table. *)
Theorem insertUsers_then_lookup (env : Env) (us : list ApiUser) (w : World)
    (u : ApiUser) :
  db env (dbCalls w) = DbOk ->
  In u us ->
  has_user_id (user_id u) (id_users (snd (insertUsers env (Some us) w))) = true.
Proof.
  intros Hdb Hin.
  assert (Hne : us <> []) by (intros ->; destruct Hin).
  destruct (insertUsers_spec env us w Hne) as (w' & Hr & _ & _ & _ & _ & Hu).
  rewrite Hr. cbn [snd]. rewrite Hu. unfold db_ok. rewrite Hdb.
  pose proof (upsert_ignore_present (map (to_dbUser (clock w)) us) (id_users w)) as H.
  rewrite Forall_forall in H.
  apply (H (to_dbUser (clock w) u)). apply in_map. exact Hin.
Qed.

Lemma insertUsers_then_lookup_witness :
  has_user_id (user_id u2)
    (id_users (snd (insertUsers (env_of [] [] [] 50) (Some [u1; u2]) world0)))
  = true.
Proof.
  apply (insertUsers_then_lookup (env_of [] [] [] 50) [u1; u2] world0 u2).
  - reflexivity.
  - right. left. reflexivity.
Defined.

(** Upserting the same users again, at any later time and whatever the
    store then answers, leaves the table as the first accepted upsert
    left it. *)
Theorem insertUsers_again_changes_nothing (env env' : Env)
    (us : list ApiUser) (w w2 : World) :
  db env (dbCalls w) = DbOk ->
  id_users w2 = id_users (snd (insertUsers env (Some us) w)) ->
  id_users (snd (insertUsers env' (Some us) w2)) = id_users w2.
Proof.
  intros Hdb Hsame. destruct us as [|u us]; [reflexivity|].
  assert (Hne : u :: us <> []) by discriminate.
  destruct (insertUsers_spec env _ w Hne) as (w1 & Hr & _ & _ & _ & _ & Hu).
  rewrite Hr in Hsame. cbn [snd] in Hsame. rewrite Hu in Hsame.
  unfold db_ok in Hsame. rewrite Hdb in Hsame.
  destruct (insertUsers_spec env' _ w2 Hne) as (w3 & Hr3 & _ & _ & _ & _ & Hu3).
  rewrite Hr3. cbn [snd]. rewrite Hu3. destruct (db_ok env' w2); [|reflexivity].
  apply upsert_ignore_noop.
  pose proof (upsert_ignore_present (map (to_dbUser (clock w)) (u :: us)) (id_users w)) as H.
  rewrite <- Hsame in H. rewrite Forall_forall in *.
  intros r Hin. apply in_map_iff in Hin. destruct Hin as (x & <- & Hx).
  apply (H (to_dbUser (clock w) x)). apply in_map. exact Hx.
Qed.

Lemma insertUsers_again_changes_nothing_witness :
  id_users (snd (insertUsers (env_of [] [] [] 50) (Some [u1; u2])
                   (snd (insertUsers (env_of [] [] [] 50) (Some [u1; u2]) world0))))
  = id_users (snd (insertUsers (env_of [] [] [] 50) (Some [u1; u2]) world0)).
Proof.
  apply (insertUsers_again_changes_nothing (env_of [] [] [] 50)
           (env_of [] [] [] 50) [u1; u2] world0).
  - reflexivity.
  - reflexivity.
Defined.

(** getCheckpoint by what the store answers: without an error it
    returns the value of the row when that is a non-empty string, and
    null when the row is missing or its value is empty; the error code
    PGRST116 gives null, whatever is stored; any other error is thrown
    as it is.  So it returns a value only when that value is stored and
    non-empty, and null only when the store answered PGRST116 or holds
    no checkpoint.  It changes neither table. *)
Theorem getCheckpoint_results (env : Env) (w : World) :
  let r := getCheckpoint env w in
  fst r
  = match db env (dbCalls w) with
    | DbOk =>
        Ok (match id_sync_state w with
            | Some row => if truthy (value row) then Some (value row) else None
            | None => None
            end)
    | DbError code =>
        if code =? "PGRST116" then Ok None else Throw (StoreError code)
    end
  /\ match fst r with
     | Ok (Some cp) =>
         truthy cp = true /\ option_map value (id_sync_state w) = Some cp
         /\ db env (dbCalls w) = DbOk
     | Ok None =>
         db env (dbCalls w) = DbError "PGRST116"
         \/ (db env (dbCalls w) = DbOk /\ no_checkpoint w)
     | Throw e =>
         exists code, e = StoreError code /\ db env (dbCalls w) = DbError code
                      /\ code <> "PGRST116"
     | Diverge => False
     end
  /\ id_sync_state (snd r) = id_sync_state w
  /\ id_users (snd r) = id_users w.
Proof.
  cbv zeta.
  assert (Heq : fst (getCheckpoint env w)
                = match db env (dbCalls w) with
                  | DbOk =>
                      Ok (match id_sync_state w with
                          | Some row =>
                              if truthy (value row) then Some (value row) else None
                          | None => None
                          end)
                  | DbError code =>
                      if code =? "PGRST116" then Ok None
                      else Throw (StoreError code)
                  end).
  { unfold getCheckpoint.
    unfold try_catch, bind, gets, db_call, modify, throw, ret.
    cbn [log dbCalls id_sync_state set_dbCalls].
    destruct (db env (dbCalls w)) as [|code].
    - destruct (id_sync_state w) as [row|]; cbn [fst]; [|reflexivity].
      unfold or_null. cbn [truthy_opt option_map].
      destruct (truthy (value row)); reflexivity.
    - destruct (code =? "PGRST116"); reflexivity. }
  split; [exact Heq|]. split.
  - rewrite Heq. unfold no_checkpoint, or_null.
    destruct (db env (dbCalls w)) as [|code].
    + destruct (id_sync_state w) as [row|]; cbn [option_map truthy_opt]; [|auto].
      destruct (truthy (value row)) eqn:E; auto.
    + destruct (code =? "PGRST116") eqn:E.
      * apply String.eqb_eq in E. left. congruence.
      * exists code. repeat split. intros ->. discriminate E.
  - pose proof (getCheckpoint_footprint env w) as H. cbv zeta in H. tauto.
Qed.

(** A checkpoint written is read back: after updateCheckpoint succeeded,
    getCheckpoint on a store that answers returns the value written, or
    null when that value is the empty string. *)
Theorem checkpoint_round_trip (env env' : Env) (v : string) (w w2 : World) :
  db env (dbCalls w) = DbOk ->
  id_sync_state w2 = id_sync_state (snd (updateCheckpoint env v w)) ->
  db env' (dbCalls w2) = DbOk ->
  fst (updateCheckpoint env v w) = Ok tt
  /\ fst (getCheckpoint env' w2) = Ok (if truthy v then Some v else None).
Proof.
  intros Hdb Hsame Hdb'.
  destruct (updateCheckpoint_spec env v w) as (w1 & Hr & _ & Hs).
  rewrite Hr in *. cbn [fst snd] in *. unfold db_ok in *. rewrite Hdb in *.
  split; [reflexivity|].
  destruct (getCheckpoint_spec env' w2) as (r & w3 & Hg & _ & _ & _ & _ & _ & _ & Hok).
  rewrite Hg. cbn [fst]. rewrite (Hok Hdb'), Hsame, Hs. reflexivity.
Qed.

Lemma checkpoint_round_trip_witness :
  fst (updateCheckpoint (env_of [] [] [] 50) "u7" world0) = Ok tt
  /\ fst (getCheckpoint (env_of [] [] [] 50)
            (snd (updateCheckpoint (env_of [] [] [] 50) "u7" world0)))
     = Ok (Some "u7").
Proof.
  apply (checkpoint_round_trip (env_of [] [] [] 50) (env_of [] [] [] 50) "u7"
           world0 (snd (updateCheckpoint (env_of [] [] [] 50) "u7" world0)));
    reflexivity.
Defined.

(** ** The rate limiter and fetchUsersPage *)

(** The outcome of fetchUsersPage by what axios.get settled to.  Data
    is returned only for a body whose status is the number 1; a body
    with another status, or with none at all (an empty or non-JSON body,
    an object without the field), throws the API-status error; a null
    body throws a TypeError.  An error response takes precedence over
    the request; an error with only a request is the network error; a
    local error is passed on as it is.  Whatever the outcome, the call
    made exactly one request. *)
Theorem fetchUsersPage_outcomes (env : Env) (page : nat) (w : World) :
  fst (fetchUsersPage env page w)
  = match net env (netCalls w) with
    | Resolved (Some body) =>
        match status body with
        | Some st =>
            if (st =? 1)%Z then Ok (data body)
            else Throw (ApiStatusError (Some st) (message body))
        | None => Throw (ApiStatusError None (message body))
        end
    | Resolved None => Throw TypeError
    | Rejected (Some (st, statusText)) _ => Throw (ApiError st statusText)
    | Rejected None true => Throw NetworkError
    | Rejected None false => Throw (AxiosError None false)
    end
  /\ fetched_pages (events_since w (snd (fetchUsersPage env page w))) = [page]
  /\ netCalls (snd (fetchUsersPage env page w)) = S (netCalls w).
Proof.
  rewrite after_fetch_eq. cbn [fst snd].
  pose proof (after_fetch_spec env page w) as H. cbv zeta in H.
  destruct H as (Ht & Hn & _).
  rewrite (events_since_app _ _ _ Ht). split; [|auto].
  unfold fetch_result, status_is_1.
  destruct (net env (netCalls w)) as [[body|]|[[st tx]|] [|]]; try reflexivity.
  destruct (status body) as [st|]; reflexivity.
Qed.

Lemma shift_expired_suffix now ts :
  exists removed,
    ts = removed ++ shift_expired now ts
    /\ Forall (fun t => RATE_LIMIT_WINDOW_MS <= now - t)%Z removed.
Proof.
  induction ts as [|t ts IH]; cbn [shift_expired].
  - exists []. auto.
  - destruct (RATE_LIMIT_WINDOW_MS <=? now - t)%Z eqn:E.
    + destruct IH as (removed & Heq & Hall). exists (t :: removed).
      split; [cbn; congruence|]. constructor; [apply Z.leb_le; exact E|exact Hall].
    + exists []. auto.
Qed.

Lemma StronglySorted_suffix (a b : list Z) :
  StronglySorted Z.le (a ++ b) -> StronglySorted Z.le b.
Proof.
  induction a as [|x a IH]; cbn; auto.
  intros H. apply StronglySorted_inv in H. tauto.
Qed.

Lemma StronglySorted_push (l : list Z) (c : Z) :
  StronglySorted Z.le l -> Forall (fun t => t <= c)%Z l ->
  StronglySorted Z.le (l ++ [c]).
Proof.
  induction l as [|x l IH]; cbn; intros Hs Hc.
  - repeat constructor.
  - apply StronglySorted_inv in Hs. destruct Hs as [Hs Hx].
    inversion Hc; subst. constructor; [auto|].
    apply Forall_app. split; [exact Hx|]. repeat constructor. assumption.
Qed.

Lemma sorted_all_fresh now ts :
  StronglySorted Z.le ts ->
  Forall (fun t => now - t < RATE_LIMIT_WINDOW_MS)%Z (shift_expired now ts).
Proof.
  induction ts as [|t ts IH]; cbn [shift_expired]; intros Hs; [constructor|].
  apply StronglySorted_inv in Hs. destruct Hs as [Hs Ht].
  destruct (RATE_LIMIT_WINDOW_MS <=? now - t)%Z eqn:E; [auto|].
  apply Z.leb_gt in E. constructor; [exact E|].
  eapply Forall_impl; [|exact Ht]. cbn beta. intros; lia.
Qed.

(** The pruning of waitForRateLimit only drops timestamps from the front
    of the array, and only such as are at least 10000 ms old; when the
    array is in ascending order, every timestamp it keeps is younger
    than that. *)
Theorem shift_expired_drops_only_expired (now : Z) (ts : list Z) :
  (exists removed,
     ts = removed ++ shift_expired now ts
     /\ Forall (fun t => RATE_LIMIT_WINDOW_MS <= now - t)%Z removed)
  /\ (StronglySorted Z.le ts ->
      Forall (fun t => now - t < RATE_LIMIT_WINDOW_MS)%Z (shift_expired now ts)).
Proof.
  split; [apply shift_expired_suffix|apply sorted_all_fresh].
Qed.

(** When waitForRateLimit returns, fewer than 3 timestamps are left in
    the array and each of them is less than 10000 ms old, provided the
    array was sorted, held at most 3 timestamps and none of the future
    (as it does in every run of the service). *)
Theorem waitForRateLimit_leaves_room (env : Env) (w : World) :
  limiter_sorted w ->
  (List.length (apiCallTimestamps w) <= 3)%nat ->
  let w' := after_wait env w in
  (List.length (apiCallTimestamps w') < RATE_LIMIT_MAX_REQUESTS)%nat
  /\ Forall (fun t => clock w' - t < RATE_LIMIT_WINDOW_MS)%Z (apiCallTimestamps w')
  /\ limiter_sorted w'.
Proof.
  intros [Hs Hc] Hlen. cbv zeta.
  pose proof (after_wait_spec env w) as Hw. cbv zeta in Hw.
  destruct Hw as (_ & _ & _ & _ & _ & _ & _ & Hts).
  destruct (shift_expired_suffix (clock w) (apiCallTimestamps w)) as (rm & Heq & _).
  pose proof (shift_expired_length (clock w) (apiCallTimestamps w)) as Hl1.
  assert (Hs1 : StronglySorted Z.le (shift_expired (clock w) (apiCallTimestamps w))).
  { apply (StronglySorted_suffix rm). rewrite <- Heq. exact Hs. }
  assert (Hc1 : Forall (fun t => t <= clock w)%Z
                  (shift_expired (clock w) (apiCallTimestamps w))).
  { rewrite Heq in Hc. apply Forall_app in Hc. tauto. }
  unfold limiter_sorted.
  destruct (RATE_LIMIT_MAX_REQUESTS <=? _)%nat eqn:E; destruct Hts as [Hclk Hts'];
    rewrite Hts'.
  - assert (Hne : shift_expired (clock w) (apiCallTimestamps w) <> []).
    { apply Nat.leb_le in E. unfold RATE_LIMIT_MAX_REQUESTS in E.
      destruct (shift_expired (clock w) (apiCallTimestamps w)); cbn in *; [lia|congruence]. }
    pose proof (shift_expired_hd_fresh _ _ Hne) as Hf.
    assert (Hh : (hd 0 (shift_expired (clock w) (apiCallTimestamps w))
                  + RATE_LIMIT_WINDOW_MS <= clock (after_wait env w))%Z) by lia.
    pose proof (shift_expired_head _ _ Hh) as Hl2.
    destruct (shift_expired_suffix (clock (after_wait env w))
                (shift_expired (clock w) (apiCallTimestamps w))) as (rm2 & Heq2 & _).
    split; [unfold RATE_LIMIT_MAX_REQUESTS; lia|].
    split; [apply sorted_all_fresh; exact Hs1|].
    split; [apply (StronglySorted_suffix rm2); rewrite <- Heq2; exact Hs1|].
    rewrite Heq2 in Hc1. apply Forall_app in Hc1. destruct Hc1 as [_ Hc1].
    eapply Forall_impl; [|exact Hc1]. cbn beta. unfold RATE_LIMIT_WINDOW_MS in *.
    intros; lia.
  - apply Nat.leb_gt in E. split; [exact E|].
    rewrite Hclk. split; [apply sorted_all_fresh; exact Hs|].
    split; [exact Hs1|exact Hc1].
Qed.

Lemma waitForRateLimit_leaves_room_witness :
  (List.length
     (apiCallTimestamps
        (after_wait (env_of [] [] [] 50)
           (set_clock 4000 (set_apiCallTimestamps [1000; 2000; 3000]%Z world0))))
   < RATE_LIMIT_MAX_REQUESTS)%nat.
Proof.
  refine (proj1 (waitForRateLimit_leaves_room (env_of [] [] [] 50)
                   (set_clock 4000 (set_apiCallTimestamps [1000; 2000; 3000]%Z world0))
                   _ _)).
  - split; cbn; repeat constructor; lia.
  - cbn. lia.
Defined.

Lemma limiter_sorted_fetch env page w :
  limiter_sorted w -> (List.length (apiCallTimestamps w) <= 3)%nat ->
  limiter_sorted (snd (fetchUsersPage env page w)).
Proof.
  intros Hs Hlen.
  destruct (waitForRateLimit_leaves_room env w Hs Hlen) as (_ & _ & Hs1 & Hc1).
  rewrite fetchUsersPage_eq. cbn [snd].
  pose proof (after_get_spec env page (after_wait env w)) as Hg. cbv zeta in Hg.
  destruct Hg as (_ & _ & _ & _ & _ & _ & Hts & Hclk & _).
  set (w4 := after_get env page (after_wait env w)) in *.
  assert (Hc4 : Forall (fun t => t <= clock w4)%Z (apiCallTimestamps w4)).
  { rewrite Hts. eapply Forall_impl; [|exact Hc1]. cbn beta. intros; lia. }
  destruct (reaches_network _); unfold limiter_sorted;
    cbn [apiCallTimestamps clock set_apiCallTimestamps].
  - split; [apply StronglySorted_push; [rewrite Hts; exact Hs1|exact Hc4]|].
    apply Forall_app. split; [exact Hc4|]. repeat constructor. lia.
  - rewrite Hts in *. split; assumption.
Qed.

Lemma limiter_ok_same w w' : same_limiter w w' -> keeps_limiter_ok w w'.
Proof.
  intros (Hc & Ht & Ha) [(old & recent & H1 & H2 & H3 & H4 & H5) [Hs Hf]].
  split; [|split; rewrite Ht, ?Hc; assumption].
  exists old, recent. unfold issued_in_window in *. rewrite Ha, Ht, Hc. auto.
Qed.

Lemma keeps_limiter_ok_refl w : keeps_limiter_ok w w.
Proof. intros H. exact H. Qed.

Lemma keeps_limiter_ok_trans w1 w2 w3 :
  keeps_limiter_ok w1 w2 -> keeps_limiter_ok w2 w3 -> keeps_limiter_ok w1 w3.
Proof. unfold keeps_limiter_ok. auto. Qed.

Lemma keeps_limiter_ok_fetch env page :
  preserves keeps_limiter_ok (fetchUsersPage env page).
Proof.
  intros w [Hinv Hs]. split; [apply RL_inv_fetch; exact Hinv|].
  apply limiter_sorted_fetch; [exact Hs|].
  destruct Hinv as (_ & _ & _ & _ & _ & Hlen & _). exact Hlen.
Qed.

Lemma keeps_limiter_ok_idle gap : preserves keeps_limiter_ok (idle gap).
Proof.
  intros w [Hinv [Hs Hf]]. split; [apply RL_inv_idle; exact Hinv|].
  split; [exact Hs|]. cbn -[Z.add].
  eapply Forall_impl; [|exact Hf]. cbn beta. intros; lia.
Qed.

(** The sync service as a whole keeps to the limit: from the start of
    the process and over any number of runs that follow one another,
    whatever the feed and the store answer and however each run ends, no
    more than 3 requests are issued in any window of 10000 ms, and the
    timestamp array stays sorted and never holds more than 3 entries.
    No run passes an error on to the scheduler. *)
Theorem sync_service_limiter (env : Env) (triggers : list (N * nat))
    (w : World) (t : Z) :
  apiCallTimestamps w = [] ->
  admissions w = [] ->
  let r := sync_service env triggers w in
  (issued_in_window t (snd r) <= RATE_LIMIT_MAX_REQUESTS)%nat
  /\ (List.length (apiCallTimestamps (snd r)) <= RATE_LIMIT_MAX_REQUESTS)%nat
  /\ StronglySorted Z.le (apiCallTimestamps (snd r))
  /\ (forall e, fst r <> Throw e).
Proof.
  intros Hts Ha. cbv zeta.
  assert (Hok : limiter_ok w).
  { split; [apply RL_inv_fresh; assumption|].
    unfold limiter_sorted. rewrite Hts. split; constructor. }
  pose proof (preserves_sync_service keeps_limiter_ok keeps_limiter_ok_refl
                keeps_limiter_ok_trans env (keeps_limiter_ok_fetch env)
                (fun us w => limiter_ok_same _ _
                   (proj1 (insertUsers_footprint env us w)))
                (fun w => limiter_ok_same _ _
                   (proj1 (getCheckpoint_footprint env w)))
                (fun v w => limiter_ok_same _ _
                   (proj1 (updateCheckpoint_footprint env v w)))
                keeps_limiter_ok_idle triggers w Hok) as [Hinv [Hs _]].
  destruct Hinv as (_ & _ & _ & _ & _ & Hlen & Hwin).
  split; [apply Hwin|]. split; [exact Hlen|]. split; [exact Hs|].
  clear. revert w. induction triggers as [|[gap fuel] rest IH]; intros w e;
    cbn [sync_service]; [discriminate|].
  unfold bind at 1. cbn [idle modify]. unfold bind at 1. unfold sync_trigger, try_catch.
  destruct (syncUsers env fuel _) as [[[]|e'|] w1]; cbn [ret]; try apply IH.
  discriminate.
Qed.

Lemma sync_service_limiter_witness :
  (issued_in_window 0
     (snd (sync_service env_full_sync [(0%N, 5); (600000%N, 5)] world0))
   <= RATE_LIMIT_MAX_REQUESTS)%nat.
Proof.
  exact (proj1 (sync_service_limiter env_full_sync [(0%N, 5); (600000%N, 5)]
                  world0 0%Z eq_refl eq_refl)).
Defined.

(** ** Sync runs that end early *)

Lemma getCheckpoint_some env w cp :
  has_checkpoint w cp ->
  db env (dbCalls w) = DbOk ->
  exists w',
    getCheckpoint env w = (Ok (Some cp), w') /\
    trace w' = trace w ++ [EvGetCheckpoint] /\
    netCalls w' = netCalls w /\
    dbCalls w' = S (dbCalls w) /\
    id_sync_state w' = id_sync_state w /\
    id_users w' = id_users w.
Proof.
  intros [Hv Ht] Hdb.
  destruct (getCheckpoint_spec env w) as (r & w' & Hr & Htr & Hn & Hd & Hs & Hu & _ & Hok).
  exists w'. rewrite Hr, (Hok Hdb), Hv. unfold or_null. cbn [truthy_opt].
  rewrite Ht. repeat split; auto.
Qed.

(** The loop of fetchIncrementalPages passes over pages that are not
    empty, do not hold the checkpoint and announce a next page: each is
    upserted whole, and the loop stands at the page after them. *)
Lemma incremental_loop_pass env checkpoint :
  forall before c first total w,
    (forall k us, nth_error before k = Some us ->
       serves env (netCalls w + k) us true /\ us <> []
       /\ findIndex (is_checkpoint checkpoint) us = None) ->
    1 <= c ->
    exists total' w' evs,
      (forall fuel,
         fetchIncrementalPages_loop env (List.length before + fuel) checkpoint
           c true first total w
         = fetchIncrementalPages_loop env fuel checkpoint
             (c + List.length before) true (first_after c first before)
             total' w') /\
      trace w' = trace w ++ evs /\
      upsert_calls evs = before /\
      fetched_pages evs = seq c (List.length before) /\
      netCalls w' = netCalls w + List.length before /\
      dbCalls w' = dbCalls w + List.length before /\
      id_sync_state w' = id_sync_state w.
Proof.
  induction before as [|us before IH]; intros c first total w Hbefore Hc.
  - exists total, w, []. cbn. rewrite !Nat.add_0_r, app_nil_r. repeat split; auto.
  - destruct (Hbefore 0 us eq_refl) as (Hsv & Hne & Hnone).
    rewrite Nat.add_0_r in Hsv.
    destruct (serves_fetch env c w _ _ Hsv) as (d & Hf & Hu & Hm).
    pose proof (after_fetch_spec env c w) as Hw. cbv zeta in Hw.
    destruct Hw as (Ht & Hn & Hd & _ & Hs & _).
    destruct (length_pos_nonempty _ Hne) as [Hz Hpos].
    destruct (insertUsers_spec env _ (after_fetch env c w) Hne)
      as (w2 & Hins & Ht2 & Hn2 & Hd2 & Hs2 & _).
    destruct (IH (S c)
                (if (c =? 1)%nat then option_map user_id (hd_error us) else first)
                (total + (if db_ok env (after_fetch env c w)
                          then List.length us else 0)) w2)
      as (total' & w' & evs & Hrun & Htr & Hup & Hfp & Hnc & Hdc & Hst).
    { intros k us' Hk. rewrite Hn2, Hn.
      replace (S (netCalls w) + k) with (netCalls w + S k) by lia.
      apply Hbefore. exact Hk. }
    { lia. }
    exists total', w',
      ([EvFetch c; EvUpsertUsers us (db_ok env (after_fetch env c w))] ++ evs).
    split; [|split; [|split; [|split; [|split; [|split]]]]].
    + intros fuel. cbn [List.length Nat.add fetchIncrementalPages_loop negb].
      rewrite (bind_ok _ _ w
                 (inr (if (c =? 1)%nat then option_map user_id (hd_error us) else first,
                       total + (if db_ok env (after_fetch env c w)
                                then List.length us else 0), true)) w2).
      * cbv beta iota. rewrite Hrun. cbn [first_after].
        replace (S c + List.length before) with (c + S (List.length before)) by lia.
        f_equal. destruct before; cbn [first_after]; [reflexivity|].
        replace (S c =? 1)%nat with false by (symmetry; apply Nat.eqb_neq; lia).
        reflexivity.
      * rewrite try_rethrow. rewrite (bind_ok _ _ _ _ _ Hf). cbv beta iota.
        rewrite Hu, Hz, Hpos, andb_true_r.
        fold (is_checkpoint checkpoint). rewrite Hnone.
        rewrite (bind_ok _ _ _ _ _ Hins). rewrite Hm. reflexivity.
    + rewrite Htr, Ht2, Ht, <- !app_assoc. reflexivity.
    + rewrite upsert_calls_app, Hup. reflexivity.
    + rewrite fetched_pages_app, Hfp. reflexivity.
    + rewrite Hnc, Hn2, Hn. cbn [List.length]. lia.
    + rewrite Hdc, Hd2, Hd. cbn [List.length]. lia.
    + congruence.
Qed.

Lemma fails_fetch env page w e :
  fails env (netCalls w) e ->
  fetchUsersPage env page w = (Throw e, after_fetch env page w).
Proof. intros H. rewrite after_fetch_eq. unfold fails in H. rewrite H. reflexivity. Qed.

(** One iteration of the loop of fetchIncrementalPages, by what the page
    fetched turns out to be. *)
Lemma incremental_step_fails env checkpoint fuel c first total w e :
  fails env (netCalls w) e ->
  fetchIncrementalPages_loop env (S fuel) checkpoint c true first total w
  = (Throw e, after_fetch env c w).
Proof.
  intros H. cbn [fetchIncrementalPages_loop negb].
  apply bind_throw. rewrite try_rethrow. apply bind_throw.
  apply fails_fetch. exact H.
Qed.

Lemma incremental_step_empty env checkpoint fuel c first total w more :
  serves env (netCalls w) [] more ->
  fetchIncrementalPages_loop env (S fuel) checkpoint c true first total w
  = (Ok (first, total), after_fetch env c w).
Proof.
  intros H. destruct (serves_fetch env c w _ _ H) as (d & Hf & Hu & _).
  cbn [fetchIncrementalPages_loop negb].
  rewrite (bind_ok _ _ w (inl (first, total)) (after_fetch env c w)); [reflexivity|].
  rewrite try_rethrow, (bind_ok _ _ _ _ _ Hf). cbv beta iota zeta.
  rewrite Hu. reflexivity.
Qed.

Lemma incremental_step_last env checkpoint fuel c first total w us :
  serves env (netCalls w) us false ->
  us <> [] ->
  findIndex (is_checkpoint checkpoint) us = None ->
  exists total' w',
    fetchIncrementalPages_loop env (S fuel) checkpoint c true first total w
    = (Ok (if (c =? 1)%nat then option_map user_id (hd_error us) else first,
           total'), w') /\
    trace w' = trace w ++ [EvFetch c; EvUpsertUsers us (db_ok env (after_fetch env c w))] /\
    dbCalls w' = S (dbCalls w) /\
    id_sync_state w' = id_sync_state w.
Proof.
  intros Hsv Hne Hnone.
  destruct (serves_fetch env c w _ _ Hsv) as (d & Hf & Hu & Hm).
  pose proof (after_fetch_spec env c w) as Hw. cbv zeta in Hw.
  destruct Hw as (Ht & Hn & Hd & _ & Hs & _).
  destruct (length_pos_nonempty _ Hne) as [Hz Hpos].
  destruct (insertUsers_spec env _ (after_fetch env c w) Hne)
    as (w2 & Hins & Ht2 & Hn2 & Hd2 & Hs2 & _).
  exists (total + (if db_ok env (after_fetch env c w) then List.length us else 0)), w2.
  split; [|split; [|split]].
  - cbn [fetchIncrementalPages_loop negb].
    rewrite (bind_ok _ _ w
               (inr (if (c =? 1)%nat then option_map user_id (hd_error us) else first,
                     total + (if db_ok env (after_fetch env c w)
                              then List.length us else 0), false)) w2).
    + cbv beta iota. destruct fuel; reflexivity.
    + rewrite try_rethrow. rewrite (bind_ok _ _ _ _ _ Hf). cbv beta iota.
      rewrite Hu, Hz, Hpos, andb_true_r.
      fold (is_checkpoint checkpoint). rewrite Hnone.
      rewrite (bind_ok _ _ _ _ _ Hins). rewrite Hm. reflexivity.
  - rewrite Ht2, Ht, <- app_assoc. reflexivity.
  - congruence.
  - congruence.
Qed.

Lemma incremental_step_found env checkpoint fuel c first total w us more i :
  serves env (netCalls w) us more ->
  findIndex (is_checkpoint checkpoint) us = Some i ->
  exists total' w',
    fetchIncrementalPages_loop env (S fuel) checkpoint c true first total w
    = (Ok (if (c =? 1)%nat then option_map user_id (hd_error us) else first,
           total'), w') /\
    trace w' = trace w
               ++ EvFetch c
                  :: (if (0 <? i)%nat
                      then [EvUpsertUsers (firstn i us)
                              (db_ok env (after_fetch env c w))]
                      else []) /\
    dbCalls w' = dbCalls w + (if (0 <? i)%nat then 1 else 0) /\
    id_sync_state w' = id_sync_state w /\
    ((0 <? i)%nat = false -> id_users w' = id_users w).
Proof.
  intros Hsv Hi.
  destruct (serves_fetch env c w _ _ Hsv) as (d & Hf & Hu & Hm).
  pose proof (after_fetch_spec env c w) as Hw. cbv zeta in Hw.
  destruct Hw as (Ht & Hn & Hd & _ & Hs & Hus).
  assert (Hne : us <> []) by (intros ->; discriminate).
  destruct (length_pos_nonempty _ Hne) as [Hz Hpos].
  cbn [fetchIncrementalPages_loop negb].
  destruct (0 <? i)%nat eqn:Ei.
  - assert (Hfn : firstn i us <> []).
    { destruct i; [discriminate|]. destruct us; [congruence|]. discriminate. }
    destruct (length_pos_nonempty _ Hfn) as [_ Hpos'].
    destruct (insertUsers_spec env _ (after_fetch env c w) Hfn)
      as (w2 & Hins & Ht2 & Hn2 & Hd2 & Hs2 & _).
    exists (total + (if db_ok env (after_fetch env c w)
                     then List.length (firstn i us) else 0)), w2.
    split; [|split; [|split; [|split]]].
    + rewrite (bind_ok _ _ w
                 (inl (if (c =? 1)%nat then option_map user_id (hd_error us) else first,
                       total + (if db_ok env (after_fetch env c w)
                                then List.length (firstn i us) else 0))) w2);
        [reflexivity|].
      rewrite try_rethrow. rewrite (bind_ok _ _ _ _ _ Hf). cbv beta iota.
      rewrite Hu, Hz, Hpos, andb_true_r.
      fold (is_checkpoint checkpoint). rewrite Hi, Hpos'.
      rewrite (bind_ok _ _ _ _ _ (bind_ok _ _ _ _ _ Hins)). reflexivity.
    + rewrite Ht2, Ht, <- app_assoc. reflexivity.
    + rewrite Hd2, Hd. lia.
    + congruence.
    + discriminate.
  - exists total, (after_fetch env c w).
    split; [|split; [|split; [|split]]]; auto; try lia.
    rewrite (bind_ok _ _ w
               (inl (if (c =? 1)%nat then option_map user_id (hd_error us) else first,
                     total)) (after_fetch env c w)); [reflexivity|].
    rewrite try_rethrow. rewrite (bind_ok _ _ _ _ _ Hf). cbv beta iota.
    rewrite Hu, Hz, Hpos, andb_true_r.
    fold (is_checkpoint checkpoint). rewrite Hi.
    assert (Hfn : (0 <? List.length (firstn i us))%nat = false).
    { apply Nat.ltb_ge in Ei. assert (i = 0) by lia. subst i. reflexivity. }
    rewrite Hfn. reflexivity.
Qed.

Lemma fuel_split n fuel : n < fuel -> exists f, fuel = n + S f.
Proof. intros H. exists (fuel - S n). lia. Qed.

Lemma fetchIncrementalPages_of_loop env fuel cp w id total w' :
  fetchIncrementalPages_loop env fuel cp 1 true None 0 w = (Ok (Some id, total), w') ->
  truthy id = true ->
  fetchIncrementalPages env fuel cp w = (Ok id, w').
Proof.
  intros Hl Ht. unfold fetchIncrementalPages.
  rewrite (bind_ok _ _ _ _ _ Hl). cbn [fst truthy_opt]. rewrite Ht. cbn [negb].
  unfold bind, ret. rewrite Ht. reflexivity.
Qed.

Lemma syncUsers_incremental_run env fuel w cp :
  has_checkpoint w cp ->
  db env (dbCalls w) = DbOk ->
  exists w1,
    syncUsers env fuel w
    = bind (fetchIncrementalPages env fuel cp) (updateCheckpoint env) w1 /\
    trace w1 = trace w ++ [EvGetCheckpoint] /\
    netCalls w1 = netCalls w /\
    dbCalls w1 = S (dbCalls w) /\
    id_sync_state w1 = id_sync_state w /\
    id_users w1 = id_users w.
Proof.
  intros Hcp Hdb.
  destruct (getCheckpoint_some env w cp Hcp Hdb) as (w1 & Hg & H).
  exists w1. split; [|exact H].
  unfold syncUsers. rewrite try_rethrow, (bind_ok _ _ _ _ _ Hg).
  destruct Hcp as [_ Ht]. rewrite Ht. reflexivity.
Qed.

Lemma seq_snoc c n : seq c (S n) = seq c n ++ [c + n].
Proof. rewrite seq_S. reflexivity. Qed.

(** An incremental run whose fetch of page p fails after pages 1..p-1
    passed without the checkpoint: the run throws that error, the pages
    before p have already gone to the store one by one, and the stored
    checkpoint is as it was, so the next run starts from it again. *)
Theorem incremental_sync_fetch_error (env : Env) (fuel : nat) (w : World)
    (cp : string) (before : list (list ApiUser)) (e : JsError) :
  has_checkpoint w cp ->
  db env (dbCalls w) = DbOk ->
  (forall k us, nth_error before k = Some us ->
     serves env (netCalls w + k) us true /\ us <> []
     /\ findIndex (is_checkpoint cp) us = None) ->
  fails env (netCalls w + List.length before) e ->
  List.length before < fuel ->
  exists w',
    syncUsers env fuel w = (Throw e, w')
    /\ upsert_calls (events_since w w') = before
    /\ fetched_pages (events_since w w') = seq 1 (S (List.length before))
    /\ checkpoints_written (events_since w w') = []
    /\ id_sync_state w' = id_sync_state w.
Proof.
  intros Hcp Hdb Hbefore Hfail Hfuel.
  destruct (syncUsers_incremental_run env fuel w cp Hcp Hdb)
    as (w1 & Hrun & Ht1 & Hn1 & Hd1 & Hs1 & _).
  destruct (incremental_loop_pass env cp before 1 None 0 w1)
    as (total' & w2 & evs & Hpass & Ht2 & Hup & Hfp & Hn2 & _ & Hs2).
  { intros k us Hk. rewrite Hn1. apply Hbefore. exact Hk. }
  { lia. }
  destruct (fuel_split _ _ Hfuel) as (f & ->).
  assert (Hf2 : fails env (netCalls w2) e) by (rewrite Hn2, Hn1; exact Hfail).
  pose proof (incremental_step_fails env cp f (1 + List.length before)
                (first_after 1 None before) total' w2 e Hf2) as Hstep.
  pose proof (after_fetch_spec env (1 + List.length before) w2) as Hw. cbv zeta in Hw.
  destruct Hw as (Ht3 & _ & _ & _ & Hs3 & _).
  exists (after_fetch env (1 + List.length before) w2).
  assert (Htr : trace (after_fetch env (1 + List.length before) w2)
                = trace w ++ ([EvGetCheckpoint] ++ evs ++ [EvFetch (1 + List.length before)])).
  { rewrite Ht3, Ht2, Ht1, <- !app_assoc. reflexivity. }
  split; [|split; [|split; [|split]]].
  - rewrite Hrun. apply bind_throw. unfold fetchIncrementalPages.
    apply bind_throw. rewrite Hpass. exact Hstep.
  - rewrite (events_since_app _ _ _ Htr), !upsert_calls_app, Hup. cbn.
    apply app_nil_r.
  - rewrite (events_since_app _ _ _ Htr), !fetched_pages_app, Hfp, seq_snoc.
    reflexivity.
  - rewrite (events_since_app _ _ _ Htr), !checkpoints_written_app.
    assert (Hc : checkpoints_written evs = []).
    { destruct (frame_fetchIncrementalPages_loop env cp
                  (List.length before + 0) 1 true None 0 w1) as [_ (evs' & He & Hc)].
      rewrite Hpass in He. cbn in He. rewrite Ht2 in He.
      apply app_inv_head in He. subst evs'. exact Hc. }
    rewrite Hc. reflexivity.
  - congruence.
Qed.

Lemma incremental_sync_fetch_error_witness :
  exists w',
    syncUsers (env_of [page_reply [u5; u4] true; Rejected None true] [] [] 50)
      5 (world_with_checkpoint "u1")
    = (Throw NetworkError, w')
    /\ upsert_calls (events_since (world_with_checkpoint "u1") w') = [[u5; u4]]
    /\ fetched_pages (events_since (world_with_checkpoint "u1") w') = [1; 2]
    /\ checkpoints_written (events_since (world_with_checkpoint "u1") w') = []
    /\ id_sync_state w' = id_sync_state (world_with_checkpoint "u1").
Proof.
  refine (incremental_sync_fetch_error
            (env_of [page_reply [u5; u4] true; Rejected None true] [] [] 50)
            5 (world_with_checkpoint "u1") "u1" [[u5; u4]] NetworkError
            _ _ _ _ _).
  - split; reflexivity.
  - reflexivity.
  - intros [|[|k]] us H; cbn in H; try discriminate.
    injection H as <-. split; [|split].
    + eexists. split; [reflexivity|]. split; reflexivity.
    + discriminate.
    + reflexivity.
  - reflexivity.
  - cbn. lia.
Defined.

(** An incremental run that finds the checkpoint (pages 1..p-1 without
    it, page p with it at index i) and whose checkpoint write the store
    accepts returns normally and leaves as the new checkpoint the user_id
    of the first record of page 1. *)
Theorem incremental_sync_moves_checkpoint (env : Env) (fuel : nat) (w : World)
    (cp : string) (before : list (list ApiUser)) (page_p : list ApiUser)
    (more : bool) (i : nat) (u : ApiUser) (rest : list ApiUser) :
  has_checkpoint w cp ->
  db env (dbCalls w) = DbOk ->
  (forall k us, nth_error before k = Some us ->
     serves env (netCalls w + k) us true /\ us <> []
     /\ findIndex (is_checkpoint cp) us = None) ->
  serves env (netCalls w + List.length before) page_p more ->
  findIndex (is_checkpoint cp) page_p = Some i ->
  hd page_p before = u :: rest ->
  truthy (user_id u) = true ->
  db env (S (dbCalls w) + List.length before + (if (0 <? i)%nat then 1 else 0))
  = DbOk ->
  List.length before < fuel ->
  exists w',
    syncUsers env fuel w = (Ok tt, w')
    /\ option_map value (id_sync_state w') = Some (user_id u)
    /\ checkpoints_written (events_since w w') = [user_id u]
    /\ fetched_pages (events_since w w') = seq 1 (S (List.length before)).
Proof.
  intros Hcp Hdb Hbefore Hp Hi Hhd Htru Hdbu Hfuel.
  destruct (syncUsers_incremental_run env fuel w cp Hcp Hdb)
    as (w1 & Hrun & Ht1 & Hn1 & Hd1 & Hs1 & _).
  destruct (incremental_loop_pass env cp before 1 None 0 w1)
    as (total' & w2 & evs & Hpass & Ht2 & Hup & Hfp & Hn2 & Hd2 & Hs2).
  { intros k us Hk. rewrite Hn1. apply Hbefore. exact Hk. }
  { lia. }
  destruct (fuel_split _ _ Hfuel) as (f & ->).
  assert (Hsv : serves env (netCalls w2) page_p more) by (rewrite Hn2, Hn1; exact Hp).
  destruct (incremental_step_found env cp f (1 + List.length before)
              (first_after 1 None before) total' w2 page_p more i Hsv Hi)
    as (total2 & w3 & Hstep & Ht3 & Hd3 & Hs3 & _).
  assert (Hfirst : (if (1 + List.length before =? 1)%nat
                    then option_map user_id (hd_error page_p)
                    else first_after 1 None before) = Some (user_id u)).
  { destruct before as [|us before']; cbn in Hhd |- *.
    - rewrite Hhd. reflexivity.
    - rewrite Hhd. reflexivity. }
  rewrite Hfirst in Hstep.
  assert (Hinc : fetchIncrementalPages env (List.length before + S f) cp w1
                 = (Ok (user_id u), w3)).
  { apply (fetchIncrementalPages_of_loop _ _ _ _ _ total2); [|exact Htru].
    rewrite Hpass. exact Hstep. }
  destruct (updateCheckpoint_spec env (user_id u) w3) as (w4 & Hupd & Ht4 & Hs4).
  assert (Hok : db_ok env w3 = true).
  { unfold db_ok. rewrite Hd3, Hd2, Hd1. rewrite Hdbu. reflexivity. }
  rewrite Hok in *. exists w4.
  assert (Htr : trace w4
                = trace w ++ ([EvGetCheckpoint] ++ evs
                     ++ (EvFetch (1 + List.length before)
                         :: (if (0 <? i)%nat
                             then [EvUpsertUsers (firstn i page_p)
                                     (db_ok env (after_fetch env (1 + List.length before) w2))]
                             else []))
                     ++ [EvUpdateCheckpoint (user_id u) true])).
  { rewrite Ht4, Ht3, Ht2, Ht1, <- !app_assoc. reflexivity. }
  assert (Hc : checkpoints_written evs = []).
  { destruct (frame_fetchIncrementalPages_loop env cp
                (List.length before + 0) 1 true None 0 w1) as [_ (evs' & He & Hc)].
    rewrite Hpass in He. cbn in He. rewrite Ht2 in He.
    apply app_inv_head in He. subst evs'. exact Hc. }
  split; [|split; [|split]].
  - rewrite Hrun, (bind_ok _ _ _ _ _ Hinc). exact Hupd.
  - rewrite Hs4. reflexivity.
  - rewrite (events_since_app _ _ _ Htr), !checkpoints_written_app, Hc.
    destruct (0 <? i)%nat; reflexivity.
  - rewrite (events_since_app _ _ _ Htr), !fetched_pages_app, Hfp, seq_snoc.
    destruct (0 <? i)%nat; cbn; rewrite ?app_nil_r; reflexivity.
Qed.

Lemma incremental_sync_moves_checkpoint_witness :
  exists w',
    syncUsers env_two_pages 5 (world_with_checkpoint "u2") = (Ok tt, w')
    /\ option_map value (id_sync_state w') = Some "u5"
    /\ checkpoints_written (events_since (world_with_checkpoint "u2") w') = ["u5"]
    /\ fetched_pages (events_since (world_with_checkpoint "u2") w') = [1; 2].
Proof.
  refine (incremental_sync_moves_checkpoint env_two_pages 5
            (world_with_checkpoint "u2") "u2" [[u5; u4]] [u3; u2; u1] true 1
            u5 [u4] _ _ _ _ _ _ _ _ _).
  - split; reflexivity.
  - reflexivity.
  - intros [|[|k]] us H; cbn in H; try discriminate.
    injection H as <-. split; [|split].
    + eexists. split; [reflexivity|]. split; reflexivity.
    + discriminate.
    + reflexivity.
  - eexists. split; [reflexivity|]. split; reflexivity.
  - reflexivity.
  - reflexivity.
  - reflexivity.
  - reflexivity.
  - cbn. lia.
Defined.

(** The steady state: when the stored checkpoint is the user_id at the
    head of page 1, an incremental run fetches page 1 only, hands
    nothing to the store, leaves id_users as it is and writes the same
    checkpoint value again. *)
Theorem incremental_sync_nothing_new (env : Env) (fuel : nat) (w : World)
    (u : ApiUser) (rest : list ApiUser) (more : bool) :
  has_checkpoint w (user_id u) ->
  db env (dbCalls w) = DbOk ->
  serves env (netCalls w) (u :: rest) more ->
  db env (S (dbCalls w)) = DbOk ->
  0 < fuel ->
  exists w',
    syncUsers env fuel w = (Ok tt, w')
    /\ events_since w w'
       = [EvGetCheckpoint; EvFetch 1; EvUpdateCheckpoint (user_id u) true]
    /\ id_users w' = id_users w
    /\ option_map value (id_sync_state w') = Some (user_id u).
Proof.
  intros Hcp Hdb Hsv Hdbu Hfuel.
  destruct (syncUsers_incremental_run env fuel w _ Hcp Hdb)
    as (w1 & Hrun & Ht1 & Hn1 & Hd1 & Hs1 & Hu1).
  destruct fuel as [|f]; [lia|].
  assert (Hsv1 : serves env (netCalls w1) (u :: rest) more) by (rewrite Hn1; exact Hsv).
  assert (Hi : findIndex (is_checkpoint (user_id u)) (u :: rest) = Some 0).
  { cbn. unfold is_checkpoint. rewrite String.eqb_refl. reflexivity. }
  destruct (incremental_step_found env (user_id u) f 1 None 0 w1 _ more 0 Hsv1 Hi)
    as (total2 & w3 & Hstep & Ht3 & Hd3 & Hs3 & Hu3).
  cbn [Nat.eqb hd_error option_map Nat.ltb Nat.leb] in Hstep, Ht3, Hd3.
  assert (Hinc : fetchIncrementalPages env (S f) (user_id u) w1 = (Ok (user_id u), w3)).
  { apply (fetchIncrementalPages_of_loop _ _ _ _ _ total2); [exact Hstep|].
    destruct Hcp; assumption. }
  destruct (updateCheckpoint_spec env (user_id u) w3) as (w4 & Hupd & Ht4 & Hs4).
  pose proof (updateCheckpoint_footprint env (user_id u) w3) as Hfp. cbv zeta in Hfp.
  rewrite Hupd in Hfp. cbn [snd] in Hfp. destruct Hfp as (_ & _ & _ & Hu4 & _).
  assert (Hok : db_ok env w3 = true).
  { unfold db_ok. rewrite Hd3, Hd1, Nat.add_0_r, Hdbu. reflexivity. }
  rewrite Hok in *. exists w4. split; [|split; [|split]].
  - rewrite Hrun, (bind_ok _ _ _ _ _ Hinc). exact Hupd.
  - apply events_since_app. rewrite Ht4, Ht3, Ht1, <- !app_assoc. reflexivity.
  - rewrite Hu4, (Hu3 eq_refl). exact Hu1.
  - rewrite Hs4. reflexivity.
Qed.

Lemma incremental_sync_nothing_new_witness :
  exists w',
    syncUsers (env_of [page_reply [u3; u2] true] [] [] 50) 5
      (world_with_checkpoint "u3")
    = (Ok tt, w')
    /\ events_since (world_with_checkpoint "u3") w'
       = [EvGetCheckpoint; EvFetch 1; EvUpdateCheckpoint "u3" true]
    /\ id_users w' = id_users (world_with_checkpoint "u3")
    /\ option_map value (id_sync_state w') = Some "u3".
Proof.
  refine (incremental_sync_nothing_new
            (env_of [page_reply [u3; u2] true] [] [] 50) 5
            (world_with_checkpoint "u3") u3 [u2] true _ _ _ _ _).
  - split; reflexivity.
  - reflexivity.
  - eexists. split; [reflexivity|]. split; reflexivity.
  - reflexivity.
  - lia.
Defined.

Lemma pass_no_checkpoint_write env cp before w1 w2 evs total' :
  (forall fuel,
     fetchIncrementalPages_loop env (List.length before + fuel) cp 1 true None 0 w1
     = fetchIncrementalPages_loop env fuel cp (1 + List.length before) true
         (first_after 1 None before) total' w2) ->
  trace w2 = trace w1 ++ evs ->
  checkpoints_written evs = [].
Proof.
  intros Hpass Ht2.
  destruct (frame_fetchIncrementalPages_loop env cp
              (List.length before + 0) 1 true None 0 w1) as [_ (evs' & He & Hc)].
  rewrite Hpass in He. cbn in He. rewrite Ht2 in He.
  apply app_inv_head in He. subst evs'. exact Hc.
Qed.

(** An incremental run that meets the checkpoint on no page: every page
    up to the one that announces no next page is upserted whole, and the
    checkpoint moves to the user_id at the head of page 1 all the same. *)
Theorem incremental_sync_checkpoint_absent (env : Env) (fuel : nat) (w : World)
    (cp : string) (before : list (list ApiUser)) (lastp : list ApiUser)
    (u : ApiUser) (rest : list ApiUser) :
  has_checkpoint w cp ->
  db env (dbCalls w) = DbOk ->
  (forall k us, nth_error before k = Some us ->
     serves env (netCalls w + k) us true /\ us <> []
     /\ findIndex (is_checkpoint cp) us = None) ->
  serves env (netCalls w + List.length before) lastp false ->
  lastp <> [] ->
  findIndex (is_checkpoint cp) lastp = None ->
  hd lastp before = u :: rest ->
  truthy (user_id u) = true ->
  db env (S (dbCalls w) + List.length before + 1) = DbOk ->
  List.length before < fuel ->
  exists w',
    syncUsers env fuel w = (Ok tt, w')
    /\ upsert_calls (events_since w w') = before ++ [lastp]
    /\ fetched_pages (events_since w w') = seq 1 (S (List.length before))
    /\ option_map value (id_sync_state w') = Some (user_id u).
Proof.
  intros Hcp Hdb Hbefore Hp Hne Hnone Hhd Htru Hdbu Hfuel.
  destruct (syncUsers_incremental_run env fuel w cp Hcp Hdb)
    as (w1 & Hrun & Ht1 & Hn1 & Hd1 & Hs1 & _).
  destruct (incremental_loop_pass env cp before 1 None 0 w1)
    as (total' & w2 & evs & Hpass & Ht2 & Hup & Hfp & Hn2 & Hd2 & Hs2).
  { intros k us Hk. rewrite Hn1. apply Hbefore. exact Hk. }
  { lia. }
  destruct (fuel_split _ _ Hfuel) as (f & ->).
  assert (Hsv : serves env (netCalls w2) lastp false) by (rewrite Hn2, Hn1; exact Hp).
  destruct (incremental_step_last env cp f (1 + List.length before)
              (first_after 1 None before) total' w2 lastp Hsv Hne Hnone)
    as (total2 & w3 & Hstep & Ht3 & Hd3 & Hs3).
  assert (Hfirst : (if (1 + List.length before =? 1)%nat
                    then option_map user_id (hd_error lastp)
                    else first_after 1 None before) = Some (user_id u)).
  { destruct before as [|us before']; cbn in Hhd |- *; rewrite Hhd; reflexivity. }
  rewrite Hfirst in Hstep.
  assert (Hinc : fetchIncrementalPages env (List.length before + S f) cp w1
                 = (Ok (user_id u), w3)).
  { apply (fetchIncrementalPages_of_loop _ _ _ _ _ total2); [|exact Htru].
    rewrite Hpass. exact Hstep. }
  destruct (updateCheckpoint_spec env (user_id u) w3) as (w4 & Hupd & Ht4 & Hs4).
  assert (Hok : db_ok env w3 = true).
  { unfold db_ok. rewrite Hd3, Hd2, Hd1.
    replace (S (S (dbCalls w) + List.length before))
      with (S (dbCalls w) + List.length before + 1) by lia.
    rewrite Hdbu. reflexivity. }
  rewrite Hok in *. exists w4.
  assert (Htr : trace w4
                = trace w ++ ([EvGetCheckpoint] ++ evs
                     ++ [EvFetch (1 + List.length before);
                         EvUpsertUsers lastp
                           (db_ok env (after_fetch env (1 + List.length before) w2))]
                     ++ [EvUpdateCheckpoint (user_id u) true])).
  { rewrite Ht4, Ht3, Ht2, Ht1, <- !app_assoc. reflexivity. }
  split; [|split; [|split]].
  - rewrite Hrun, (bind_ok _ _ _ _ _ Hinc). exact Hupd.
  - rewrite (events_since_app _ _ _ Htr), !upsert_calls_app, Hup. reflexivity.
  - rewrite (events_since_app _ _ _ Htr), !fetched_pages_app, Hfp, seq_snoc.
    reflexivity.
  - rewrite Hs4. reflexivity.
Qed.

Lemma incremental_sync_checkpoint_absent_witness :
  exists w',
    syncUsers (env_of [page_reply [u5; u4] true; page_reply [u3] false] [] [] 50)
      5 (world_with_checkpoint "u0")
    = (Ok tt, w')
    /\ upsert_calls (events_since (world_with_checkpoint "u0") w')
       = [[u5; u4]; [u3]]
    /\ fetched_pages (events_since (world_with_checkpoint "u0") w') = [1; 2]
    /\ option_map value (id_sync_state w') = Some "u5".
Proof.
  refine (incremental_sync_checkpoint_absent
            (env_of [page_reply [u5; u4] true; page_reply [u3] false] [] [] 50)
            5 (world_with_checkpoint "u0") "u0" [[u5; u4]] [u3] u5 [u4]
            _ _ _ _ _ _ _ _ _ _).
  - split; reflexivity.
  - reflexivity.
  - intros [|[|k]] us H; cbn in H; try discriminate.
    injection H as <-. split; [|split].
    + eexists. split; [reflexivity|]. split; reflexivity.
    + discriminate.
    + reflexivity.
  - eexists. split; [reflexivity|]. split; reflexivity.
  - discriminate.
  - reflexivity.
  - reflexivity.
  - reflexivity.
  - reflexivity.
  - cbn. lia.
Defined.

(** An empty page ends the loop of an incremental run even when it
    announces a next page: no later page is fetched, the pages before it
    have been upserted, and the checkpoint moves to the head of page 1. *)
Theorem incremental_sync_stops_at_empty_page (env : Env) (fuel : nat)
    (w : World) (cp : string) (before : list (list ApiUser)) (more : bool)
    (u : ApiUser) (rest : list ApiUser) :
  has_checkpoint w cp ->
  db env (dbCalls w) = DbOk ->
  (forall k us, nth_error before k = Some us ->
     serves env (netCalls w + k) us true /\ us <> []
     /\ findIndex (is_checkpoint cp) us = None) ->
  serves env (netCalls w + List.length before) [] more ->
  hd [] before = u :: rest ->
  truthy (user_id u) = true ->
  db env (S (dbCalls w) + List.length before) = DbOk ->
  List.length before < fuel ->
  exists w',
    syncUsers env fuel w = (Ok tt, w')
    /\ upsert_calls (events_since w w') = before
    /\ fetched_pages (events_since w w') = seq 1 (S (List.length before))
    /\ option_map value (id_sync_state w') = Some (user_id u).
Proof.
  intros Hcp Hdb Hbefore Hp Hhd Htru Hdbu Hfuel.
  destruct (syncUsers_incremental_run env fuel w cp Hcp Hdb)
    as (w1 & Hrun & Ht1 & Hn1 & Hd1 & Hs1 & _).
  destruct (incremental_loop_pass env cp before 1 None 0 w1)
    as (total' & w2 & evs & Hpass & Ht2 & Hup & Hfp & Hn2 & Hd2 & Hs2).
  { intros k us Hk. rewrite Hn1. apply Hbefore. exact Hk. }
  { lia. }
  destruct (fuel_split _ _ Hfuel) as (f & ->).
  assert (Hsv : serves env (netCalls w2) [] more) by (rewrite Hn2, Hn1; exact Hp).
  pose proof (incremental_step_empty env cp f (1 + List.length before)
                (first_after 1 None before) total' w2 more Hsv) as Hstep.
  pose proof (after_fetch_spec env (1 + List.length before) w2) as Hw. cbv zeta in Hw.
  destruct Hw as (Ht3 & _ & Hd3 & _ & Hs3 & _).
  set (w3 := after_fetch env (1 + List.length before) w2) in *.
  assert (Hfirst : first_after 1 None before = Some (user_id u)).
  { destruct before as [|us before']; cbn in Hhd |- *; [discriminate|].
    rewrite Hhd. reflexivity. }
  assert (Hinc : fetchIncrementalPages env (List.length before + S f) cp w1
                 = (Ok (user_id u), w3)).
  { apply (fetchIncrementalPages_of_loop _ _ _ _ _ total'); [|exact Htru].
    rewrite Hpass, Hstep, Hfirst. reflexivity. }
  destruct (updateCheckpoint_spec env (user_id u) w3) as (w4 & Hupd & Ht4 & Hs4).
  assert (Hok : db_ok env w3 = true).
  { unfold db_ok. rewrite Hd3, Hd2, Hd1, Hdbu. reflexivity. }
  rewrite Hok in *. exists w4.
  assert (Htr : trace w4
                = trace w ++ ([EvGetCheckpoint] ++ evs
                     ++ [EvFetch (1 + List.length before)]
                     ++ [EvUpdateCheckpoint (user_id u) true])).
  { rewrite Ht4, Ht3, Ht2, Ht1, <- !app_assoc. reflexivity. }
  split; [|split; [|split]].
  - rewrite Hrun, (bind_ok _ _ _ _ _ Hinc). exact Hupd.
  - rewrite (events_since_app _ _ _ Htr), !upsert_calls_app, Hup. cbn.
    apply app_nil_r.
  - rewrite (events_since_app _ _ _ Htr), !fetched_pages_app, Hfp, seq_snoc.
    reflexivity.
  - rewrite Hs4. reflexivity.
Qed.

Lemma incremental_sync_stops_at_empty_page_witness :
  exists w',
    syncUsers (env_of [page_reply [u5; u4] true; page_reply [] true;
                       page_reply [u3] false] [] [] 50)
      5 (world_with_checkpoint "u0")
    = (Ok tt, w')
    /\ upsert_calls (events_since (world_with_checkpoint "u0") w') = [[u5; u4]]
    /\ fetched_pages (events_since (world_with_checkpoint "u0") w') = [1; 2]
    /\ option_map value (id_sync_state w') = Some "u5".
Proof.
  refine (incremental_sync_stops_at_empty_page
            (env_of [page_reply [u5; u4] true; page_reply [] true;
                     page_reply [u3] false] [] [] 50)
            5 (world_with_checkpoint "u0") "u0" [[u5; u4]] true u5 [u4]
            _ _ _ _ _ _ _ _).
  - split; reflexivity.
  - reflexivity.
  - intros [|[|k]] us H; cbn in H; try discriminate.
    injection H as <-. split; [|split].
    + eexists. split; [reflexivity|]. split; reflexivity.
    + discriminate.
    + reflexivity.
  - eexists. split; [reflexivity|]. split; reflexivity.
  - reflexivity.
  - reflexivity.
  - reflexivity.
  - cbn. lia.
Defined.

(** An incremental run that finds page 1 empty fetches page 1 once more.
    When that page is empty as well, the run throws 'Could not determine
    checkpoint' with nothing upserted and the checkpoint as it was; when
    it holds users, none of them is handed to the store, yet the
    checkpoint moves to the user_id of the first of them. *)
Theorem incremental_sync_empty_first_page (env : Env) (fuel : nat) (w : World)
    (cp : string) (more : bool) (again : list ApiUser) (more' : bool) :
  has_checkpoint w cp ->
  db env (dbCalls w) = DbOk ->
  serves env (netCalls w) [] more ->
  serves env (S (netCalls w)) again more' ->
  db env (S (dbCalls w)) = DbOk ->
  0 < fuel ->
  exists r w',
    syncUsers env fuel w = (r, w')
    /\ fetched_pages (events_since w w') = [1; 1]
    /\ upsert_calls (events_since w w') = []
    /\ id_users w' = id_users w
    /\ match again with
       | [] => r = Throw CheckpointUndetermined
               /\ id_sync_state w' = id_sync_state w
       | u :: _ =>
           truthy (user_id u) = true ->
           r = Ok tt /\ option_map value (id_sync_state w') = Some (user_id u)
       end.
Proof.
  intros Hcp Hdb Hsv Hsv2 Hdbu Hfuel.
  destruct (syncUsers_incremental_run env fuel w cp Hcp Hdb)
    as (w1 & Hrun & Ht1 & Hn1 & Hd1 & Hs1 & Hu1).
  destruct fuel as [|f]; [lia|].
  assert (Hsv1 : serves env (netCalls w1) [] more) by (rewrite Hn1; exact Hsv).
  pose proof (incremental_step_empty env cp f 1 None 0 w1 more Hsv1) as Hstep.
  pose proof (after_fetch_spec env 1 w1) as Hw. cbv zeta in Hw.
  destruct Hw as (Ht2 & Hn2 & Hd2 & _ & Hs2 & Hu2).
  set (w2 := after_fetch env 1 w1) in *.
  assert (Hsv3 : serves env (netCalls w2) again more') by (rewrite Hn2, Hn1; exact Hsv2).
  destruct (serves_fetch env 1 w2 _ _ Hsv3) as (d & Hf & Hud & _).
  pose proof (after_fetch_spec env 1 w2) as Hw. cbv zeta in Hw.
  destruct Hw as (Ht3 & _ & Hd3 & _ & Hs3 & Hu3).
  set (w3 := after_fetch env 1 w2) in *.
  assert (Htr3 : trace w3 = trace w ++ [EvGetCheckpoint; EvFetch 1; EvFetch 1]).
  { rewrite Ht3, Ht2, Ht1, <- !app_assoc. reflexivity. }
  assert (Hrefetch :
            try_catch
              (d <- fetchUsersPage env 1 ;;
               match d with
               | None => throw TypeError
               | Some d =>
                   if (0 <? List.length (users_or_empty d))%nat
                   then ret (option_map user_id (hd_error (users_or_empty d)))
                   else ret None
               end)
              (fun error => throw error) w2
            = (Ok (option_map user_id (hd_error again)), w3)).
  { rewrite try_rethrow, (bind_ok _ _ _ _ _ Hf). cbv beta iota.
    rewrite Hud. destruct again; reflexivity. }
  assert (Hinc : fetchIncrementalPages env (S f) cp w1
                 = match option_map user_id (hd_error again) with
                   | Some id => if truthy id then (Ok id, w3)
                                else (Throw CheckpointUndetermined, w3)
                   | None => (Throw CheckpointUndetermined, w3)
                   end).
  { unfold fetchIncrementalPages. rewrite (bind_ok _ _ _ _ _ Hstep).
    cbn [fst truthy_opt negb]. cbv zeta. rewrite (bind_ok _ _ _ _ _ Hrefetch).
    destruct (option_map user_id (hd_error again)) as [id|]; [|reflexivity].
    destruct (truthy id); reflexivity. }
  destruct again as [|u rest']; cbn [hd_error option_map] in Hinc.
  - exists (Throw CheckpointUndetermined), w3.
    split; [|rewrite (events_since_app _ _ _ Htr3); repeat split; congruence].
    rewrite Hrun. apply bind_throw. exact Hinc.
  - destruct (truthy (user_id u)) eqn:Etr.
    + destruct (updateCheckpoint_spec env (user_id u) w3) as (w4 & Hupd & Ht4 & Hs4).
      pose proof (updateCheckpoint_footprint env (user_id u) w3) as Hfp.
      cbv zeta in Hfp. rewrite Hupd in Hfp. cbn [snd] in Hfp.
      destruct Hfp as (_ & _ & _ & Hu4 & _).
      assert (Hok : db_ok env w3 = true).
      { unfold db_ok. rewrite Hd3, Hd2, Hd1, Hdbu. reflexivity. }
      rewrite Hok in *. exists (Ok tt), w4.
      assert (Htr4 : trace w4 = trace w ++ [EvGetCheckpoint; EvFetch 1; EvFetch 1;
                                            EvUpdateCheckpoint (user_id u) true]).
      { rewrite Ht4, Htr3, <- !app_assoc. reflexivity. }
      split; [rewrite Hrun, (bind_ok _ _ _ _ _ Hinc); exact Hupd|].
      rewrite (events_since_app _ _ _ Htr4). repeat split; try congruence.
      rewrite Hs4. reflexivity.
    + exists (Throw CheckpointUndetermined), w3.
      split; [rewrite Hrun; apply bind_throw; exact Hinc|].
      rewrite (events_since_app _ _ _ Htr3). repeat split; congruence.
Qed.

Lemma incremental_sync_empty_first_page_witness :
  exists r w',
    syncUsers (env_of [page_reply [] false; page_reply [u2; u1] false] [] [] 50)
      5 (world_with_checkpoint "u0")
    = (r, w')
    /\ fetched_pages (events_since (world_with_checkpoint "u0") w') = [1; 1]
    /\ upsert_calls (events_since (world_with_checkpoint "u0") w') = []
    /\ id_users w' = id_users (world_with_checkpoint "u0")
    /\ (truthy (user_id u2) = true ->
        r = Ok tt /\ option_map value (id_sync_state w') = Some (user_id u2)).
Proof.
  refine (incremental_sync_empty_first_page
            (env_of [page_reply [] false; page_reply [u2; u1] false] [] [] 50)
            5 (world_with_checkpoint "u0") "u0" false [u2; u1] false
            _ _ _ _ _ _).
  - split; reflexivity.
  - reflexivity.
  - eexists. split; [reflexivity|]. split; reflexivity.
  - eexists. split; [reflexivity|]. split; reflexivity.
  - reflexivity.
  - lia.
Defined.

(** ** Full syncs that end early *)




(** A full sync (no checkpoint; in the first run the store answers
    PGRST116 for the missing row) whose second fetch of page 1 comes
    empty throws 'Page 1 is empty' after the bulk upsert was made: the
    records have gone to the store, no checkpoint is written, and the
    next run, whenever the store answers its read, finds no checkpoint
    and is a full sync again. *)
Theorem full_sync_page1_empty (env : Env) (fuel : nat) (w : World)
    (pages : list (list ApiUser)) (lastp : list ApiUser) (more : bool) :
  no_checkpoint w ->
  read_answered env w ->
  (forall k us, nth_error pages k = Some us ->
     serves env (netCalls w + k) us true) ->
  serves env (netCalls w + List.length pages) lastp false ->
  List.concat pages ++ lastp <> [] ->
  serves env (netCalls w + S (List.length pages)) [] more ->
  List.length pages < fuel ->
  exists w',
    syncUsers env fuel w = (Throw Page1Empty, w')
    /\ upsert_calls (events_since w w') = [List.concat pages ++ lastp]
    /\ checkpoints_written (events_since w w') = []
    /\ id_sync_state w' = id_sync_state w
    /\ no_checkpoint w'
    /\ (forall env' fuel',
          read_answered env' w' ->
          fst (getCheckpoint env' w') = Ok None
          /\ syncUsers env' fuel' w'
             = syncUsers_full env' fuel' (snd (getCheckpoint env' w'))).
Proof.
  intros Hno Hdb Hpages Hlast Hne Hre Hfuel.
  destruct (getCheckpoint_none env w Hno Hdb) as (w1 & Hg & Ht1 & Hn1 & Hd1 & Hs1 & Hu1).
  destruct (fetchAllPages_loop_run env pages fuel [] 1 w1 lastp)
    as (w2 & Hrun & Ht2 & Hn2 & Hd2 & Hs2 & Hu2).
  { intros k us Hk. rewrite Hn1. apply Hpages. exact Hk. }
  { rewrite Hn1. exact Hlast. }
  { exact Hfuel. }
  cbn [app] in Hrun.
  destruct (insertUsers_spec env _ w2 Hne) as (w3 & Hins & Ht3 & Hn3 & Hd3 & Hs3 & _).
  assert (Hsv : serves env (netCalls w3) [] more).
  { rewrite Hn3, Hn2, Hn1. exact Hre. }
  destruct (serves_fetch env 1 w3 _ _ Hsv) as (d & Hf & Hud & _).
  pose proof (after_fetch_spec env 1 w3) as Hw. cbv zeta in Hw.
  destruct Hw as (Ht4 & _ & _ & _ & Hs4 & _).
  exists (after_fetch env 1 w3).
  assert (Htr : trace (after_fetch env 1 w3)
                = trace w ++ ([EvGetCheckpoint]
                     ++ map EvFetch (seq 1 (S (List.length pages)))
                     ++ [EvUpsertUsers (List.concat pages ++ lastp) (db_ok env w2);
                         EvFetch 1])).
  { rewrite Ht4, Ht3, Ht2, Ht1, <- !app_assoc. reflexivity. }
  assert (Hnf : forall l, upsert_calls (map EvFetch l) = []
                          /\ checkpoints_written (map EvFetch l) = []).
  { induction l; cbn; auto. }
  assert (Hst : id_sync_state (after_fetch env 1 w3) = id_sync_state w) by congruence.
  assert (Hno' : no_checkpoint (after_fetch env 1 w3)).
  { unfold no_checkpoint in *. rewrite Hst. exact Hno. }
  split; [|split; [|split; [|split; [|split]]]].
  - unfold syncUsers. rewrite try_rethrow, (bind_ok _ _ _ _ _ Hg).
    unfold syncUsers_full, fetchAllPages.
    rewrite (bind_ok _ _ _ _ _ Hrun).
    destruct (length_pos_nonempty _ Hne) as [_ Hpos]. rewrite Hpos.
    rewrite (bind_ok _ _ _ _ _ Hins), (bind_ok _ _ _ _ _ Hf), Hud. reflexivity.
  - rewrite (events_since_app _ _ _ Htr), !upsert_calls_app.
    rewrite (proj1 (Hnf _)). reflexivity.
  - rewrite (events_since_app _ _ _ Htr), !checkpoints_written_app.
    rewrite (proj2 (Hnf _)). reflexivity.
  - exact Hst.
  - exact Hno'.
  - intros env' fuel' Hread. apply syncUsers_without_checkpoint; assumption.
Qed.

Lemma full_sync_page1_empty_witness :
  exists w',
    syncUsers (env_of [page_reply [u3; u2] true; page_reply [u1] false;
                       page_reply [] false] [DbError "PGRST116"] [] 50) 5 world0
    = (Throw Page1Empty, w')
    /\ upsert_calls (events_since world0 w') = [[u3; u2; u1]]
    /\ checkpoints_written (events_since world0 w') = []
    /\ id_sync_state w' = id_sync_state world0
    /\ no_checkpoint w'
    /\ (forall env' fuel',
          read_answered env' w' ->
          fst (getCheckpoint env' w') = Ok None
          /\ syncUsers env' fuel' w'
             = syncUsers_full env' fuel' (snd (getCheckpoint env' w'))).
Proof.
  refine (full_sync_page1_empty
            (env_of [page_reply [u3; u2] true; page_reply [u1] false;
                     page_reply [] false] [DbError "PGRST116"] [] 50) 5 world0
            [[u3; u2]] [u1] false _ _ _ _ _ _ _).
  - reflexivity.
  - right. reflexivity.
  - intros [|[|k]] us H; cbn in H; try discriminate.
    injection H as <-. eexists. split; [reflexivity|]. split; reflexivity.
  - eexists. split; [reflexivity|]. split; reflexivity.
  - discriminate.
  - eexists. split; [reflexivity|]. split; reflexivity.
  - cbn. lia.
Defined.

(** ** What a whole sync run does to id_users *)

Lemma table_extends_refl w : table_extends w w.
Proof. exists []. rewrite app_nil_r. auto. Qed.

Lemma table_extends_trans w1 w2 w3 :
  table_extends w1 w2 -> table_extends w2 w3 -> table_extends w1 w3.
Proof.
  intros (a1 & H1 & F1) (a2 & H2 & F2). exists (a1 ++ a2).
  rewrite H2, H1, app_assoc. split; [reflexivity|]. apply Forall_app. auto.
Qed.

Lemma table_extends_same w w' : id_users w' = id_users w -> table_extends w w'.
Proof. intros H. exists []. rewrite app_nil_r. auto. Qed.

Lemma table_extends_insertUsers env users :
  preserves table_extends (insertUsers env users).
Proof.
  intros w. destruct (insertUsers_added env users w) as (added & Heq & Hall).
  exists added. split; [exact Heq|].
  eapply Forall_impl; [|exact Hall]. cbn beta.
  intros r [(u & _ & ->) _]. repeat split.
Qed.

Lemma keeps_unique_ids_same w w' :
  id_users w' = id_users w -> keeps_unique_ids w w'.
Proof. intros H Hu. rewrite H. exact Hu. Qed.

(** A run of syncUsers, however it ends, never modifies or removes a row
    of id_users: the table afterwards is the table before followed by
    new rows, all of them with the five enrichment columns null; and
    user_id stays unique. *)
Theorem sync_run_keeps_stored_rows (env : Env) (fuel : nat) (w : World) :
  let w' := snd (syncUsers env fuel w) in
  (exists added,
     id_users w' = id_users w ++ added /\ Forall unenriched added)
  /\ (unique_ids (id_users w) -> unique_ids (id_users w')).
Proof.
  cbv zeta. split.
  - apply (preserves_syncUsers table_extends table_extends_refl table_extends_trans).
    + intros page w0. apply table_extends_same.
      pose proof (after_fetch_spec env page w0) as H. cbv zeta in H.
      unfold after_fetch in H. tauto.
    + apply table_extends_insertUsers.
    + intros w0. apply table_extends_same.
      pose proof (getCheckpoint_footprint env w0) as H. cbv zeta in H. tauto.
    + intros v w0. apply table_extends_same.
      pose proof (updateCheckpoint_footprint env v w0) as H. cbv zeta in H. tauto.
  - apply (preserves_syncUsers keeps_unique_ids).
    + intros w0 H. exact H.
    + unfold keeps_unique_ids. auto.
    + intros page w0. apply keeps_unique_ids_same.
      pose proof (after_fetch_spec env page w0) as H. cbv zeta in H.
      unfold after_fetch in H. tauto.
    + intros us w0 H. apply insertUsers_unique. exact H.
    + intros w0. apply keeps_unique_ids_same.
      pose proof (getCheckpoint_footprint env w0) as H. cbv zeta in H. tauto.
    + intros v w0. apply keeps_unique_ids_same.
      pose proof (updateCheckpoint_footprint env v w0) as H. cbv zeta in H. tauto.
Qed.

Lemma shift_expired_drops_only_expired_witness :
  Forall (fun t => 20000 - t < RATE_LIMIT_WINDOW_MS)%Z
    (shift_expired 20000 [1000; 15000]%Z).
Proof.
  apply (proj2 (shift_expired_drops_only_expired 20000 [1000; 15000]%Z)).
  repeat (constructor; try lia).
Defined.

Lemma sync_run_keeps_stored_rows_witness :
  unique_ids
    (id_users (snd (syncUsers env_two_pages 5 (world_with_checkpoint "u2")))).
Proof.
  apply (proj2 (sync_run_keeps_stored_rows env_two_pages 5
                  (world_with_checkpoint "u2"))).
  constructor.
Defined.

(** ** What a whole enrichment run does to id_users *)

Lemma row_le_refl r : row_le r r.
Proof. split; auto. Qed.

Lemma row_le_trans r1 r2 r3 : row_le r1 r2 -> row_le r2 r3 -> row_le r1 r3.
Proof.
  intros [Hb1 Hc1] [Hb2 Hc2]. split; [congruence|].
  intros c Hc. rewrite <- (Hc1 c Hc). apply Hc2. rewrite (Hc1 c Hc). exact Hc.
Qed.

Lemma rows_grow_refl w : rows_grow w w.
Proof.
  unfold rows_grow. induction (id_users w); constructor; auto using row_le_refl.
Qed.

Lemma Forall2_trans {A} (R : A -> A -> Prop) :
  (forall a b c, R a b -> R b c -> R a c) ->
  forall l1 l2 l3, Forall2 R l1 l2 -> Forall2 R l2 l3 -> Forall2 R l1 l3.
Proof.
  intros HR l1 l2 l3 H12. revert l3.
  induction H12; intros l3 H23; inversion H23; subst; constructor; eauto.
Qed.

Lemma rows_grow_trans w1 w2 w3 :
  rows_grow w1 w2 -> rows_grow w2 w3 -> rows_grow w1 w3.
Proof. apply Forall2_trans, row_le_trans. Qed.

Lemma rows_grow_same w w' : id_users w' = id_users w -> rows_grow w w'.
Proof. intros H. unfold rows_grow. rewrite H. apply rows_grow_refl. Qed.

Lemma Forall2_map_r {A} (R : A -> A -> Prop) (f : A -> A) l :
  (forall a, In a l -> R a (f a)) -> Forall2 R l (map f l).
Proof.
  induction l as [|a l IH]; intros H; cbn; constructor.
  - apply H. left. reflexivity.
  - apply IH. intros b Hb. apply H. right. exact Hb.
Qed.

Lemma row_le_update loc cur :
  row_le cur (apply_updates (final_updates (build_updates loc) cur) cur).
Proof.
  split; [reflexivity|]. intros c Hc. rewrite column_after_update.
  unfold keep_if_unset. rewrite Hc, andb_false_r. reflexivity.
Qed.

Lemma rows_grow_enrichUser env userId g :
  preserves rows_grow (enrichUser env userId g).
Proof.
  intros w.
  destruct (enrichUser_spec env userId g w) as (b & w' & Hrun & _ & Htab).
  rewrite Hrun. cbn [snd].
  destruct Htab as [Heq|(loc & cur & _ & Hrows & Heq)];
    [apply rows_grow_same; exact Heq|].
  unfold rows_grow. rewrite Heq. unfold update_where.
  apply Forall2_map_r. intros r Hin.
  destruct (row_user_id r =? userId) eqn:Eid; [|apply row_le_refl].
  rewrite (rows_of_single _ _ _ _ Hrows Hin Eid). apply row_le_update.
Qed.

Lemma getUsersNeedingEnrichment_table env B off w :
  id_users (snd (getUsersNeedingEnrichment env B off w)) = id_users w.
Proof.
  unfold getUsersNeedingEnrichment.
  unfold try_catch, bind, db_call, gets, modify, throw, ret.
  destruct (db env (dbCalls w)); reflexivity.
Qed.

Lemma fetchGeolocationData_table env ip w :
  id_users (snd (fetchGeolocationData env ip w)) = id_users w.
Proof.
  destruct (fetchGeolocationData_spec env ip w) as (g & w' & Hr & _ & Hu).
  rewrite Hr. exact Hu.
Qed.

(** First writer wins over a whole run of enrichUsers, however it ends:
    the table keeps its rows in their places, each with its user_id,
    email, ip_address and the other sync columns unchanged, and every
    enrichment column that held a non-empty string still holds it. *)
Theorem enrichment_run_keeps_filled_columns (env : Env) (fuel : nat)
    (w : World) :
  Forall2 row_le (id_users w) (id_users (snd (enrichUsers env fuel w))).
Proof.
  apply (preserves_enrichUsers rows_grow rows_grow_refl rows_grow_trans).
  - intros B off w0. apply rows_grow_same, getUsersNeedingEnrichment_table.
  - intros ip w0. apply rows_grow_same, fetchGeolocationData_table.
  - apply rows_grow_enrichUser.
  - intros ms w0. apply rows_grow_same. reflexivity.
Qed.

(** ** enrichUser, call by call *)

(** enrichUser returns false without a write, or true after one update
    of the rows of [userId] that the store accepted. *)
Lemma enrichUser_result env userId g w :
  exists b w' evs,
    enrichUser env userId g w = (Ok b, w')
    /\ trace w' = trace w ++ evs
    /\ (forallb enrichment_event evs = true /\ geo_lookups evs = [])
    /\ id_sync_state w' = id_sync_state w
    /\ apiCallTimestamps w' = apiCallTimestamps w
    /\ netCalls w' = netCalls w
    /\ ((b = false /\ id_users w' = id_users w /\ updates_written evs = [])
        \/ (b = true
            /\ exists loc cur,
                 option_map location g = Some (Some loc)
                 /\ rows_of userId (id_users w) = [cur]
                 /\ no_keys (final_updates (build_updates loc) cur) = false
                 /\ id_users w'
                    = update_where userId
                        (final_updates (build_updates loc) cur) (id_users w)
                 /\ updates_written evs
                    = [(userId, final_updates (build_updates loc) cur)])).
Proof.
  unfold enrichUser. destruct g as [g|].
  2:{ exists false, w, []. rewrite app_nil_r. repeat split; auto. }
  destruct (location g) as [loc|] eqn:Eloc.
  2:{ exists false, w, []. rewrite app_nil_r. repeat split; auto. }
  unfold try_catch. destruct (no_keys (build_updates loc)).
  { exists false, w, []. rewrite app_nil_r. repeat split; auto. }
  unfold select_single, bind, modify, db_call, gets, throw, ret.
  cbn -[no_keys final_updates build_updates update_where filter].
  fold (rows_of userId (id_users w)).
  destruct (db env (dbCalls w)) as [|code].
  2:{ do 2 eexists. exists [EvReadUser userId]. repeat split; auto. }
  destruct (rows_of userId (id_users w)) as [|cur [|r2 rs]] eqn:Erows.
  { do 2 eexists. exists [EvReadUser userId]. repeat split; auto. }
  2:{ do 2 eexists. exists [EvReadUser userId]. repeat split; auto. }
  destruct (no_keys (final_updates (build_updates loc) cur)) eqn:Ek.
  { do 2 eexists. exists [EvReadUser userId]. repeat split; auto. }
  cbn -[no_keys final_updates build_updates update_where filter].
  destruct (db env (S (dbCalls w))) as [|code];
    cbn -[no_keys final_updates build_updates update_where filter].
  - do 2 eexists.
    exists [EvReadUser userId;
            EvUpdateUser userId (final_updates (build_updates loc) cur) true].
    split; [reflexivity|]. split; [cbn; rewrite <- app_assoc; reflexivity|].
    repeat split; auto. right. split; [reflexivity|].
    exists loc, cur. cbn [option_map]. rewrite Eloc. repeat split; auto.
  - do 2 eexists.
    exists [EvReadUser userId;
            EvUpdateUser userId (final_updates (build_updates loc) cur) false].
    split; [reflexivity|]. split; [cbn; rewrite <- app_assoc; reflexivity|].
    repeat split; auto.
Qed.

Lemma Forall2_same {A} (R : A -> A -> Prop) l :
  (forall a, R a a) -> Forall2 R l l.
Proof. intros H. induction l; constructor; auto. Qed.

(** enrichUser never throws, and all it can change in id_users are the
    five enrichment columns of the rows of the user it was called for:
    every row keeps its place and its other columns, and the rows of
    other users are exactly as before. *)
Theorem enrichUser_touches_one_user (env : Env) (userId : string)
    (g : option GeoData) (w : World) :
  let r := enrichUser env userId g w in
  (exists b, fst r = Ok b)
  /\ Forall2 (fun r0 r1 =>
                base_fields r1 = base_fields r0
                /\ (row_user_id r0 <> userId -> r1 = r0))
       (id_users w) (id_users (snd r))
  /\ id_sync_state (snd r) = id_sync_state w.
Proof.
  cbv zeta.
  destruct (enrichUser_result env userId g w)
    as (b & w' & evs & Hrun & _ & _ & Hs & _ & _ & Hcase).
  rewrite Hrun. cbn [fst snd]. split; [eauto|]. split; [|exact Hs].
  destruct Hcase as [(_ & Heq & _)|(_ & loc & cur & _ & _ & _ & Heq & _)];
    rewrite Heq.
  - apply Forall2_same. auto.
  - unfold update_where. apply Forall2_map_r. intros r Hin.
    destruct (row_user_id r =? userId) eqn:Eid.
    + split; [reflexivity|]. intros Hne. apply String.eqb_eq in Eid. contradiction.
    + auto.
Qed.

Lemma truthy_after_update c loc cur :
  truthy_opt (candidate c loc) = true ->
  truthy_opt (column c (apply_updates (final_updates (build_updates loc) cur) cur))
  = true.
Proof.
  intros Hc. rewrite column_after_update. unfold keep_if_unset, or_null.
  rewrite Hc. cbn [truthy_opt]. rewrite Hc. cbn [andb].
  destruct (truthy_opt (column c cur)) eqn:E; cbn [negb set_col]; [exact E|].
  destruct (candidate c loc); [exact Hc|discriminate].
Qed.

(** When enrichUser returns false the table is as it was.  When it
    returns true, the response had a location, and in every row of that
    user each column for which the location gives a non-empty string now
    holds a non-empty string. *)
Theorem enrichUser_true_fills_columns (env : Env) (userId : string)
    (g : option GeoData) (w : World) :
  let r := enrichUser env userId g w in
  match fst r with
  | Ok false => id_users (snd r) = id_users w
  | Ok true =>
      exists loc,
        option_map location g = Some (Some loc)
        /\ forall row c,
             In row (id_users (snd r)) -> row_user_id row = userId ->
             truthy_opt (candidate c loc) = true ->
             truthy_opt (column c row) = true
  | _ => False
  end.
Proof.
  cbv zeta.
  destruct (enrichUser_result env userId g w)
    as (b & w' & evs & Hrun & _ & _ & _ & _ & _ & Hcase).
  rewrite Hrun. cbn [fst snd].
  destruct Hcase as [(-> & Heq & _)|(-> & loc & cur & Hloc & Hrows & _ & Heq & _)].
  - exact Heq.
  - exists loc. split; [exact Hloc|]. intros row c Hin Hid Hc.
    rewrite Heq in Hin. unfold update_where in Hin.
    apply in_map_iff in Hin. destruct Hin as (r0 & Hr0 & Hin0).
    destruct (row_user_id r0 =? userId) eqn:Eid.
    + rewrite (rows_of_single _ _ _ _ Hrows Hin0 Eid) in Hr0. subst row.
      apply truthy_after_update. exact Hc.
    + subst row. apply String.eqb_neq in Eid. contradiction.
Qed.

Lemma keep_if_unset_after cand x :
  keep_if_unset cand (set_col (keep_if_unset cand x) x) = None.
Proof.
  unfold keep_if_unset.
  destruct (truthy_opt cand) eqn:Ec; cbn [andb]; [|reflexivity].
  destruct (truthy_opt x) eqn:Ex; cbn [negb set_col].
  - rewrite Ex. reflexivity.
  - destruct cand; [|discriminate]. cbn [set_col]. rewrite Ec. reflexivity.
Qed.

Lemma final_updates_after loc cur :
  no_keys (final_updates (build_updates loc)
             (apply_updates (final_updates (build_updates loc) cur) cur))
  = true.
Proof.
  unfold no_keys, final_updates, apply_updates.
  cbn [up_country_name_official up_state up_city up_district up_country_code
       country_name_official state city district country_code].
  rewrite !keep_if_unset_after. reflexivity.
Qed.

Lemma rows_of_update_where userId u table :
  rows_of userId (update_where userId u table)
  = map (apply_updates u) (rows_of userId table).
Proof.
  unfold rows_of, update_where.
  induction table as [|r table IH]; cbn [map filter]; [reflexivity|].
  destruct (row_user_id r =? userId) eqn:E.
  - cbn [apply_updates row_user_id]. rewrite E. cbn [map]. rewrite IH. reflexivity.
  - rewrite E. exact IH.
Qed.

(** Enriching a user a second time with the same response is a no-op:
    after a call that returned true, a further call with the same
    geolocation data, whenever it is made and whatever the store then
    answers, returns false and leaves the table as it is. *)
Theorem enrichUser_again_changes_nothing (env env' : Env) (userId : string)
    (g : option GeoData) (w w2 : World) :
  fst (enrichUser env userId g w) = Ok true ->
  id_users w2 = id_users (snd (enrichUser env userId g w)) ->
  fst (enrichUser env' userId g w2) = Ok false
  /\ id_users (snd (enrichUser env' userId g w2)) = id_users w2.
Proof.
  intros Htrue Hsame.
  destruct (enrichUser_result env userId g w)
    as (b & w' & evs & Hrun & _ & _ & _ & _ & _ & Hcase).
  rewrite Hrun in Htrue, Hsame. cbn [fst snd] in Htrue, Hsame.
  injection Htrue as ->.
  destruct Hcase as [(Hb & _)|(_ & loc & cur & Hloc & Hrows & _ & Heq & _)];
    [discriminate|].
  destruct (enrichUser_result env' userId g w2)
    as (b2 & w3 & evs2 & Hrun2 & _ & _ & _ & _ & _ & Hcase2).
  rewrite Hrun2. cbn [fst snd].
  destruct Hcase2 as [(-> & Heq2 & _)|(_ & loc2 & cur2 & Hloc2 & Hrows2 & Hk2 & _)];
    [auto|].
  exfalso.
  assert (loc2 = loc) by congruence. subst loc2.
  rewrite Hsame, Heq, rows_of_update_where, Hrows in Hrows2.
  cbn [map] in Hrows2. injection Hrows2 as <-.
  rewrite final_updates_after in Hk2. discriminate.
Qed.

Lemma enrichUser_again_changes_nothing_witness :
  fst (enrichUser (env_of [] [] [] 50) "u1" (Some (geo_state "NY"))
         (snd (enrichUser (env_of [] [] [] 50) "u1" (Some (geo_state "NY"))
                 (world_with_rows [row_with_state "u1" None]))))
  = Ok false.
Proof.
  refine (proj1 (enrichUser_again_changes_nothing (env_of [] [] [] 50)
                   (env_of [] [] [] 50) "u1" (Some (geo_state "NY"))
                   (world_with_rows [row_with_state "u1" None]) _ _ _)).
  - reflexivity.
  - reflexivity.
Defined.

(** ** The footprint and the counts of an enrichment run *)

Lemma only_events_refl ok w : only_events ok w w.
Proof. exists []. rewrite app_nil_r. auto. Qed.

Lemma only_events_trans ok w1 w2 w3 :
  only_events ok w1 w2 -> only_events ok w2 w3 -> only_events ok w1 w3.
Proof.
  intros (e1 & H1 & F1) (e2 & H2 & F2). exists (e1 ++ e2).
  rewrite H2, H1, app_assoc, forallb_app, F1, F2. auto.
Qed.

Lemma enrichment_footprint_refl w : enrichment_footprint w w.
Proof. split; [apply only_events_refl|auto]. Qed.

Lemma enrichment_footprint_trans w1 w2 w3 :
  enrichment_footprint w1 w2 -> enrichment_footprint w2 w3 ->
  enrichment_footprint w1 w3.
Proof.
  intros (E1 & S1 & T1 & N1) (E2 & S2 & T2 & N2).
  split; [eapply only_events_trans; eassumption|].
  repeat split; congruence.
Qed.

(** What fetchGeolocationData does: nothing at all for an absent, empty
    or private address, and otherwise one lookup, of that address. *)
Lemma fetchGeolocationData_result env ip w :
  exists g w' evs,
    fetchGeolocationData env ip w = (Ok g, w')
    /\ trace w' = trace w ++ evs
    /\ id_users w' = id_users w
    /\ id_sync_state w' = id_sync_state w
    /\ apiCallTimestamps w' = apiCallTimestamps w
    /\ netCalls w' = netCalls w
    /\ updates_written evs = []
    /\ ((evs = [] /\ g = None /\ w' = w)
        \/ (exists s, ip = Some s /\ truthy s = true
                      /\ isPrivateIP (Some s) = false
                      /\ evs = [EvGeoLookup s]
                      /\ g = match geo env (geoCalls w) with
                             | Resolved body => body
                             | Rejected _ _ => None
                             end)).
Proof.
  unfold fetchGeolocationData. destruct ip as [s|].
  2:{ exists None, w, []. rewrite app_nil_r. repeat split; auto. }
  destruct (truthy s) eqn:Et; cbn [negb orb].
  2:{ exists None, w, []. rewrite app_nil_r. repeat split; auto. }
  destruct (isPrivateIP (Some s)) eqn:Ep.
  { exists None, w, []. rewrite app_nil_r. repeat split; auto. }
  unfold try_catch, axios_get_geo, ret.
  destruct (geo env (geoCalls w)) as [body|r q] eqn:Eg;
    do 2 eexists; exists [EvGeoLookup s];
    (split; [reflexivity|]); repeat split; auto;
    right; exists s; repeat split; auto.
Qed.

Lemma enrichment_footprint_geo env ip :
  preserves enrichment_footprint (fetchGeolocationData env ip).
Proof.
  intros w.
  destruct (fetchGeolocationData_result env ip w)
    as (g & w' & evs & Hr & Ht & _ & Hs & Hts & Hn & _ & Hcase).
  rewrite Hr. cbn [snd]. split; [|auto].
  exists evs. split; [exact Ht|].
  destruct Hcase as [(-> & _)|(s & _ & Htr & Hp & -> & _)]; [reflexivity|].
  cbn [forallb enrichment_event]. rewrite Htr, Hp. reflexivity.
Qed.

Lemma enrichment_footprint_enrichUser env userId g :
  preserves enrichment_footprint (enrichUser env userId g).
Proof.
  intros w.
  destruct (enrichUser_result env userId g w)
    as (b & w' & evs & Hr & Ht & (He & _) & Hs & Hts & Hn & _).
  rewrite Hr. cbn [snd]. split; [|auto]. exists evs. auto.
Qed.

Lemma enrichment_footprint_select env B off :
  preserves enrichment_footprint (getUsersNeedingEnrichment env B off).
Proof.
  intros w. unfold getUsersNeedingEnrichment.
  unfold try_catch, bind, db_call, gets, modify, throw, ret.
  destruct (db env (dbCalls w)); cbn; (split; [|auto]);
    eexists; split; reflexivity.
Qed.

Lemma enrichment_footprint_timer env ms :
  preserves enrichment_footprint (setTimeout env ms).
Proof.
  intros w. split; [|cbn; auto].
  exists []. cbn. rewrite app_nil_r. auto.
Qed.

Lemma enrichment_events_projections evs :
  forallb enrichment_event evs = true ->
  Forall (fun ip => truthy ip = true /\ isPrivateIP (Some ip) = false)
    (geo_lookups evs)
  /\ fetched_pages evs = [] /\ upsert_calls evs = []
  /\ checkpoints_written evs = [].
Proof.
  induction evs as [|e evs IH]; cbn [forallb]; intros H.
  - repeat split; constructor.
  - apply andb_true_iff in H. destruct H as [He Hrest].
    destruct (IH Hrest) as (Hg & Hf & Hu & Hc).
    destruct e; cbn in He; try discriminate; cbn; repeat split; auto.
    constructor; [|exact Hg].
    apply andb_true_iff in He. destruct He as [Ht Hp].
    apply negb_true_iff in Hp. auto.
Qed.

(** An enrichment run, however it ends, looks up only addresses that are
    non-empty and not private; it fetches no feed page, upserts no user
    and neither reads nor writes the checkpoint row; the limiter state
    of the sync code is untouched. *)
Theorem enrichment_run_footprint (env : Env) (fuel : nat) (w : World) :
  let w' := snd (enrichUsers env fuel w) in
  let evs := events_since w w' in
  Forall (fun ip => truthy ip = true /\ isPrivateIP (Some ip) = false)
    (geo_lookups evs)
  /\ fetched_pages evs = [] /\ upsert_calls evs = []
  /\ checkpoints_written evs = []
  /\ id_sync_state w' = id_sync_state w
  /\ apiCallTimestamps w' = apiCallTimestamps w.
Proof.
  cbv zeta.
  destruct (preserves_enrichUsers enrichment_footprint enrichment_footprint_refl
              enrichment_footprint_trans env
              (enrichment_footprint_select env) (enrichment_footprint_geo env)
              (enrichment_footprint_enrichUser env)
              (enrichment_footprint_timer env) fuel w)
    as ((evs & Ht & He) & Hs & Hts & _).
  rewrite (events_since_app _ _ _ Ht).
  destruct (enrichment_events_projections evs He) as (H1 & H2 & H3 & H4).
  repeat split; assumption.
Qed.

(** fetchGeolocationData never throws: it makes one lookup when the
    address is non-empty and not private and none otherwise, and any
    failure of the API (an error response, no response, a local error)
    comes back as null; the table is not touched. *)
Theorem fetchGeolocationData_never_throws (env : Env) (ip : option string)
    (w : World) :
  let r := fetchGeolocationData env ip w in
  (exists g, fst r = Ok g)
  /\ geo_lookups (events_since w (snd r))
     = match ip with
       | Some s => if truthy s && negb (isPrivateIP ip) then [s] else []
       | None => []
       end
  /\ (forall response request,
        geo env (geoCalls w) = Rejected response request -> fst r = Ok None)
  /\ id_users (snd r) = id_users w.
Proof.
  cbv zeta.
  destruct (fetchGeolocationData_result env ip w)
    as (g & w' & evs & Hr & Ht & Hu & _ & _ & _ & _ & Hcase).
  rewrite Hr. cbn [fst snd]. rewrite (events_since_app _ _ _ Ht).
  split; [eauto|]. split; [|split; [|exact Hu]].
  - destruct Hcase as [(-> & _ & Hw)|(s & -> & Htr & Hp & -> & _)].
    + subst w'. unfold fetchGeolocationData in Hr.
      destruct ip as [s|]; [|reflexivity].
      destruct (truthy s) eqn:Et; [|reflexivity].
      destruct (isPrivateIP (Some s)) eqn:Ep; [reflexivity|].
      cbn [negb orb] in Hr. exfalso.
      unfold try_catch, axios_get_geo, ret in Hr.
      destruct (geo env (geoCalls w)); injection Hr as _ Hw;
        apply (f_equal geoCalls) in Hw; cbn in Hw; lia.
    + rewrite Htr, Hp. reflexivity.
  - intros response request Hg.
    destruct Hcase as [(_ & -> & _)|(s & _ & _ & _ & _ & ->)]; [reflexivity|].
    rewrite Hg. reflexivity.
Qed.

(** The selector returns at most batchSize rows, each of them a row of
    the table with an ip_address and at least one enrichment column
    null; it throws only the store's own error; the table is not
    touched. *)
Theorem getUsersNeedingEnrichment_rows (env : Env) (batchSize offset : nat)
    (w : World) :
  let r := getUsersNeedingEnrichment env batchSize offset w in
  match fst r with
  | Ok rows =>
      List.length rows <= batchSize
      /\ Forall (fun row =>
                   In row (id_users w)
                   /\ ip_address row <> None
                   /\ exists c, column c row = None) rows
  | Throw e => exists code, e = StoreError code
                            /\ db env (dbCalls w) = DbError code
  | Diverge => False
  end
  /\ id_users (snd r) = id_users w.
Proof.
  cbv zeta. split; [|apply getUsersNeedingEnrichment_table].
  unfold getUsersNeedingEnrichment.
  unfold try_catch, bind, db_call, gets, modify, throw, ret.
  destruct (db env (dbCalls w)) as [|code]; cbn [fst]; [|eauto].
  cbn [id_users set_dbCalls].
  split; [rewrite length_firstn; lia|].
  apply Forall_forall. intros row Hin.
  assert (Hin2 : In row (filter needs_enrichment (id_users w))).
  { rewrite <- (firstn_skipn offset (filter needs_enrichment (id_users w))).
    apply in_or_app. right.
    rewrite <- (firstn_skipn batchSize
                  (skipn offset (filter needs_enrichment (id_users w)))).
    apply in_or_app. left. exact Hin. }
  apply filter_In in Hin2. destruct Hin2 as [Hin2 Hneed].
  split; [exact Hin2|].
  unfold needs_enrichment in Hneed. apply andb_true_iff in Hneed.
  destruct Hneed as [Hip Hnull]. split.
  - destruct (ip_address row); [discriminate|discriminate Hip].
  - unfold is_null in Hnull. rewrite !orb_true_iff, !negb_true_iff in Hnull.
    destruct Hnull as [[[[H|H]|H]|H]|H];
      [exists CountryNameOfficial|exists State|exists City|exists District
      |exists CountryCode];
      cbn [column];
      match goal with |- ?x = None => destruct x; [discriminate H|reflexivity] end.
Qed.

Lemma updates_written_app a b :
  updates_written (a ++ b) = updates_written a ++ updates_written b.
Proof. apply flat_map_app. Qed.

Lemma geo_lookups_app a b : geo_lookups (a ++ b) = geo_lookups a ++ geo_lookups b.
Proof. apply flat_map_app. Qed.

(** One user of the for loop of processEnrichmentBatch: at most one
    lookup, at most one update, and enrichedCount goes up by the number
    of updates written. *)
Lemma process_user_step env user e w :
  exists g w1 e1 w2 evs,
    fetchGeolocationData env (ip_address user) w = (Ok g, w1)
    /\ (if is_some g
        then success <- enrichUser env (row_user_id user) g ;;
             ret (if success then S e else e)
        else ret e) w1 = (Ok e1, w2)
    /\ trace w2 = trace w ++ evs
    /\ e1 = e + List.length (updates_written evs)
    /\ List.length (updates_written evs) <= 1
    /\ List.length (geo_lookups evs) <= 1.
Proof.
  destruct (fetchGeolocationData_result env (ip_address user) w)
    as (g & w1 & evs1 & Hg & Ht1 & _ & _ & _ & _ & Hu1 & Hcase1).
  assert (Hl1 : List.length (geo_lookups evs1) <= 1).
  { destruct Hcase1 as [(-> & _)|(s & _ & _ & _ & -> & _)]; cbn; lia. }
  exists g, w1.
  destruct (is_some g).
  - destruct (enrichUser_result env (row_user_id user) g w1)
      as (b & w2 & evs2 & Hr & Ht2 & (_ & Hgl) & _ & _ & _ & Hcase).
    exists (if b then S e else e), w2, (evs1 ++ evs2).
    split; [exact Hg|].
    split; [rewrite (bind_ok _ _ _ _ _ Hr); reflexivity|].
    split; [rewrite Ht2, Ht1, app_assoc; reflexivity|].
    rewrite updates_written_app, geo_lookups_app, Hu1, Hgl, !length_app.
    destruct Hcase as [(-> & _ & ->)|(-> & loc & cur & _ & _ & _ & _ & ->)];
      cbn; repeat split; lia.
  - exists e, w1, evs1. split; [exact Hg|]. split; [reflexivity|].
    split; [exact Ht1|].
    rewrite Hu1. cbn. repeat split; lia.
Qed.

Lemma process_users_counts env : forall us p e w,
  exists e' w' evs,
    process_users env us p e w = (Ok (p + List.length us, e'), w')
    /\ trace w' = trace w ++ evs
    /\ e' = e + List.length (updates_written evs)
    /\ List.length (updates_written evs) <= List.length us
    /\ List.length (geo_lookups evs) <= List.length us.
Proof.
  induction us as [|user us IH]; intros p e w.
  - exists e, w, []. cbn. rewrite Nat.add_0_r, app_nil_r. repeat split; auto.
  - destruct (process_user_step env user e w)
      as (g & w1 & e1 & w2 & evs1 & Hg & Hen & Ht1 & He1 & Hu1 & Hg1).
    destruct (IH (S p) e1 (snd (setTimeout env 200 w2)))
      as (e' & w' & evs & Hrest & Ht & He & Hu & Hgl).
    exists e', w', (evs1 ++ evs).
    split; [|split; [|split; [|split]]].
    + cbn [process_users].
      rewrite (bind_ok _ _ w (S p, e1) (snd (setTimeout env 200 w2))).
      * cbn [fst snd]. rewrite Hrest. f_equal. f_equal. f_equal. cbn. lia.
      * apply try_catch_ok.
        rewrite (bind_ok _ _ _ _ _ Hg), (bind_ok _ _ _ _ _ Hen). reflexivity.
    + rewrite Ht. cbn [snd setTimeout modify trace set_timers set_clock].
      rewrite Ht1, app_assoc. reflexivity.
    + rewrite updates_written_app, length_app. lia.
    + rewrite updates_written_app, length_app. cbn [List.length]. lia.
    + rewrite geo_lookups_app, length_app. cbn [List.length]. lia.
Qed.

Lemma select_events B off r :
  updates_written [EvSelect B off r] = [] /\ geo_lookups [EvSelect B off r] = [].
Proof. split; reflexivity. Qed.

Lemma processEnrichmentBatch_counts env B off w :
  exists r w' evs,
    processEnrichmentBatch env B off w = (r, w')
    /\ trace w' = trace w ++ evs
    /\ match r with
       | Ok res =>
           enriched res = List.length (updates_written evs)
           /\ enriched res <= processed res
           /\ List.length (geo_lookups evs) <= processed res
       | Throw _ => updates_written evs = [] /\ geo_lookups evs = []
       | Diverge => False
       end.
Proof.
  unfold processEnrichmentBatch. rewrite try_rethrow.
  unfold getUsersNeedingEnrichment.
  set (rows := firstn B (skipn off (filter needs_enrichment (id_users w)))).
  destruct (db env (dbCalls w)) as [|code] eqn:Edb.
  - assert (Hsel : try_catch
              (reply <- db_call env ;;
               match reply with
               | DbOk =>
                   rows <- gets (fun w => firstn B (skipn off
                             (filter needs_enrichment (id_users w)))) ;;
                   modify (log (EvSelect B off (Some (List.length rows)))) ;;
                   ret rows
               | DbError code =>
                   modify (log (EvSelect B off None)) ;;
                   throw (StoreError code)
               end) (fun error => throw error) w
            = (Ok rows,
               log (EvSelect B off (Some (List.length rows)))
                 (set_dbCalls (S (dbCalls w)) w))).
    { rewrite try_rethrow. unfold bind, db_call, gets, modify, ret.
      rewrite Edb. reflexivity. }
    rewrite (bind_ok _ _ _ _ _ Hsel).
    destruct (List.length rows =? 0)%nat eqn:Ez.
    + do 2 eexists. exists [EvSelect B off (Some (List.length rows))].
      split; [reflexivity|]. split; [reflexivity|]. cbn. repeat split; lia.
    + destruct (process_users_counts env rows 0 0
                  (log (EvSelect B off (Some (List.length rows)))
                     (set_dbCalls (S (dbCalls w)) w)))
        as (e' & w' & evs & Hp & Ht & He & Hu & Hg).
      rewrite (bind_ok _ _ _ _ _ Hp). cbn [fst snd Nat.add].
      do 2 eexists. exists ([EvSelect B off (Some (List.length rows))] ++ evs).
      split; [reflexivity|].
      split; [rewrite Ht; cbn; rewrite <- app_assoc; reflexivity|].
      cbn [enriched processed].
      rewrite updates_written_app, geo_lookups_app.
      destruct (select_events B off (Some (List.length rows))) as [-> ->].
      cbn [app]. repeat split; lia.
  - do 2 eexists. exists [EvSelect B off None]. split.
    + unfold bind, try_catch, db_call, gets, modify, ret, throw.
      rewrite Edb. reflexivity.
    + split; [reflexivity|]. split; reflexivity.
Qed.

Lemma enrichUsers_loop_counts env B :
  forall fuel off tp te more w,
    exists evs,
      trace (snd (enrichUsers_loop env fuel B off tp te more w)) = trace w ++ evs
      /\ match fst (enrichUsers_loop env fuel B off tp te more w) with
         | Ok (tp', te') =>
             te' = te + List.length (updates_written evs)
             /\ tp <= tp'
             /\ List.length (updates_written evs) <= tp' - tp
             /\ List.length (geo_lookups evs) <= tp' - tp
         | _ => True
         end.
Proof.
  induction fuel as [|fuel IH]; intros off tp te more w.
  - exists []. rewrite app_nil_r. destruct more; cbn; repeat split; lia.
  - destruct more.
    2:{ exists []. rewrite app_nil_r, enrichUsers_loop_done. cbn. repeat split; lia. }
    rewrite enrichUsers_loop_step.
    destruct (processEnrichmentBatch_counts env B off w)
      as (r & w1 & evs1 & Hr & Ht1 & Hcase).
    rewrite Hr. destruct r as [res|e|]; [|exists evs1; cbn; auto|destruct Hcase].
    destruct Hcase as (He & Hle & Hg). cbv zeta.
    set (more' := if (processed res <? B)%nat then false else hasMore res).
    destruct (IH (off + B) (tp + processed res) (te + enriched res) more'
                (if more' then snd (setTimeout env 500 w1) else w1))
      as (evs2 & Ht2 & Hres).
    exists (evs1 ++ evs2). split.
    + rewrite Ht2. destruct more';
        cbn [snd setTimeout modify trace set_timers set_clock];
        rewrite Ht1, app_assoc; reflexivity.
    + destruct (fst (enrichUsers_loop env fuel B (off + B) (tp + processed res)
                       (te + enriched res) more' _)) as [[tp' te']| |]; auto.
      destruct Hres as (H1 & H2 & H3 & H4).
      rewrite updates_written_app, geo_lookups_app, !length_app.
      repeat split; lia.
Qed.

(** The totals a run of enrichUsers reports: totalEnriched is the number
    of updates of id_users that the store accepted, it is never more
    than totalProcessed, and no more lookups were made than users
    processed. *)
Theorem enrichUsers_totals (env : Env) (fuel : nat) (w : World) :
  let r := enrichUsers env fuel w in
  let evs := events_since w (snd r) in
  match fst r with
  | Ok (totalProcessed, totalEnriched) =>
      totalEnriched = List.length (updates_written evs)
      /\ totalEnriched <= totalProcessed
      /\ List.length (geo_lookups evs) <= totalProcessed
  | _ => True
  end.
Proof.
  cbv zeta. unfold enrichUsers. rewrite try_rethrow.
  destruct (enrichUsers_loop_counts env (ENRICHMENT_BATCH_SIZE env)
              fuel 0 0 0 true w) as (evs & Ht & Hres).
  rewrite (events_since_app _ _ _ Ht).
  destruct (fst (enrichUsers_loop env fuel _ 0 0 0 true w)) as [[tp te]| |]; auto.
  destruct Hres as (H1 & H2 & H3 & H4). repeat split; lia.
Qed.

Lemma fetchGeolocationData_never_throws_witness :
  fst (fetchGeolocationData (env_of [] [] [Rejected (Some (429, "Too Many Requests")) true] 50)
         (Some "8.8.8.8") world0) = Ok None.
Proof.
  destruct (fetchGeolocationData_never_throws
              (env_of [] [] [Rejected (Some (429, "Too Many Requests")) true] 50)
              (Some "8.8.8.8") world0) as (_ & _ & H & _).
  exact (H (Some (429, "Too Many Requests")) true eq_refl).
Defined.

(** ** isPrivateIP on public addresses *)

Lemma dead_sound : forall r,
  dead r = true -> nullable r = false /\ forall c, dead (deriv c r) = true.
Proof.
  induction r as [| | |r IHr s IHs|r IHr s IHs|]; cbn [dead nullable deriv];
    intros H; try discriminate H.
  - apply orb_true_iff in H. destruct H as [H|H].
    + destruct (IHr H) as [Hn Hd]. rewrite Hn. split; [reflexivity|].
      intros c. cbn [dead]. rewrite Hd. reflexivity.
    + destruct (IHs H) as [Hn Hd]. rewrite Hn, andb_false_r.
      split; [reflexivity|]. intros c.
      destruct (nullable r); cbn [dead]; rewrite ?Hd, H, ?orb_true_r; reflexivity.
  - apply andb_true_iff in H. destruct H as [H1 H2].
    destruct (IHr H1) as [Hn1 Hd1]. destruct (IHs H2) as [Hn2 Hd2].
    rewrite Hn1, Hn2. split; [reflexivity|].
    intros c. cbn [dead]. rewrite Hd1, Hd2. reflexivity.
  - split; [reflexivity|]. intros c. reflexivity.
Qed.

Lemma dead_no_match : forall s r, dead r = true -> regex_test r s = false.
Proof.
  induction s as [|c s IH]; intros r H; destruct (dead_sound r H) as [Hn Hd];
    cbn [regex_test]; rewrite Hn; [reflexivity|].
  cbn [orb]. apply IH, Hd.
Qed.

Lemma settled_no_match : forall p r rest,
  settled r p = true -> regex_test r (p ++ rest)%string = false.
Proof.
  unfold settled. induction p as [|c p IH]; intros r rest H;
    apply andb_true_iff in H; destruct H as [Ht Hd];
    apply negb_true_iff in Ht.
  - apply dead_no_match. exact Hd.
  - cbn [regex_test append] in Ht |- *.
    apply orb_false_iff in Ht. destruct Ht as [Hn Ht].
    rewrite Hn. cbn [orb]. apply IH.
    rewrite Ht. exact Hd.
Qed.

Lemma append_assoc3 : forall a b c : string,
  ((a ++ b) ++ c = a ++ b ++ c)%string.
Proof. induction a as [|x a IH]; intros b c; cbn; [|rewrite IH]; reflexivity. Qed.

Lemma truthy_with_dot a b : truthy (a ++ "." ++ b)%string = true.
Proof. destruct a; reflexivity. Qed.

Lemma no_range_matches_public p rest :
  no_range_matches p = true ->
  existsb (fun range => regex_test range (p ++ rest)%string) privateRanges = false.
Proof.
  unfold no_range_matches. induction privateRanges as [|r rs IH];
    cbn [forallb existsb]; [reflexivity|].
  intros H. apply andb_true_iff in H. destruct H as [H1 H2].
  rewrite (settled_no_match _ _ _ H1), (IH H2). reflexivity.
Qed.

Lemma octets_complete o : (o < 256)%N -> In o octets.
Proof.
  intros H. unfold octets. apply in_map_iff. exists (N.to_nat o).
  split; [apply N2Nat.id|]. apply in_seq. lia.
Qed.

Lemma all_octets_decided :
  forallb (fun o1 => forallb (leading_octets_decide o1) octets) octets = true.
Proof. vm_compute. reflexivity. Qed.

Lemma octets_decide o1 o2 :
  (o1 < 256)%N -> (o2 < 256)%N -> leading_octets_decide o1 o2 = true.
Proof.
  intros H1 H2. pose proof all_octets_decided as H.
  rewrite forallb_forall in H. specialize (H o1 (octets_complete o1 H1)).
  rewrite forallb_forall in H. exact (H o2 (octets_complete o2 H2)).
Qed.

Lemma octet_lt k a : (octet k a < 256)%N.
Proof. unfold octet. apply N.mod_lt. discriminate. Qed.

(** Membership in a reserved block only looks at the two leading octets. *)
Lemma in_reserved_block_octets a :
  (a < 2 ^ 32)%N ->
  in_reserved_block (ipv4 (octet 3 a) (octet 2 a) 0 0) = in_reserved_block a.
Proof.
  intros Ha. change (2 ^ 32)%N with 4294967296%N in Ha.
  unfold in_reserved_block, reserved_blocks, in_block, ipv4, octet.
  cbn [existsb fst snd].
  change (32 - 8)%N with 24%N. change (32 - 12)%N with 20%N.
  change (32 - 16)%N with 16%N.
  rewrite !N.shiftr_div_pow2.
  change (8 * 3)%N with 24%N. change (8 * 2)%N with 16%N.
  change (2 ^ 24)%N with 16777216%N. change (2 ^ 20)%N with 1048576%N.
  change (2 ^ 16)%N with 65536%N. change (2 ^ 8)%N with 256%N.
  assert (E24 : (((a / 16777216) mod 256 * 16777216
                  + (a / 65536) mod 256 * 65536 + 0 * 256 + 0) / 16777216
                 = a / 16777216)%N) by lia.
  assert (E20 : (((a / 16777216) mod 256 * 16777216
                  + (a / 65536) mod 256 * 65536 + 0 * 256 + 0) / 1048576
                 = a / 1048576)%N) by lia.
  assert (E16 : (((a / 16777216) mod 256 * 16777216
                  + (a / 65536) mod 256 * 65536 + 0 * 256 + 0) / 65536
                 = a / 65536)%N) by lia.
  rewrite E24, E20, E16. reflexivity.
Qed.

(** On a 32-bit address written in dotted decimal, isPrivateIP answers
    exactly whether the address lies in one of the six reserved blocks:
    no public address is taken for a private one, and for a public
    address fetchGeolocationData does make the lookup, once, and counts
    it. *)
Theorem isPrivateIP_exact_on_ipv4 (a : N) (env : Env) (w : World) :
  (a < 2 ^ 32)%N ->
  isPrivateIP (Some (dotted a)) = in_reserved_block a
  /\ (in_reserved_block a = false ->
      let w' := snd (fetchGeolocationData env (Some (dotted a)) w) in
      events_since w w' = [EvGeoLookup (dotted a)]
      /\ geoCalls w' = S (geoCalls w)).
Proof.
  intros Ha.
  assert (Hexact : isPrivateIP (Some (dotted a)) = in_reserved_block a).
  { destruct (in_reserved_block a) eqn:Eb.
    - apply reserved_block_private. exact Eb.
    - pose proof (octets_decide _ _ (octet_lt 3 a) (octet_lt 2 a)) as Hd.
      unfold leading_octets_decide in Hd.
      rewrite (in_reserved_block_octets a Ha), Eb in Hd. cbn [orb] in Hd.
      unfold isPrivateIP, dotted. rewrite truthy_with_dot. cbn [negb].
      pose proof (no_range_matches_public _
                    (dec (octet 1 a) ++ "." ++ dec (octet 0 a))%string Hd) as Hn.
      rewrite !append_assoc3 in Hn. exact Hn. }
  split; [exact Hexact|].
  intros Eb. cbv zeta. rewrite Eb in Hexact.
  assert (Ht : truthy (dotted a) = true) by apply truthy_with_dot.
  unfold fetchGeolocationData. rewrite Hexact, Ht. cbn [negb orb].
  unfold try_catch, axios_get_geo, bind, gets, modify, ret, throw.
  destruct (geo env (geoCalls w)); cbn [snd]; (split; [|reflexivity]);
    apply (events_since_app _ _ [EvGeoLookup (dotted a)]); reflexivity.
Qed.

Lemma isPrivateIP_exact_on_ipv4_witness :
  isPrivateIP (Some (dotted (ipv4 8 8 8 8))) = false
  /\ isPrivateIP (Some (dotted (ipv4 172 32 0 1))) = false
  /\ isPrivateIP (Some (dotted (ipv4 172 31 0 1))) = true.
Proof.
  split; [|split].
  - exact (proj1 (isPrivateIP_exact_on_ipv4 (ipv4 8 8 8 8)
                    (env_of [] [] [] 50) world0 eq_refl)).
  - exact (proj1 (isPrivateIP_exact_on_ipv4 (ipv4 172 32 0 1)
                    (env_of [] [] [] 50) world0 eq_refl)).
  - exact (proj1 (isPrivateIP_exact_on_ipv4 (ipv4 172 31 0 1)
                    (env_of [] [] [] 50) world0 eq_refl)).
Defined.

(** ** The tables the two services produce

    No run of either service puts an empty string into an enrichment
    column: a table without empty strings there (as the empty table is)
    stays so. *)

Lemma keeps_no_empty_columns_same w w' :
  id_users w' = id_users w -> keeps_no_empty_columns w w'.
Proof. intros H Hc. rewrite H. exact Hc. Qed.

Lemma unenriched_no_empty r : unenriched r -> forall c, column c r <> Some "".
Proof.
  intros (H1 & H2 & H3 & H4 & H5) c. destruct c; cbn; congruence.
Qed.

Lemma syncUsers_keeps_no_empty_columns env fuel w :
  no_empty_columns (id_users w) ->
  no_empty_columns (id_users (snd (syncUsers env fuel w))).
Proof.
  intros Hc.
  assert (Hext : table_extends w (snd (syncUsers env fuel w))).
  { apply (preserves_syncUsers table_extends table_extends_refl table_extends_trans).
    - intros page w0. apply table_extends_same.
      pose proof (after_fetch_spec env page w0) as H. cbv zeta in H.
      rewrite after_fetch_eq. cbn [snd]. tauto.
    - apply table_extends_insertUsers.
    - intros w0. apply table_extends_same.
      apply (proj2 (getCheckpoint_footprint env w0)).
    - intros v w0. apply table_extends_same.
      apply (proj2 (updateCheckpoint_footprint env v w0)). }
  destruct Hext as (added & -> & Hadded).
  apply Forall_app. split; [exact Hc|].
  eapply Forall_impl; [|exact Hadded]. apply unenriched_no_empty.
Qed.

Lemma enrichUsers_keeps_no_empty_columns env fuel w :
  no_empty_columns (id_users w) ->
  no_empty_columns (id_users (snd (enrichUsers env fuel w))).
Proof.
  apply (preserves_enrichUsers keeps_no_empty_columns).
  - intros w0 H. exact H.
  - intros w1 w2 w3 H1 H2 H. apply H2, H1, H.
  - intros B off w0. apply keeps_no_empty_columns_same,
      getUsersNeedingEnrichment_table.
  - intros ip w0. apply keeps_no_empty_columns_same, fetchGeolocationData_table.
  - intros id g w0 H. apply enrichUser_keeps_no_empty_columns. exact H.
  - intros ms w0. apply keeps_no_empty_columns_same. reflexivity.
Qed.
